(** * lzw15: the TIFF-style LZW codec of [pyart.aux_io.lzw15]

    A shallow embedding of [src/pyart/aux_io/lzw15.py] and the properties
    of its bit utilities, its codepoint [Encoder] and [Decoder], its
    [BitPacker] and [BitUnpacker], and the [compress]/[decompress] façade.

    Conventions of the embedding.
    - A Python byte (an [int] in [range(256)], or a [bytes] object of
      length one) is a [Byte.byte]; a [bytes] string is a [list byte].
    - A codepoint, a dictionary size and every other unsigned counter is
      an [N]; signed configuration integers are [Z].
    - A bit (the ints [0]/[1] the source tests for truth) is a [bool].
    - A generator is run to its end: its meaning is the list of the values
      it yields together with the way it ends (a final value, or the
      exception it raises). *)

From Stdlib Require Import NArith ZArith List Lia Bool ZifyNat ZifyN.
From Stdlib Require Import Strings.Byte.
From stdpp Require Import base decidable countable gmap fin_maps list.

Local Open Scope N_scope.

(** ** Exceptions and generators *)

Inductive exn : Type :=
| ValueError
| TypeError
| IndexError
| KeyError
| StructError.

Inductive outcome (A : Type) : Type :=
| Done (a : A)
| Raised (e : exn).
Arguments Done {A} a.
Arguments Raised {A} e.

(** [Gen O A]: what was yielded, then how the generator body ended. *)
Definition Gen (O A : Type) : Type := (list O * outcome A)%type.

Definition gret {O A} (a : A) : Gen O A := ([], Done a).
Definition graise {O A} (e : exn) : Gen O A := ([], Raised e).
Definition gyield {O} (o : O) : Gen O unit := ([o], Done tt).

Definition gbind {O A B} (m : Gen O A) (f : A -> Gen O B) : Gen O B :=
  match m with
  | (o, Done a) => let '(o', r) := f a in (o ++ o', r)
  | (o, Raised e) => (o, Raised e)
  end.

Notation "'do' x <- m ; k" := (gbind m (fun x => k))
  (at level 10, x name, m at level 100, k at level 200, only parsing).
Notation "'do' ' p <- m ; k" := (gbind m (fun x => let 'p := x in k))
  (at level 10, p strict pattern, m at level 100, k at level 200, only parsing).
Notation "'run' m ; k" := (gbind m (fun _ => k))
  (at level 10, m at level 100, k at level 200, only parsing).

(** Yielded values and ending of a run. *)
Definition yielded {O A} (g : Gen O A) : list O := fst g.
Definition ending {O A} (g : Gen O A) : outcome A := snd g.

(** ** Module constants *)

Definition END_OF_INFO_CODE : N := 256.
Definition BUMP_CODE : N := 257.
Definition NEXT_BUMP_CODE : N := 511.
Definition CLEAR_CODE : N := 258.
Definition DEFAULT_MIN_BITS : nat := 9.
Definition DEFAULT_MAX_BITS : nat := 15.
Definition MAX_CODE : N := 2 ^ N.of_nat DEFAULT_MAX_BITS.
Definition FIRST_CODE : N := 259.

(** ** Conveniences: bits, bytes and integers *)

(** [struct.pack("B", v)]: the byte of value [v], [struct.error] outside
    [0..255]. *)
Definition struct_pack_B (v : N) : outcome byte :=
  match Byte.of_N v with
  | Some b => Done b
  | None => Raised StructError
  end.

(** [unpackbyte]: the integer value of a byte. *)
Definition unpackbyte (b : byte) : N := Byte.to_N b.

(** The [while remains:] loop of [inttobits], least significant bit first:
    [retreverse.append(remains & 1); remains = remains >> 1].  The two
    constructors of a [positive] are exactly that test and that shift. *)
Fixpoint retreverse_pos (remains : positive) : list bool :=
  match remains with
  | xH => [true]
  | xO r => false :: retreverse_pos r
  | xI r => true :: retreverse_pos r
  end.

Definition retreverse_of (anint : N) : list bool :=
  match anint with
  | N0 => []
  | Npos p => retreverse_pos p
  end.

(** [inttobits(anint, width)]. [[0] * k] is empty for a negative [k], which
    is what the truncated subtraction of [nat] computes. *)
Definition inttobits (anint : N) (width : option nat) : list bool :=
  let ret := rev (retreverse_of anint) in
  match width with
  | Some w => repeat false (w - length ret)%nat ++ ret
  | None => ret
  end.

(** [enumerate(l)] from a start index. *)
Fixpoint enumerate_from {A} (i : N) (l : list A) : list (N * A) :=
  match l with
  | [] => []
  | x :: r => (i, x) :: enumerate_from (N.succ i) r
  end.

(** [intfrombits(bits)]. *)
Definition intfrombits (bits : list bool) : N :=
  let lsb_first := rev bits in
  fold_left
    (fun ret '(bit_index, lsb_first_el) =>
       if (lsb_first_el : bool) then N.lor ret (N.shiftl 1 bit_index) else ret)
    (enumerate_from 0 lsb_first) 0.

(** The bits of one byte in [bytestobits]: [for bitplusone in range(8, 0, -1)]. *)
Definition byte_bits (value : N) : list bool :=
  map (fun bitplusone : nat =>
         let bitindex := (bitplusone - 1)%nat in
         negb (N.land 1 (N.shiftr value (N.of_nat bitindex)) =? 0))
      [8; 7; 6; 5; 4; 3; 2; 1]%nat.

(** [bytestobits(bytesource)]. *)
Definition bytestobits (bytesource : list byte) : list bool :=
  flat_map (fun b => byte_bits (unpackbyte b)) bytesource.

(** The loop of [bitstobytes], with its three variables. *)
Fixpoint bitstobytes_loop (bits : list bool) (ret : list N)
         (nextbyte : N) (nextbit : N) : list N * N * N :=
  match bits with
  | [] => (ret, nextbyte, nextbit)
  | bit :: rest =>
      let nextbyte := if bit then N.lor nextbyte (N.shiftl 1 nextbit) else nextbyte in
      if negb (nextbit =? 0)
      then bitstobytes_loop rest ret nextbyte (nextbit - 1)
      else bitstobytes_loop rest (ret ++ [nextbyte]) 0 7
  end.

(** [bitstobytes(bits)]. *)
Definition bitstobytes (bits : list bool) : list N :=
  let '(ret, nextbyte, nextbit) := bitstobytes_loop bits [] 0 7 in
  if nextbit <? 7 then ret ++ [nextbyte] else ret.

(** ** Python dictionaries

    A [dict] is a finite map together with its number of entries, which
    [len] reads in constant time. *)

Global Instance byte_eq_dec : EqDecision byte := Byte.byte_eq_dec.
Global Instance byte_countable : Countable byte :=
  inj_countable Byte.to_N Byte.of_N Byte.of_to_N.

Section pydict.
Context {K V : Type} `{Countable K}.

Record pydict : Type := PyDict { d_items : gmap K V; d_len : N }.

Definition dict_empty : pydict := PyDict ∅ 0.

(** [k in d] *)
Definition dict_contains (k : K) (d : pydict) : bool :=
  match d_items d !! k with Some _ => true | None => false end.

(** [d[k]], [None] standing for [KeyError] *)
Definition dict_get (k : K) (d : pydict) : option V := d_items d !! k.

(** [d[k] = v] *)
Definition dict_set (k : K) (v : V) (d : pydict) : pydict :=
  PyDict (<[k := v]> (d_items d))
         (if dict_contains k d then d_len d else N.succ (d_len d)).

(** [len(d)] *)
Definition dict_len (d : pydict) : N := d_len d.

(** The stored length is the number of entries. *)
Definition dict_wf (d : pydict) : Prop := d_len d = N.of_nat (size (d_items d)).
End pydict.
Arguments pydict K V {_ _}.

(** [range(256)] and the one-byte strings [struct.pack("B", codept)] over it. *)
Definition range256 : list N := map N.of_nat (seq 0 256).
Definition byte_range : list byte := omap Byte.of_N range256.

(** ** Encoder *)

Module Encoder.

(** Keys of [_prefixes]: byte strings, and the three control codes, which
    are stored under themselves as integers. *)
Definition key : Type := (list byte + N)%type.

Record t : Type := mk {
  closed : bool;
  _max_code_size : Z;
  _buffer : list byte;
  _prefixes : pydict key N;
  _next_bumb_code : N;
  _current_code_bits : N
}.

Definition initial_prefixes : pydict key N :=
  let d := fold_left (fun d b => dict_set (inl [b]) (Byte.to_N b) d)
                     byte_range dict_empty in
  let d := dict_set (inr END_OF_INFO_CODE) END_OF_INFO_CODE d in
  let d := dict_set (inr BUMP_CODE) BUMP_CODE d in
  dict_set (inr CLEAR_CODE) CLEAR_CODE d.

Definition _clear_codes (self : t) : t :=
  {| closed := closed self;
     _max_code_size := _max_code_size self;
     _buffer := _buffer self;
     _prefixes := initial_prefixes;
     _next_bumb_code := NEXT_BUMP_CODE;
     _current_code_bits := 9 |}.

Definition code_size (self : t) : N := dict_len (_prefixes self).

Definition set_buffer (self : t) (b : list byte) : t :=
  {| closed := closed self;
     _max_code_size := _max_code_size self;
     _buffer := b;
     _prefixes := _prefixes self;
     _next_bumb_code := _next_bumb_code self;
     _current_code_bits := _current_code_bits self |}.

Definition _add_code (self : t) (newstring : list byte) : t :=
  {| closed := closed self;
     _max_code_size := _max_code_size self;
     _buffer := _buffer self;
     _prefixes := dict_set (inl newstring) (dict_len (_prefixes self)) (_prefixes self);
     _next_bumb_code := _next_bumb_code self;
     _current_code_bits := _current_code_bits self |}.

(** [Encoder(max_code_size)] *)
Definition __init__ (max_code_size : Z) : outcome t :=
  let self := _clear_codes
                {| closed := false;
                   _max_code_size := max_code_size;
                   _buffer := [];
                   _prefixes := dict_empty;
                   _next_bumb_code := 0;
                   _current_code_bits := 0 |} in
  if (max_code_size <? Z.of_N (code_size self))%Z
  then Raised ValueError
  else Done self.

Definition flush (self : t) : Gen N t :=
  do self <- match _buffer self with
             | [] => gret self
             | _ :: _ =>
                 match dict_get (inl (_buffer self)) (_prefixes self) with
                 | Some code => run gyield code; gret (set_buffer self [])
                 | None => graise KeyError
                 end
             end;
  run gyield END_OF_INFO_CODE;
  gret (_clear_codes self).

Definition bump (self : t) : Gen N t :=
  run gyield BUMP_CODE;
  gret {| closed := closed self;
          _max_code_size := _max_code_size self;
          _buffer := _buffer self;
          _prefixes := _prefixes self;
          _next_bumb_code := N.lor (N.shiftl (_next_bumb_code self) 1) 1;
          _current_code_bits := _current_code_bits self + 1 |}.

Definition _encode_byte (self : t) (point : byte) : Gen N t :=
  let byte := [point] in
  let new_prefix := _buffer self in
  if dict_contains (inl (new_prefix ++ byte)) (_prefixes self)
  then gret (set_buffer self (new_prefix ++ byte))
  else match new_prefix with
       | _ :: _ =>
           match dict_get (inl new_prefix) (_prefixes self) with
           | Some encoded =>
               let self := _add_code self (new_prefix ++ byte) in
               run gyield encoded;
               gret (set_buffer self byte)
           | None => graise KeyError
           end
       | [] => gret (set_buffer self new_prefix)
       end.

(** The body of the [for b in bytesource] loop of [encode]. *)
Definition encode_step (self : t) (b : byte) : Gen N t :=
  do self <- _encode_byte self b;
  do self <- (if (Z.of_N (code_size self) >? _max_code_size self)%Z
              then flush self else gret self);
  if _next_bumb_code self <? code_size self
  then bump self else gret self.

Fixpoint encode_loop (self : t) (bytesource : list byte) : Gen N t :=
  match bytesource with
  | [] => gret self
  | b :: rest => do self <- encode_step self b; encode_loop self rest
  end.

Definition encode (self : t) (bytesource : list byte) : Gen N t :=
  do self <- encode_loop self bytesource;
  flush self.

End Encoder.
Arguments Encoder.initial_prefixes : simpl never.

(** ** BitPacker *)

Module BitPacker.

Record t : Type := mk { _initial_code_size : N }.

(** The local variables of [pack]. The [print] of the
    [codesize >= MAX_CODE] branch writes to the console only and is left
    out. *)
Record state : Type := mkstate {
  tailbits : list bool;
  codesize : N;
  nextwidth : nat
}.

(** [while len(tailbits) % 8: tailbits.append(0)]; seven rounds are
    always enough. *)
Fixpoint pad_loop (fuel : nat) (tailbits : list bool) : list bool :=
  match fuel with
  | O => tailbits
  | S fuel =>
      if (length tailbits mod 8 =? 0)%nat then tailbits
      else pad_loop fuel (tailbits ++ [false])
  end.

(** [for bt in nextbytes: yield struct.pack("B", bt)] *)
Fixpoint yield_packed (nextbytes : list N) : Gen byte unit :=
  match nextbytes with
  | [] => gret tt
  | bt :: rest =>
      match struct_pack_B bt with
      | Done b => run gyield b; yield_packed rest
      | Raised e => graise e
      end
  end.

(** [while len(tailbits) > 8: ...]; every round removes eight bits, so
    [length tailbits] rounds are always enough. *)
Fixpoint drain_loop (fuel : nat) (tailbits : list bool) : Gen byte (list bool) :=
  match fuel with
  | O => gret tailbits
  | S fuel =>
      if (8 <? length tailbits)%nat
      then
        let nextbits := firstn 8 tailbits in
        let nextbytes := bitstobytes nextbits in
        run yield_packed nextbytes;
        drain_loop fuel (skipn 8 tailbits)
      else gret tailbits
  end.

(** The body of [for pt in codepoints]. *)
Definition pack_step (st : state) (pt : N) : Gen byte state :=
  let newbits := inttobits pt (Some (nextwidth st)) in
  let tailbits := tailbits st ++ newbits in
  let codesize := codesize st + 1 in
  let tailbits := if pt =? END_OF_INFO_CODE then pad_loop 7 tailbits else tailbits in
  let nextwidth := if pt =? BUMP_CODE then S (nextwidth st) else nextwidth st in
  do tailbits <- drain_loop (length tailbits) tailbits;
  gret (mkstate tailbits codesize nextwidth).

Fixpoint pack_loop (st : state) (codepoints : list N) : Gen byte state :=
  match codepoints with
  | [] => gret st
  | pt :: rest => do st <- pack_step st pt; pack_loop st rest
  end.

(** [if tailbits: ...] after the loop. *)
Definition pack_tail (st : state) : Gen byte unit :=
  match tailbits st with
  | [] => gret tt
  | _ :: _ => yield_packed (bitstobytes (tailbits st))
  end.

Definition initial_state (self : t) : state :=
  mkstate [] (_initial_code_size self) DEFAULT_MIN_BITS.

(** [pack] from given local variables, over a list of codepoints. *)
Definition pack_from (st : state) (codepoints : list N) : Gen byte unit :=
  do st <- pack_loop st codepoints;
  pack_tail st.

(** [pack(codepoints)] over a list of codepoints. *)
Definition pack (self : t) (codepoints : list N) : Gen byte unit :=
  pack_from (initial_state self) codepoints.

(** [pack(codepoints)] over a generator: an exception of the source
    comes out of the [for] loop. *)
Definition pack_gen {A} (self : t) (codepoints : Gen N A) : Gen byte unit :=
  do st <- pack_loop (initial_state self) (yielded codepoints);
  match ending codepoints with
  | Done _ => pack_tail st
  | Raised e => graise e
  end.

End BitPacker.

(** ** BitUnpacker *)

Module BitUnpacker.

Record t : Type := mk { _initial_code_size : N }.

(** The local variables of [unpack]. *)
Record state : Type := mkstate {
  bits : list bool;
  offset : N;
  ignore : N;
  codesize : N;
  pointwidth : nat
}.

(** The body of [for nextbit in bytestobits(bytesource)]. *)
Definition unpack_step (st : state) (nextbit : bool) : Gen N state :=
  let offset := (offset st + 1) mod 8 in
  if 0 <? ignore st
  then gret (mkstate (bits st) offset (ignore st - 1) (codesize st) (pointwidth st))
  else
    let bits := bits st ++ [nextbit] in
    if (length bits =? pointwidth st)%nat
    then
      let codepoint := intfrombits bits in
      run gyield codepoint;
      let codesize := codesize st + 1 in
      let pointwidth :=
        if codepoint =? BUMP_CODE then S (pointwidth st) else pointwidth st in
      let ignore :=
        if codepoint =? END_OF_INFO_CODE then (8 - offset) mod 8 else ignore st in
      gret (mkstate [] offset ignore codesize pointwidth)
    else gret (mkstate bits offset (ignore st) (codesize st) (pointwidth st)).

Fixpoint unpack_bits (st : state) (bitsource : list bool) : Gen N state :=
  match bitsource with
  | [] => gret st
  | nextbit :: rest => do st <- unpack_step st nextbit; unpack_bits st rest
  end.

Definition initial_state (self : t) : state :=
  mkstate [] 0 0 (_initial_code_size self) DEFAULT_MIN_BITS.

(** [unpack(bytesource)] over a list of bytes. *)
Definition unpack (self : t) (bytesource : list byte) : Gen N state :=
  unpack_bits (initial_state self) (bytestobits bytesource).

(** [unpack(bytesource)] over a generator. *)
Definition unpack_gen {A} (self : t) (bytesource : Gen byte A) : Gen N state :=
  do st <- unpack self (yielded bytesource);
  match ending bytesource with
  | Done _ => gret st
  | Raised e => graise e
  end.

End BitUnpacker.

(** ** Decoder *)

Module Decoder.

(** Values of [_codepoints]: byte strings, and the three control codes,
    which are stored as integers. *)
Inductive value : Type :=
| Bytes (s : list byte)
| Int (n : N).

Record t : Type := mk {
  _codepoints : pydict N value;
  _prefix : option value;
  remainder : list N;
  _count : N
}.

Definition initial_codepoints : pydict N value :=
  let d := fold_left (fun d b => dict_set (Byte.to_N b) (Bytes [b]) d)
                     byte_range dict_empty in
  let d := dict_set END_OF_INFO_CODE (Int END_OF_INFO_CODE) d in
  let d := dict_set BUMP_CODE (Int BUMP_CODE) d in
  dict_set CLEAR_CODE (Int CLEAR_CODE) d.

Definition _clear_codes (self : t) : t :=
  {| _codepoints := initial_codepoints;
     _prefix := None;
     remainder := remainder self;
     _count := _count self |}.

(** [Decoder()] *)
Definition __init__ : t :=
  let self := _clear_codes (mk dict_empty None [] 0) in
  {| _codepoints := _codepoints self;
     _prefix := _prefix self;
     remainder := [];
     _count := 0 |}.

Definition code_size (self : t) : N := dict_len (_codepoints self).

(** [operator.getitem(v, 0)] *)
Definition getitem0 (v : option value) : outcome byte :=
  match v with
  | Some (Bytes (c :: _)) => Done c
  | Some (Bytes []) => Raised IndexError
  | Some (Int _) => Raised TypeError
  | None => Raised TypeError
  end.

(** [v + s] for a byte string [s] *)
Definition add_bytes (v : option value) (s : list byte) : outcome value :=
  match v with
  | Some (Bytes p) => Done (Bytes (p ++ s))
  | _ => Raised TypeError
  end.

(** [self._codepoints[len(self._codepoints)] = v], then [self._prefix = ret] *)
Definition store (self : t) (v : option value) (ret : value) : t :=
  {| _codepoints :=
       match v with
       | Some v => dict_set (dict_len (_codepoints self)) v (_codepoints self)
       | None => _codepoints self
       end;
     _prefix := Some ret;
     remainder := remainder self;
     _count := _count self |}.

Definition _decode_codepoint (self : t) (codepoint : N) : outcome (value * t) :=
  let ret := Bytes [] in
  if codepoint =? CLEAR_CODE then Done (ret, _clear_codes self)
  else if codepoint =? END_OF_INFO_CODE then Raised ValueError
  else
    if dict_contains codepoint (_codepoints self)
    then
      match dict_get codepoint (_codepoints self) with
      | None => Raised KeyError
      | Some ret =>
          match _prefix self with
          | Some prefix =>
              match getitem0 (Some ret) with
              | Raised e => Raised e
              | Done c =>
                  match add_bytes (Some prefix) [c] with
                  | Raised e => Raised e
                  | Done new => Done (ret, store self (Some new) ret)
                  end
              end
          | None => Done (ret, store self None ret)
          end
      end
    else
      match getitem0 (_prefix self) with
      | Raised e => Raised e
      | Done c =>
          match add_bytes (_prefix self) [c] with
          | Raised e => Raised e
          | Done ret => Done (ret, store self (Some ret) ret)
          end
      end.

(** [for character in iter(decoded): yield struct.Struct(">B").pack(character)] *)
Definition yield_characters (decoded : value) : Gen byte unit :=
  match decoded with
  | Bytes s => (s, Done tt)
  | Int _ => graise TypeError
  end.

(** The [for cp in codepoints] loop of [decode]. *)
Fixpoint decode_loop (self : t) (codepoints : list N) : Gen byte t :=
  match codepoints with
  | [] => gret self
  | cp :: rest =>
      if cp =? BUMP_CODE then decode_loop self rest
      else if cp =? END_OF_INFO_CODE then gret self
      else
        match _decode_codepoint self cp with
        | Raised e => graise e
        | Done (decoded, self) =>
            run yield_characters decoded;
            decode_loop self rest
        end
  end.

(** [[cp for cp in codepoints]]: the source iterator is run to its end, so
    the list holds every item and the source has none left. *)
Definition materialise {A} (source : list A) : list A * list A := (source, []).

(** [decode(codepoints)] over a source with the given pending items; the
    second component is what is left pending in the source afterwards. *)
Definition decode (self : t) (source : list N) : Gen byte t * list N :=
  let '(codepoints, source) := materialise source in
  (decode_loop self codepoints, source).

(** [decode(codepoints)] over a generator: an exception of the source is
    raised while the list is built, before anything is yielded. *)
Definition decode_gen {A} (self : t) (codepoints : Gen N A) : Gen byte t :=
  match ending codepoints with
  | Done _ => fst (decode self (yielded codepoints))
  | Raised e => graise e
  end.

End Decoder.
Arguments Decoder.initial_codepoints : simpl never.

(** ** The byte-level façade *)

Module ByteEncoder.

Record t : Type := mk { _encoder : Encoder.t; _packer : BitPacker.t }.

(** [ByteEncoder(max_width)] *)
Definition __init__ (max_width : nat) : outcome t :=
  match Encoder.__init__ (2 ^ Z.of_nat max_width)%Z with
  | Done encoder => Done (mk encoder (BitPacker.mk (Encoder.code_size encoder)))
  | Raised e => Raised e
  end.

Definition encodetobytes (self : t) (bytesource : list byte) : Gen byte unit :=
  let codepoints := Encoder.encode (_encoder self) bytesource in
  BitPacker.pack_gen (_packer self) codepoints.

End ByteEncoder.

Module ByteDecoder.

Record t : Type := mk { _decoder : Decoder.t; _unpacker : BitUnpacker.t }.

(** [ByteDecoder()] *)
Definition __init__ : t :=
  let decoder := Decoder.__init__ in
  mk decoder (BitUnpacker.mk (Decoder.code_size decoder)).

Definition decodefrombytes {A} (self : t) (bytesource : Gen byte A) : Gen byte Decoder.t :=
  let codepoints := BitUnpacker.unpack_gen (_unpacker self) bytesource in
  Decoder.decode_gen (_decoder self) codepoints.

End ByteDecoder.

(** [compress(plaintext_bytes)] *)
Definition compress (plaintext_bytes : list byte) : Gen byte unit :=
  match ByteEncoder.__init__ DEFAULT_MAX_BITS with
  | Done encoder => ByteEncoder.encodetobytes encoder plaintext_bytes
  | Raised e => graise e
  end.

(** [decompress(compressed_bytes)] *)
Definition decompress {A} (compressed_bytes : Gen byte A) : Gen byte Decoder.t :=
  ByteDecoder.decodefrombytes ByteDecoder.__init__ compressed_bytes.

(** ** Inputs of the concrete scenarios *)

(** The text of the doctests, as bytes. *)
Definition gabba : list byte :=
  ["g"; "a"; "b"; "b"; "a"; " "; "g"; "a"; "b"; "b"; "a"; " "; "y"; "o"; " ";
   "g"; "a"; "b"; "b"; "a"]%byte.

(** The codepoints the doctests of [Encoder.encode] and [Decoder.decode]
    give for it. *)
Definition gabba_doc_codepoints : list N :=
  [103; 97; 98; 98; 97; 32; 258; 260; 262; 121; 111; 263; 259; 261; 256].

(** The bytes [a, b] for all [0 <= a < b <= 255], in lexicographic order:
    no two adjacent bytes occur twice as a pair, so that every byte but the
    first adds a dictionary entry. *)
Definition pairs_input : list byte :=
  flat_map
    (fun a => flat_map
                (fun b => if (a <? b)%nat
                          then omap Byte.of_N [N.of_nat a; N.of_nat b]
                          else [])
                (seq 0 256))
    (seq 0 256).

(** Its first 32512 bytes: one byte more than fills the default dictionary. *)
Definition overflow_input : list byte := firstn (N.to_nat 32512) pairs_input.

(** ** Reference readings used in the statements *)

(** The unsigned integer a bit list stands for, most significant bit first
    (the reading [intfrombits] is documented to implement). *)
Definition msb_first_value (bits : list bool) : N :=
  fold_left (fun acc (b : bool) => 2 * acc + N.b2n b) bits 0.

(** The same, least significant bit first. *)
Fixpoint lsb_first_value (bits : list bool) : N :=
  match bits with
  | [] => 0
  | b :: rest => N.b2n b + 2 * lsb_first_value rest
  end.


(** The invariant of the states an Encoder goes through: the dictionary has
    its 259 initial entries at least, every one-byte string is a key with its
    byte value as code, the pending buffer is empty or a key, and the code of
    a byte string is a literal or at least 259. *)
Definition encoder_inv (self : Encoder.t) : Prop :=
  259 <= dict_len (Encoder._prefixes self) /\
  (forall b, dict_get (inl [b]) (Encoder._prefixes self) = Some (Byte.to_N b)) /\
  (Encoder._buffer self = [] \/
   exists code, dict_get (inl (Encoder._buffer self)) (Encoder._prefixes self) = Some code) /\
  (forall s c, dict_get (inl s) (Encoder._prefixes self) = Some c ->
               c < 256 \/ 259 <= c).

(** What [encode] may yield: a literal, END_OF_INFO, BUMP, or a code from 259 on. *)
Definition encoder_code (c : N) : Prop :=
  c < 256 \/ c = END_OF_INFO_CODE \/ c = BUMP_CODE \/ 259 <= c.


(** The bytes [BitPacker.pack] makes of a bit string: [bitstobytes], each
    value packed into a byte. *)
Definition bytes_of_bits (bits : list bool) : list byte :=
  omap Byte.of_N (bitstobytes bits).

(** The bit string [BitPacker.pack] builds from [tailbits] on, with the
    padding after every END_OF_INFO, before it is cut into bytes. *)
Fixpoint raw_bits (tailbits : list bool) (nextwidth : nat) (codepoints : list N)
  : list bool :=
  match codepoints with
  | [] => tailbits
  | pt :: rest =>
      let tailbits := tailbits ++ inttobits pt (Some nextwidth) in
      let tailbits :=
        if pt =? END_OF_INFO_CODE then BitPacker.pad_loop 7 tailbits else tailbits in
      raw_bits tailbits (if pt =? BUMP_CODE then S nextwidth else nextwidth) rest
  end.

(** The width [BitPacker.pack] has reached after some codepoints. *)
Definition width_after (nextwidth : nat) (codepoints : list N) : nat :=
  fold_left (fun w pt => if pt =? BUMP_CODE then S w else w) codepoints nextwidth.

(** Every codepoint fits the width it is packed with. *)
Fixpoint fits (nextwidth : nat) (codepoints : list N) : Prop :=
  match codepoints with
  | [] => True
  | pt :: rest =>
      (0 < nextwidth)%nat /\ pt < 2 ^ N.of_nat nextwidth /\
      fits (if pt =? BUMP_CODE then S nextwidth else nextwidth) rest
  end.

(** The keys of a Decoder dictionary are the codes below its size. *)
Definition dict_keys_below (D' : pydict N Decoder.value) : Prop :=
  forall c, dict_contains c D' = true <-> c < dict_len D'.

(** The Decoder dictionary holds the byte strings of the Encoder dictionary
    under their codes. *)
Definition mirror (D : pydict Encoder.key N) (D' : pydict N Decoder.value) : Prop :=
  dict_len D' = dict_len D /\
  dict_keys_below D' /\
  forall s c, dict_get (inl s) D = Some c <-> dict_get c D' = Some (Decoder.Bytes s).

(** The same, but for the entry the Encoder added last, [prefix ++ [b]],
    which the Decoder adds with the next codepoint. *)
Definition lagging (D : pydict Encoder.key N) (D' : pydict N Decoder.value)
           (prefix : list byte) (b : byte) : Prop :=
  dict_len D = dict_len D' + 1 /\
  dict_keys_below D' /\
  prefix <> [] /\
  (forall s, dict_get (inl s) D = Some (dict_len D') <-> s = prefix ++ [b]) /\
  forall s c, dict_get (inl s) D = Some c /\ c <> dict_len D' <->
              dict_get c D' = Some (Decoder.Bytes s).

(** An Encoder and the Decoder that has read the codepoints it yielded. *)
Definition lzw_rel (e : Encoder.t) (d : Decoder.t) : Prop :=
  encoder_inv e /\
  match Decoder._prefix d with
  | None => mirror (Encoder._prefixes e) (Decoder._codepoints d)
  | Some (Decoder.Bytes prefix) =>
      exists b rest,
        Encoder._buffer e = b :: rest /\
        lagging (Encoder._prefixes e) (Decoder._codepoints d) prefix b
  | Some (Decoder.Int _) => False
  end.

(** The Encoder has announced the width its codes need: the dictionary size
    is at most the bump threshold, which is [2^width - 1]. *)
Definition width_ok (e : Encoder.t) (width : nat) : Prop :=
  Encoder.code_size e <= Encoder._next_bumb_code e /\
  Encoder._next_bumb_code e + 1 = 2 ^ N.of_nat width /\
  (9 <= width)%nat.

(** The exception a run ended with, if any. *)
Definition raised {O A} (g : Gen O A) : option exn :=
  match ending g with
  | Done _ => None
  | Raised e => Some e
  end.

(** Bounds the Encoder keeps on its dictionary size: at least the 259 initial
    entries, at most [max_code_size], and at most the bump threshold, which is
    one less than a power of two from [2^9] on. *)
Definition encoder_bounds (self : Encoder.t) : Prop :=
  259 <= Encoder.code_size self /\
  Encoder.code_size self <= Encoder._next_bumb_code self /\
  (Z.of_N (Encoder.code_size self) <= Encoder._max_code_size self)%Z /\
  exists k : nat, (9 <= k)%nat /\ Encoder._next_bumb_code self + 1 = 2 ^ N.of_nat k.
(* ================================================================== *)
(** * Properties *)

(** ** Generators *)

Lemma gbind_gret_l {O A B} (a : A) (f : A -> Gen O B) : gbind (gret a) f = f a.
Proof. unfold gbind, gret. destruct (f a); reflexivity. Qed.

Lemma gbind_yielded {O A B} (m : Gen O A) (f : A -> Gen O B) a :
  ending m = Done a -> gbind m f = (yielded m ++ yielded (f a), ending (f a)).
Proof.
  destruct m as [o r]; simpl; intros ->. unfold gbind. destruct (f a); reflexivity.
Qed.

Lemma gbind_raised {O A B} (m : Gen O A) (f : A -> Gen O B) e :
  ending m = Raised e -> gbind m f = (yielded m, Raised e).
Proof. destruct m as [o r]; simpl; intros ->. reflexivity. Qed.

(** ** The dictionaries at construction *)

Lemma byte_range_values : map Byte.to_N byte_range = range256.
Proof. vm_compute. reflexivity. Qed.

Lemma encoder_initial_len : dict_len Encoder.initial_prefixes = 259.
Proof. vm_compute. reflexivity. Qed.

Lemma decoder_initial_len : dict_len Decoder.initial_codepoints = 259.
Proof. vm_compute. reflexivity. Qed.

(** ** Construction of an Encoder *)

Lemma encoder_init_eq (max_code_size : Z) :
  Encoder.__init__ max_code_size =
    if (max_code_size <? 259)%Z
    then Raised ValueError
    else Done (Encoder.mk false max_code_size [] Encoder.initial_prefixes
                          NEXT_BUMP_CODE 9).
Proof.
  unfold Encoder.__init__, Encoder.code_size, Encoder._clear_codes; cbn [Encoder._prefixes].
  rewrite encoder_initial_len. reflexivity.
Qed.

(** C7. [Encoder(max_code_size)] raises [ValueError] when [max_code_size] is
    below the 259 entries of the initial dictionary, and otherwise returns a
    fresh encoder; the constructor reads no input data. *)
Theorem encoder_init_max_code_size (max_code_size : Z) :
  Encoder.__init__ max_code_size =
    if (max_code_size <? 259)%Z
    then Raised ValueError
    else Done (Encoder.mk false max_code_size [] Encoder.initial_prefixes
                          NEXT_BUMP_CODE 9).
Proof. apply encoder_init_eq. Qed.

(** ** The single-codepoint primitive of the Decoder *)

(** C8. In every decoder state [_decode_codepoint] raises [ValueError] on
    END_OF_INFO, and it raises [ValueError] on no other codepoint: the
    exception is specific to this misuse. *)
Theorem decode_codepoint_end_of_info (self : Decoder.t) :
  Decoder._decode_codepoint self END_OF_INFO_CODE = Raised ValueError /\
  (forall codepoint,
      (Decoder._decode_codepoint self codepoint = Raised ValueError) <->
      (codepoint = END_OF_INFO_CODE)).
Proof.
  split; [reflexivity|].
  intros cp; split; [|intros ->; reflexivity].
  unfold Decoder._decode_codepoint.
  destruct (cp =? CLEAR_CODE) eqn:Hc; [discriminate|].
  destruct (cp =? END_OF_INFO_CODE) eqn:He; [intros _; apply N.eqb_eq, He|].
  destruct (dict_contains cp (Decoder._codepoints self)).
  - destruct (dict_get cp (Decoder._codepoints self)) as [[[|c s]|n]|];
      destruct (Decoder._prefix self) as [[p|n']|]; simpl; discriminate.
  - destruct (Decoder._prefix self) as [[[|c s]|n']|]; simpl; discriminate.
Qed.

(** ** Concrete scenarios *)

(** C5. [BitPacker(258).pack([1, 257])] yields the bytes 0x00, 0xC0, 0x40:
    both codepoints are written on 9 bits, the width is 10 only afterwards,
    and the last byte is filled with six zero bits. *)
Theorem pack_1_257 :
  BitPacker.pack (BitPacker.mk 258) [1; 257] = ([x00; xc0; x40], Done tt) /\
  bytestobits [x00; xc0; x40] =
    inttobits 1 (Some 9%nat) ++ inttobits 257 (Some 9%nat) ++ repeat false 6 /\
  ending (BitPacker.pack_loop (BitPacker.initial_state (BitPacker.mk 258)) [1; 257]) =
    Done (BitPacker.mkstate [false; true] 260 10).
Proof. repeat split; vm_compute; reflexivity. Qed.

(** C2. On the text of the doctests a fresh default Encoder yields 259, 261,
    263, 264, 260, 262 where the doctest has 258, 260, 262, 263, 259, 261;
    and a fresh Decoder given the codepoints of the doctest yields
    ["gabba "], clears its dictionary at 258 and raises [TypeError] at 260. *)
Theorem gabba_codepoints :
  Encoder.__init__ (Z.of_N MAX_CODE) =
    Done (Encoder.mk false 32768 [] Encoder.initial_prefixes NEXT_BUMP_CODE 9) /\
  yielded (Encoder.encode
             (Encoder.mk false 32768 [] Encoder.initial_prefixes NEXT_BUMP_CODE 9)
             gabba) =
    [103; 97; 98; 98; 97; 32; 259; 261; 263; 121; 111; 264; 260; 262; 256] /\
  yielded (Encoder.encode
             (Encoder.mk false 32768 [] Encoder.initial_prefixes NEXT_BUMP_CODE 9)
             gabba) <> gabba_doc_codepoints /\
  fst (Decoder.decode Decoder.__init__ gabba_doc_codepoints) =
    (firstn 6 gabba, Raised TypeError).
Proof.
  split; [reflexivity|].
  split; [vm_compute; reflexivity|].
  split; [vm_compute; discriminate|].
  vm_compute; reflexivity.
Qed.

(** ** Bits and integers *)

Lemma msb_first_value_app bits b :
  msb_first_value (bits ++ [b]) = 2 * msb_first_value bits + N.b2n b.
Proof. unfold msb_first_value. rewrite fold_left_app. reflexivity. Qed.

Lemma msb_first_value_rev bits : msb_first_value (rev bits) = lsb_first_value bits.
Proof.
  induction bits as [|b rest IH]; [reflexivity|].
  simpl rev. rewrite msb_first_value_app, IH. simpl. lia.
Qed.

Lemma msb_first_value_lsb bits : msb_first_value bits = lsb_first_value (rev bits).
Proof. rewrite <- msb_first_value_rev, rev_involutive. reflexivity. Qed.

Lemma lsb_first_value_app l1 l2 :
  lsb_first_value (l1 ++ l2) =
  lsb_first_value l1 + 2 ^ N.of_nat (length l1) * lsb_first_value l2.
Proof.
  induction l1 as [|b l1 IH]; [simpl; lia|].
  change (length (b :: l1)) with (S (length l1)).
  rewrite Nat2N.inj_succ, N.pow_succ_r'. simpl. rewrite IH. lia.
Qed.

Lemma lsb_first_value_zeros k : lsb_first_value (repeat false k) = 0.
Proof. induction k as [|k IH]; simpl in *; [reflexivity|]. rewrite IH. reflexivity. Qed.

Lemma lsb_first_value_bound l : lsb_first_value l < 2 ^ N.of_nat (length l).
Proof.
  induction l as [|b l IH]; [simpl; lia|].
  change (length (b :: l)) with (S (length l)).
  rewrite Nat2N.inj_succ, N.pow_succ_r'. simpl. destruct b; simpl; lia.
Qed.

(** The loop of [inttobits] computes what its source says: the low bit,
    then the loop on the shifted value. *)
Lemma retreverse_of_unfold (remains : N) :
  retreverse_of remains =
    if remains =? 0 then []
    else negb (N.land remains 1 =? 0) :: retreverse_of (N.shiftr remains 1).
Proof. destruct remains as [|[p|p|]]; reflexivity. Qed.

Lemma retreverse_pos_value p : lsb_first_value (retreverse_pos p) = Npos p.
Proof. induction p as [p IH|p IH|]; simpl; rewrite ?IH; lia. Qed.

Lemma retreverse_of_value v : lsb_first_value (retreverse_of v) = v.
Proof. destruct v; [reflexivity|apply retreverse_pos_value]. Qed.

Lemma retreverse_pos_length p : length (retreverse_pos p) = Pos.size_nat p.
Proof. induction p; simpl; congruence. Qed.

Lemma retreverse_of_length v : length (retreverse_of v) = N.size_nat v.
Proof. destruct v; [reflexivity|apply retreverse_pos_length]. Qed.

Lemma pos_size_nat_bounds p :
  2 ^ N.of_nat (Pos.size_nat p) <= 2 * Npos p < 2 * 2 ^ N.of_nat (Pos.size_nat p).
Proof.
  induction p as [p IH|p IH|]; cbn [Pos.size_nat];
    rewrite ?Nat2N.inj_succ, ?N.pow_succ_r'; simpl N.of_nat; lia.
Qed.

(** [v] fits in [w] bits exactly when its binary size is at most [w]. *)
Lemma size_nat_le_iff (v : N) (w : nat) :
  (N.size_nat v <= w)%nat <-> v < 2 ^ N.of_nat w.
Proof.
  destruct v as [|p]; simpl.
  - split; [intros _|lia]. apply N.neq_0_lt_0, N.pow_nonzero. lia.
  - pose proof (pos_size_nat_bounds p) as [Hlo Hhi].
    split; intros H.
    + assert (2 ^ N.of_nat (Pos.size_nat p) <= 2 ^ N.of_nat w)
        by (apply N.pow_le_mono_r; lia). lia.
    + destruct (Nat.le_gt_cases (Pos.size_nat p) w) as [|Hgt]; [assumption|exfalso].
      assert (2 * 2 ^ N.of_nat w <= 2 ^ N.of_nat (Pos.size_nat p)).
      { rewrite <- N.pow_succ_r', <- Nat2N.inj_succ. apply N.pow_le_mono_r; lia. }
      lia.
Qed.

Lemma inttobits_None_value v : msb_first_value (inttobits v None) = v.
Proof. unfold inttobits. rewrite msb_first_value_rev. apply retreverse_of_value. Qed.

Lemma inttobits_None_length v : length (inttobits v None) = N.size_nat v.
Proof. unfold inttobits. rewrite length_rev. apply retreverse_of_length. Qed.

Lemma inttobits_Some v w :
  inttobits v (Some w) = repeat false (w - N.size_nat v) ++ inttobits v None.
Proof. unfold inttobits. rewrite length_rev, retreverse_of_length. reflexivity. Qed.

Lemma inttobits_length v w :
  length (inttobits v (Some w)) = Nat.max w (N.size_nat v).
Proof.
  rewrite inttobits_Some, length_app, repeat_length, inttobits_None_length. lia.
Qed.

Lemma inttobits_value v w : msb_first_value (inttobits v (Some w)) = v.
Proof.
  rewrite inttobits_Some, msb_first_value_lsb, rev_app_distr, lsb_first_value_app.
  rewrite <- msb_first_value_lsb, inttobits_None_value.
  rewrite rev_repeat, lsb_first_value_zeros. lia.
Qed.

Lemma lor_pow2_add (ret i : N) : ret < 2 ^ i -> N.lor ret (N.shiftl 1 i) = ret + 2 ^ i.
Proof.
  intros Hlt. rewrite N.shiftl_1_l.
  assert (Hland : N.land ret (2 ^ i) = 0).
  { apply N.bits_inj; intros j. rewrite N.land_spec, N.bits_0, N.pow2_bits_eqb.
    destruct (N.eqb_spec i j) as [<-|]; [|apply andb_false_r].
    rewrite andb_true_r.
    destruct (N.eq_dec ret 0) as [->|Hnz]; [apply N.bits_0|].
    apply N.bits_above_log2, N.log2_lt_pow2; lia. }
  rewrite N.add_nocarry_lxor, N.lxor_lor by assumption. reflexivity.
Qed.

Lemma intfrombits_loop (lsb_first : list bool) (i ret : N) :
  ret < 2 ^ i ->
  fold_left
    (fun ret '(bit_index, lsb_first_el) =>
       if (lsb_first_el : bool) then N.lor ret (N.shiftl 1 bit_index) else ret)
    (enumerate_from i lsb_first) ret
  = ret + 2 ^ i * lsb_first_value lsb_first.
Proof.
  revert i ret; induction lsb_first as [|b rest IH]; intros i ret Hlt; simpl.
  - lia.
  - assert (Hpow : 2 ^ N.succ i = 2 * 2 ^ i) by apply N.pow_succ_r'.
    destruct b.
    + rewrite lor_pow2_add by assumption.
      rewrite IH by lia. rewrite Hpow. simpl N.b2n. lia.
    + rewrite IH by lia. rewrite Hpow. simpl N.b2n. lia.
Qed.

Lemma intfrombits_value bits : intfrombits bits = msb_first_value bits.
Proof.
  unfold intfrombits. rewrite intfrombits_loop by (simpl; lia).
  rewrite msb_first_value_lsb. simpl. lia.
Qed.

(** C9. [inttobits(v, w)] is the binary representation of [v], most
    significant bit first, on exactly [w] bits (zero-padded on the left) when
    [v < 2^w], and untruncated and longer than [w] otherwise; [intfrombits]
    reads any bit list most significant bit first, the empty one as 0; so
    [intfrombits(inttobits(v, w)) = v]. *)
Theorem inttobits_intfrombits (v : N) (w : nat) :
  msb_first_value (inttobits v (Some w)) = v /\
  length (inttobits v None) = N.size_nat v /\
  (v < 2 ^ N.of_nat w ->
   length (inttobits v (Some w)) = w /\
   inttobits v (Some w) = repeat false (w - N.size_nat v) ++ inttobits v None) /\
  (2 ^ N.of_nat w <= v ->
   inttobits v (Some w) = inttobits v None /\
   (w < length (inttobits v (Some w)))%nat) /\
  (forall bits, intfrombits bits = msb_first_value bits) /\
  intfrombits [] = 0 /\
  intfrombits (inttobits v (Some w)) = v.
Proof.
  split; [apply inttobits_value|].
  split; [apply inttobits_None_length|].
  split; [|split; [|split; [|split]]].
  - intros Hfit. apply size_nat_le_iff in Hfit.
    split; [rewrite inttobits_length; lia|apply inttobits_Some].
  - intros Hbig.
    assert (Hsz : (w < N.size_nat v)%nat).
    { destruct (Nat.le_gt_cases (N.size_nat v) w) as [Hle|]; [|assumption].
      apply size_nat_le_iff in Hle. lia. }
    split.
    + rewrite inttobits_Some. replace (w - N.size_nat v)%nat with 0%nat by lia.
      reflexivity.
    + rewrite inttobits_length. lia.
  - apply intfrombits_value.
  - reflexivity.
  - rewrite intfrombits_value. apply inttobits_value.
Qed.

Lemma inttobits_intfrombits_witness :
  length (inttobits 304 (Some 16%nat)) = 16%nat /\
  (9 < length (inttobits 1304 (Some 9%nat)))%nat /\
  intfrombits (inttobits 304 (Some 16%nat)) = 304.
Proof.
  destruct (inttobits_intfrombits 304 16) as (_ & _ & Hfit & _ & _ & _ & Hrt).
  destruct (inttobits_intfrombits 1304 9) as (_ & _ & _ & Hbig & _).
  split; [apply Hfit; reflexivity|].
  split; [apply Hbig; vm_compute; discriminate|exact Hrt].
Defined.

(** ** The stream loop of the Decoder *)

Lemma decode_loop_end_of_info (self : Decoder.t) (pre post : list N) :
  ~ In END_OF_INFO_CODE pre ->
  Decoder.decode_loop self (pre ++ END_OF_INFO_CODE :: post) =
  Decoder.decode_loop self pre.
Proof.
  revert self; induction pre as [|cp pre IH]; intros self Hnot.
  - reflexivity.
  - assert (Hcp : cp <> END_OF_INFO_CODE) by (intros ->; apply Hnot; left; reflexivity).
    assert (Hpre : ~ In END_OF_INFO_CODE pre) by (intros Hin; apply Hnot; right; exact Hin).
    simpl. destruct (cp =? BUMP_CODE); [apply IH, Hpre|].
    destruct (N.eqb_spec cp END_OF_INFO_CODE) as [|_]; [contradiction|].
    destruct (Decoder._decode_codepoint self cp) as [[decoded self']|e]; [|reflexivity].
    rewrite IH by exact Hpre. reflexivity.
Qed.

(** C3 (as the code has it). [decode] ends at the first END_OF_INFO: what it
    yields, and the way it ends, are those of decoding the codepoints before
    it, whatever follows. The source itself is read to its end before the
    first codepoint is decoded, so none of its items is left in it. *)
Theorem decode_stops_at_end_of_info (self : Decoder.t) (pre post : list N) :
  ~ In END_OF_INFO_CODE pre ->
  fst (Decoder.decode self (pre ++ END_OF_INFO_CODE :: post)) =
    fst (Decoder.decode self pre) /\
  snd (Decoder.decode self (pre ++ END_OF_INFO_CODE :: post)) = [].
Proof.
  intros Hnot. unfold Decoder.decode, Decoder.materialise; simpl.
  split; [apply decode_loop_end_of_info, Hnot|reflexivity].
Qed.

Lemma decode_stops_at_end_of_info_witness :
  fst (Decoder.decode Decoder.__init__ ([103; 97] ++ END_OF_INFO_CODE :: [98])) =
    fst (Decoder.decode Decoder.__init__ [103; 97]) /\
  snd (Decoder.decode Decoder.__init__ ([103; 97] ++ END_OF_INFO_CODE :: [98])) = [].
Proof.
  apply (decode_stops_at_end_of_info Decoder.__init__ [103; 97] [98]).
  simpl. intros [H|[H|[]]]; discriminate H.
Defined.

(** The claim that the codepoints after END_OF_INFO stay in the source fails:
    after decoding the source [103, 256, 98] the codepoint 98 is not left. *)
Lemma decode_leaves_nothing_in_source :
  fst (fst (Decoder.decode Decoder.__init__ [103; 256; 98])) = ["g"%byte] /\
  snd (Decoder.decode Decoder.__init__ [103; 256; 98]) <> [98].
Proof. split; [vm_compute; reflexivity|discriminate]. Qed.

(** ** The initial dictionary of the Encoder *)

Lemma byte_in_range (b : byte) : In b byte_range.
Proof.
  apply list_elem_of_In. unfold byte_range. apply list_elem_of_omap.
  exists (Byte.to_N b). split; [|apply Byte.of_to_N].
  apply list_elem_of_In. unfold range256.
  pose proof (Byte.to_N_bounded b) as Hb.
  rewrite <- (N2Nat.id (Byte.to_N b)). apply in_map, in_seq. lia.
Qed.

Lemma encoder_initial_single (b : byte) :
  dict_get (inl [b]) Encoder.initial_prefixes = Some (Byte.to_N b).
Proof.
  assert (Hall : forallb
            (fun b => match dict_get (inl [b]) Encoder.initial_prefixes with
                      | Some c => c =? Byte.to_N b
                      | None => false
                      end) byte_range = true) by (vm_compute; reflexivity).
  rewrite forallb_forall in Hall. specialize (Hall b (byte_in_range b)).
  destruct (dict_get (inl [b]) Encoder.initial_prefixes) as [c|]; [|discriminate].
  apply N.eqb_eq in Hall. congruence.
Qed.

Lemma encoder_initial_values (s : list byte) (c : N) :
  dict_get (inl s) Encoder.initial_prefixes = Some c -> c < 256.
Proof.
  assert (Hall : forallb
            (fun kc : Encoder.key * N =>
               match fst kc with inl _ => snd kc <? 256 | inr _ => true end)
            (map_to_list (d_items Encoder.initial_prefixes)) = true)
    by (vm_compute; reflexivity).
  rewrite forallb_forall in Hall.
  intros Hget. apply N.ltb_lt.
  apply (Hall (inl s, c)), list_elem_of_In, elem_of_map_to_list. exact Hget.
Qed.

(** ** Dictionary operations *)

Section pydict_facts.
Context {K V : Type} `{Countable K}.
Implicit Types (d : pydict K V) (k : K) (v : V).

Lemma dict_get_set d k k' v :
  dict_get k' (dict_set k v d) = if decide (k = k') then Some v else dict_get k' d.
Proof. unfold dict_get, dict_set; simpl. apply lookup_insert. Qed.

Lemma dict_contains_get d k :
  dict_contains k d = true <-> exists v, dict_get k d = Some v.
Proof.
  unfold dict_contains, dict_get. destruct (d_items d !! k) as [v|].
  - split; [intros _; exists v; reflexivity|reflexivity].
  - split; [discriminate|intros [v Hv]; discriminate].
Qed.

Lemma dict_contains_false d k : dict_contains k d = false <-> dict_get k d = None.
Proof.
  unfold dict_contains, dict_get. destruct (d_items d !! k); split; congruence.
Qed.

Lemma dict_len_set_new d k v :
  dict_contains k d = false -> dict_len (dict_set k v d) = N.succ (dict_len d).
Proof. unfold dict_len, dict_set; simpl. intros ->. reflexivity. Qed.

Lemma dict_len_set_old d k v :
  dict_contains k d = true -> dict_len (dict_set k v d) = dict_len d.
Proof. unfold dict_len, dict_set; simpl. intros ->. reflexivity. Qed.

(** The stored length stays the number of entries. *)
Lemma dict_wf_empty : dict_wf (dict_empty : pydict K V).
Proof. unfold dict_wf, dict_empty; simpl. rewrite map_size_empty. reflexivity. Qed.

Lemma dict_wf_set d k v : dict_wf d -> dict_wf (dict_set k v d).
Proof.
  unfold dict_wf, dict_set, dict_contains; simpl. intros Hwf.
  destruct (d_items d !! k) as [v0|] eqn:Hk.
  - rewrite Hwf. f_equal.
    rewrite <- (insert_id (d_items d) k v0 Hk) at 1.
    rewrite <- (insert_delete_eq (d_items d) k v0), <- (insert_delete_eq (d_items d) k v).
    rewrite !map_size_insert_None by apply lookup_delete_eq. reflexivity.
  - rewrite map_size_insert_None by exact Hk. rewrite Hwf. lia.
Qed.
End pydict_facts.

(** ** The Encoder keeps its invariant *)

Lemma encoder_inv_fresh (max_code_size : Z) (e : Encoder.t) :
  Encoder.__init__ max_code_size = Done e -> encoder_inv e.
Proof.
  rewrite encoder_init_eq.
  destruct (max_code_size <? 259)%Z; [discriminate|]. intros [= <-].
  unfold encoder_inv; cbn [Encoder._prefixes Encoder._buffer].
  rewrite encoder_initial_len.
  split; [lia|]. split; [apply encoder_initial_single|]. split; [left; reflexivity|].
  intros s c Hget. left. eapply encoder_initial_values, Hget.
Qed.

(** Projections of the updated encoder records. *)
Ltac enc_simpl :=
  unfold Encoder.set_buffer, Encoder._add_code, Encoder._clear_codes,
         Encoder.code_size;
  cbn [Encoder._prefixes Encoder._buffer Encoder._max_code_size
       Encoder._next_bumb_code Encoder._current_code_bits Encoder.closed].

Lemma encode_byte_spec (self : Encoder.t) (b : byte) :
  encoder_inv self ->
  exists out self',
    Encoder._encode_byte self b = (out, Done self') /\
    encoder_inv self' /\
    Encoder._max_code_size self' = Encoder._max_code_size self /\
    Encoder._next_bumb_code self' = Encoder._next_bumb_code self /\
    (Encoder.code_size self' = Encoder.code_size self \/
     Encoder.code_size self' = N.succ (Encoder.code_size self)) /\
    Forall (fun c => c < 256 \/ 259 <= c) out.
Proof.
  intros (Hlen & Hsingle & Hbuf & Hval). unfold Encoder._encode_byte.
  destruct (dict_contains (inl (Encoder._buffer self ++ [b])) (Encoder._prefixes self))
    eqn:Hc.
  - exists [], (Encoder.set_buffer self (Encoder._buffer self ++ [b])).
    split; [reflexivity|]. split.
    + unfold encoder_inv; enc_simpl. repeat split; try assumption.
      right. apply dict_contains_get, Hc.
    + enc_simpl. repeat split; try reflexivity. left; reflexivity. constructor.
  - destruct (Encoder._buffer self) as [|b0 buf] eqn:Hb.
    + exfalso. apply dict_contains_false in Hc. change ([] ++ [b]) with [b] in Hc.
      rewrite Hsingle in Hc. discriminate.
    + destruct Hbuf as [Hnil|[code Hcode]]; [discriminate|]. rewrite Hcode.
      exists [code],
        (Encoder.set_buffer (Encoder._add_code self ((b0 :: buf) ++ [b])) [b]).
      split; [reflexivity|].
      assert (Hother : forall s, dict_contains (inl s) (Encoder._prefixes self) = true ->
                dict_get (inl s)
                  (dict_set (inl ((b0 :: buf) ++ [b])) (dict_len (Encoder._prefixes self))
                            (Encoder._prefixes self)) =
                dict_get (inl s) (Encoder._prefixes self)).
      { intros s Hs. rewrite dict_get_set. destruct (decide _) as [Heq|]; [|reflexivity].
        rewrite <- Heq in Hs. congruence. }
      split.
      * unfold encoder_inv; enc_simpl. repeat split.
        -- rewrite dict_len_set_new by exact Hc. lia.
        -- intros b'. rewrite Hother; [apply Hsingle|].
           apply dict_contains_get. eexists; apply Hsingle.
        -- right. exists (Byte.to_N b). rewrite Hother; [apply Hsingle|].
           apply dict_contains_get. eexists; apply Hsingle.
        -- intros s c. rewrite dict_get_set. destruct (decide _) as [_|_].
           ++ intros [= <-]. right. exact Hlen.
           ++ apply Hval.
      * enc_simpl. repeat split; try reflexivity.
        -- right. apply dict_len_set_new, Hc.
        -- constructor; [|constructor]. eapply Hval, Hcode.
Qed.

Lemma encoder_inv_clear (self : Encoder.t) : encoder_inv (Encoder._clear_codes (Encoder.set_buffer self [])).
Proof.
  unfold encoder_inv; enc_simpl. rewrite encoder_initial_len.
  split; [lia|]. split; [apply encoder_initial_single|]. split; [left; reflexivity|].
  intros s c Hget. left. eapply encoder_initial_values, Hget.
Qed.

Lemma flush_spec (self : Encoder.t) :
  encoder_inv self ->
  exists out,
    Encoder.flush self = (out, Done (Encoder._clear_codes (Encoder.set_buffer self []))) /\
    Forall (fun c => c < 256 \/ c = END_OF_INFO_CODE \/ 259 <= c) out.
Proof.
  intros (Hlen & Hsingle & Hbuf & Hval). unfold Encoder.flush.
  destruct (Encoder._buffer self) as [|b0 buf] eqn:Hb.
  - exists [END_OF_INFO_CODE]. split.
    + unfold gbind, gret, gyield; simpl. do 2 f_equal.
      destruct self; simpl in *. subst. reflexivity.
    + constructor; [right; left; reflexivity|constructor].
  - destruct Hbuf as [Hnil|[code Hcode]]; [discriminate|]. rewrite Hcode.
    exists [code; END_OF_INFO_CODE]. split; [reflexivity|].
    constructor; [|constructor; [right; left; reflexivity|constructor]].
    destruct (Hval _ _ Hcode); [left|right; right]; assumption.
Qed.

Lemma gbind_done {O A B} (o : list O) (a : A) (f : A -> Gen O B) :
  gbind (o, Done a) f = (o ++ yielded (f a), ending (f a)).
Proof. unfold gbind. destruct (f a); reflexivity. Qed.

Lemma encoder_code_weaken (out : list N) :
  Forall (fun c => c < 256 \/ 259 <= c) out -> Forall encoder_code out.
Proof.
  intros Hall. eapply Forall_impl; [exact Hall|].
  intros c [H|H]; unfold encoder_code; [left|right; right; right]; exact H.
Qed.

Lemma encode_step_spec (self : Encoder.t) (b : byte) :
  encoder_inv self ->
  exists out self',
    Encoder.encode_step self b = (out, Done self') /\
    encoder_inv self' /\
    Encoder._max_code_size self' = Encoder._max_code_size self /\
    Encoder.code_size self' <= Encoder.code_size self + 1 /\
    (Encoder.code_size self <= Encoder.code_size self' \/
     Encoder.code_size self' = 259 /\
     (Encoder._max_code_size self < Z.of_N (Encoder.code_size self) + 1)%Z) /\
    Forall encoder_code out.
Proof.
  intros Hinv.
  assert (Hsize : 259 <= Encoder.code_size self) by apply Hinv.
  destruct (encode_byte_spec self b Hinv)
    as (out1 & self1 & Heq1 & Hinv1 & Hmax1 & _ & Hsz1 & Hout1).
  apply encoder_code_weaken in Hout1.
  unfold Encoder.encode_step. rewrite Heq1, gbind_done.
  (* the flush test *)
  assert (Hflush : exists out2 self2,
             (if (Z.of_N (Encoder.code_size self1) >? Encoder._max_code_size self1)%Z
              then Encoder.flush self1 else gret self1) = (out2, Done self2) /\
             encoder_inv self2 /\
             Encoder._max_code_size self2 = Encoder._max_code_size self /\
             Encoder.code_size self2 <= Encoder.code_size self + 1 /\
             (Encoder.code_size self <= Encoder.code_size self2 \/
              Encoder.code_size self2 = 259 /\
              (Encoder._max_code_size self < Z.of_N (Encoder.code_size self) + 1)%Z) /\
             Forall encoder_code out2).
  { destruct (Z.gtb_spec (Z.of_N (Encoder.code_size self1)) (Encoder._max_code_size self1))
      as [Hgt|Hle].
    - destruct (flush_spec self1 Hinv1) as (out2 & Heq2 & Hout2).
      exists out2, (Encoder._clear_codes (Encoder.set_buffer self1 [])).
      split; [exact Heq2|]. split; [apply encoder_inv_clear|].
      enc_simpl. rewrite encoder_initial_len.
      split; [exact Hmax1|]. split; [unfold Encoder.code_size in Hsize; lia|].
      split.
      + right. split; [reflexivity|]. unfold Encoder.code_size in *.
        destruct Hsz1 as [Hs|Hs]; rewrite Hs in Hgt; lia.
      + eapply Forall_impl; [exact Hout2|].
        intros c [H|[H|H]]; unfold encoder_code; tauto.
    - exists [], self1. split; [reflexivity|]. split; [exact Hinv1|].
      split; [exact Hmax1|].
      split; [destruct Hsz1 as [->| ->]; lia|].
      split; [left; destruct Hsz1 as [->| ->]; lia|constructor]. }
  destruct Hflush as (out2 & self2 & Heq2 & Hinv2 & Hmax2 & Hle2 & Hrel2 & Hout2).
  rewrite Heq2, gbind_done.
  destruct (Encoder._next_bumb_code self2 <? Encoder.code_size self2).
  - eexists _, _. split; [reflexivity|].
    split; [exact Hinv2|]. split; [exact Hmax2|]. split; [exact Hle2|].
    split; [exact Hrel2|].
    unfold yielded; cbn [fst Encoder.bump gbind gyield gret].
    apply Forall_app; split; [exact Hout1|].
    apply Forall_app; split; [exact Hout2|].
    constructor; [right; right; left; reflexivity|constructor].
  - eexists _, _. split; [reflexivity|].
    split; [exact Hinv2|]. split; [exact Hmax2|]. split; [exact Hle2|].
    split; [exact Hrel2|].
    unfold yielded; cbn [fst gret].
    apply Forall_app; split; [exact Hout1|].
    apply Forall_app; split; [exact Hout2|constructor].
Qed.

Lemma encode_loop_spec (self : Encoder.t) (bytesource : list byte) :
  encoder_inv self ->
  exists out self',
    Encoder.encode_loop self bytesource = (out, Done self') /\
    encoder_inv self' /\
    Encoder._max_code_size self' = Encoder._max_code_size self /\
    Forall encoder_code out.
Proof.
  revert self; induction bytesource as [|b rest IH]; intros self Hinv.
  - exists [], self. split; [reflexivity|]. split; [exact Hinv|].
    split; [reflexivity|constructor].
  - destruct (encode_step_spec self b Hinv) as (o1 & s1 & Heq1 & Hinv1 & Hmax1 & _ & _ & Ho1).
    destruct (IH s1 Hinv1) as (o2 & s2 & Heq2 & Hinv2 & Hmax2 & Ho2).
    exists (o1 ++ o2), s2. cbn [Encoder.encode_loop].
    rewrite Heq1, gbind_done, Heq2. split; [reflexivity|].
    split; [exact Hinv2|]. split; [congruence|].
    apply Forall_app; split; assumption.
Qed.


(** ** Growth of the Encoder dictionary *)




(** ** The codepoints an Encoder yields *)

(** C10. A fresh Encoder starts with 259 dictionary entries, and on every
    input [encode] ends normally having yielded only literals, END_OF_INFO,
    BUMP and codes from 259 on: never CLEAR (258), so the test of the CLEAR
    branch of [Decoder._decode_codepoint] fails on each of them. *)
Theorem encode_never_yields_clear (max_code_size : Z) (e : Encoder.t)
        (bytesource : list byte) :
  Encoder.__init__ max_code_size = Done e ->
  Encoder.code_size e = 259 /\
  exists codepoints e',
    Encoder.encode e bytesource = (codepoints, Done e') /\
    ~ In CLEAR_CODE codepoints /\
    Forall encoder_code codepoints /\
    Forall (fun cp => (cp =? CLEAR_CODE) = false) codepoints.
Proof.
  intros Hinit. split.
  { rewrite encoder_init_eq in Hinit.
    destruct (max_code_size <? 259)%Z; [discriminate|]. injection Hinit as <-.
    apply encoder_initial_len. }
  apply encoder_inv_fresh in Hinit.
  destruct (encode_loop_spec e bytesource Hinit) as (o1 & s1 & Heq1 & Hinv1 & _ & Ho1).
  destruct (flush_spec s1 Hinv1) as (o2 & Heq2 & Ho2).
  assert (Hcodes : Forall encoder_code (o1 ++ o2)).
  { apply Forall_app; split; [exact Ho1|].
    eapply Forall_impl; [exact Ho2|].
    intros c [H|[H|H]]; unfold encoder_code; tauto. }
  exists (o1 ++ o2), (Encoder._clear_codes (Encoder.set_buffer s1 [])).
  unfold Encoder.encode. rewrite Heq1, gbind_done, Heq2.
  split; [reflexivity|].
  assert (Hno : forall c, encoder_code c -> c <> CLEAR_CODE).
  { unfold encoder_code, CLEAR_CODE, END_OF_INFO_CODE, BUMP_CODE. intros c Hc. lia. }
  split; [|split; [exact Hcodes|]].
  - intros Hin. rewrite Forall_forall in Hcodes.
    apply (Hno CLEAR_CODE); [|reflexivity]. apply Hcodes, list_elem_of_In, Hin.
  - eapply Forall_impl; [exact Hcodes|]. intros c Hc. apply N.eqb_neq, Hno, Hc.
Qed.

Lemma encode_never_yields_clear_witness :
  Encoder.code_size (Encoder.mk false 32768 [] Encoder.initial_prefixes NEXT_BUMP_CODE 9) = 259 /\
  exists codepoints e',
    Encoder.encode (Encoder.mk false 32768 [] Encoder.initial_prefixes NEXT_BUMP_CODE 9)
                   gabba = (codepoints, Done e') /\
    ~ In CLEAR_CODE codepoints /\
    Forall encoder_code codepoints /\
    Forall (fun cp => (cp =? CLEAR_CODE) = false) codepoints.
Proof.
  apply (encode_never_yields_clear 32768 _ gabba).
  reflexivity.
Defined.

(** ** Bits and bytes *)

Lemma bitstobytes_loop_group (b7 b6 b5 b4 b3 b2 b1 b0 : bool) (rest : list bool)
      (ret : list N) :
  bitstobytes_loop (b7 :: b6 :: b5 :: b4 :: b3 :: b2 :: b1 :: b0 :: rest) ret 0 7 =
  bitstobytes_loop rest (ret ++ [msb_first_value [b7; b6; b5; b4; b3; b2; b1; b0]]) 0 7.
Proof. destruct b7, b6, b5, b4, b3, b2, b1, b0; reflexivity. Qed.

Lemma bitstobytes_loop_ret (bits : list bool) (ret : list N) (nextbyte nextbit : N) :
  bitstobytes_loop bits ret nextbyte nextbit =
  let '(r, nb, k) := bitstobytes_loop bits [] nextbyte nextbit in (ret ++ r, nb, k).
Proof.
  revert ret nextbyte nextbit; induction bits as [|bit rest IH]; intros ret nb k.
  - simpl. rewrite app_nil_r. reflexivity.
  - cbn [bitstobytes_loop]. destruct (negb (k =? 0)).
    + apply IH.
    + rewrite IH. rewrite (IH ([] ++ _)).
      destruct (bitstobytes_loop rest [] 0 7) as [[r nb'] k'].
      rewrite <- app_assoc. reflexivity.
Qed.

Lemma list_length8 {A} (g : list A) :
  length g = 8%nat ->
  exists b7 b6 b5 b4 b3 b2 b1 b0, g = [b7; b6; b5; b4; b3; b2; b1; b0].
Proof.
  destruct g as [|b7 [|b6 [|b5 [|b4 [|b3 [|b2 [|b1 [|b0 [|x g]]]]]]]]]; try discriminate.
  intros _. repeat eexists.
Qed.

Lemma bitstobytes_group (g rest : list bool) :
  length g = 8%nat ->
  bitstobytes (g ++ rest) = msb_first_value g :: bitstobytes rest.
Proof.
  intros Hg. destruct (list_length8 g Hg) as (b7 & b6 & b5 & b4 & b3 & b2 & b1 & b0 & ->).
  unfold bitstobytes. cbn [app]. rewrite bitstobytes_loop_group, bitstobytes_loop_ret.
  destruct (bitstobytes_loop rest [] 0 7) as [[r nb] k].
  destruct (k <? 7); reflexivity.
Qed.

Lemma byte_of_group (g : list bool) :
  length g = 8%nat ->
  exists b, Byte.of_N (msb_first_value g) = Some b /\ byte_bits (Byte.to_N b) = g.
Proof.
  intros Hg. destruct (list_length8 g Hg) as (b7 & b6 & b5 & b4 & b3 & b2 & b1 & b0 & ->).
  destruct b7, b6, b5, b4, b3, b2, b1, b0; eexists; split; reflexivity.
Qed.

Lemma byte_bits_length (v : N) : length (byte_bits v) = 8%nat.
Proof. reflexivity. Qed.

Lemma byte_bits_value (b : byte) : msb_first_value (byte_bits (Byte.to_N b)) = Byte.to_N b.
Proof. destruct b; reflexivity. Qed.

Lemma bytestobits_length (bs : list byte) : length (bytestobits bs) = (8 * length bs)%nat.
Proof.
  induction bs as [|b bs IH]; [reflexivity|].
  cbn [bytestobits flat_map]. rewrite length_app, byte_bits_length.
  unfold bytestobits in IH. rewrite IH. simpl. lia.
Qed.

Lemma bytestobits_app (bs1 bs2 : list byte) :
  bytestobits (bs1 ++ bs2) = bytestobits bs1 ++ bytestobits bs2.
Proof. unfold bytestobits. apply flat_map_app. Qed.

Lemma bitstobytes_bytes (bs : list byte) (bits : list bool) :
  bitstobytes (bytestobits bs ++ bits) = map Byte.to_N bs ++ bitstobytes bits.
Proof.
  induction bs as [|b bs IH]; [reflexivity|].
  change (bytestobits (b :: bs)) with (byte_bits (Byte.to_N b) ++ bytestobits bs).
  rewrite <- app_assoc, bitstobytes_group by apply byte_bits_length.
  rewrite byte_bits_value, IH. reflexivity.
Qed.

Lemma omap_of_to_N (bs : list byte) : omap Byte.of_N (map Byte.to_N bs) = bs.
Proof.
  induction bs as [|b bs IH]; [reflexivity|].
  cbn [map omap list_omap]. rewrite Byte.of_to_N. cbn. f_equal. exact IH.
Qed.

(** Whole bytes in front of a bit string come out unchanged. *)
Lemma bytes_of_bits_bytes (bs : list byte) (bits : list bool) :
  bytes_of_bits (bytestobits bs ++ bits) = bs ++ bytes_of_bits bits.
Proof.
  unfold bytes_of_bits. rewrite bitstobytes_bytes, omap_app, omap_of_to_N. reflexivity.
Qed.

(** Linear arithmetic with division and remainder by constants. *)
Ltac mod_lia := zify; Z.div_mod_to_equations; lia.

Lemma bitstobytes_short (t : list bool) :
  (length t < 8)%nat -> Forall (fun v => v < 256) (bitstobytes t).
Proof.
  intros Hlen.
  do 8 (try (destruct t as [|[|] t]; [vm_compute; repeat constructor| |])).
  all: simpl in Hlen; lia.
Qed.

Lemma msb_first_value_bound (bits : list bool) :
  msb_first_value bits < 2 ^ N.of_nat (length bits).
Proof.
  rewrite msb_first_value_lsb, <- (length_rev bits). apply lsb_first_value_bound.
Qed.

Lemma bitstobytes_bound (t : list bool) : Forall (fun v => v < 256) (bitstobytes t).
Proof.
  remember (length t) as n eqn:Hn. revert t Hn.
  induction n as [n IH] using lt_wf_ind; intros t ->.
  destruct (Nat.lt_ge_cases (length t) 8) as [Hlt|Hge]; [apply bitstobytes_short, Hlt|].
  rewrite <- (firstn_skipn 8 t).
  assert (Hg : length (firstn 8 t) = 8%nat) by (rewrite length_firstn; lia).
  rewrite bitstobytes_group by exact Hg. constructor.
  - pose proof (msb_first_value_bound (firstn 8 t)) as Hb. rewrite Hg in Hb. exact Hb.
  - apply (IH (length (skipn 8 t))); [rewrite length_skipn; lia|reflexivity].
Qed.

Lemma yield_packed_bounded (nextbytes : list N) :
  Forall (fun v => v < 256) nextbytes ->
  BitPacker.yield_packed nextbytes = (omap Byte.of_N nextbytes, Done tt).
Proof.
  induction 1 as [|v rest Hv _ IH]; [reflexivity|].
  cbn [BitPacker.yield_packed omap list_omap]. unfold struct_pack_B.
  destruct (Byte.of_N v) as [b|] eqn:Hb.
  - rewrite IH. reflexivity.
  - apply Byte.of_N_None_iff in Hb. lia.
Qed.

Lemma yield_packed_bits (t : list bool) :
  BitPacker.yield_packed (bitstobytes t) = (bytes_of_bits t, Done tt).
Proof. apply yield_packed_bounded, bitstobytes_bound. Qed.

(** An aligned bit string is the bits of its bytes. *)
Lemma bytestobits_bytes_of_bits (t : list bool) :
  (length t mod 8 = 0)%nat -> bytestobits (bytes_of_bits t) = t.
Proof.
  remember (length t) as n eqn:Hn. revert t Hn.
  induction n as [n IH] using lt_wf_ind; intros t -> Hal.
  destruct t as [|b0 t0]; [reflexivity|]. set (t := b0 :: t0) in *.
  assert (Hge : (8 <= length t)%nat) by (subst t; cbn [length] in *; mod_lia).
  rewrite <- (firstn_skipn 8 t).
  assert (Hg : length (firstn 8 t) = 8%nat) by (rewrite length_firstn; lia).
  unfold bytes_of_bits. rewrite bitstobytes_group by exact Hg.
  destruct (byte_of_group _ Hg) as (b & Hb & Hbits).
  cbn [omap list_omap]. rewrite Hb. cbn [bytestobits flat_map]. unfold unpackbyte.
  rewrite Hbits. f_equal.
  apply (IH (length (skipn 8 t))); [rewrite length_skipn; lia|reflexivity|].
  rewrite length_skipn. mod_lia.
Qed.

Lemma bytes_of_bits_app (t1 t2 : list bool) :
  (length t1 mod 8 = 0)%nat ->
  bytes_of_bits (t1 ++ t2) = bytes_of_bits t1 ++ bytes_of_bits t2.
Proof.
  intros Hal. rewrite <- (bytestobits_bytes_of_bits t1 Hal) at 1.
  apply bytes_of_bits_bytes.
Qed.

(** ** The padding loop of the BitPacker *)

Lemma pad_loop_spec (fuel : nat) (t : list bool) :
  ((8 - length t mod 8) mod 8 <= fuel)%nat ->
  BitPacker.pad_loop fuel t = t ++ repeat false ((8 - length t mod 8) mod 8).
Proof.
  revert t; induction fuel as [|fuel IH]; intros t Hfuel.
  - replace ((8 - length t mod 8) mod 8)%nat with 0%nat by lia.
    simpl. rewrite app_nil_r. reflexivity.
  - cbn [BitPacker.pad_loop]. destruct (Nat.eqb_spec (length t mod 8) 0) as [Hz|Hnz].
    + rewrite Hz. simpl. rewrite app_nil_r. reflexivity.
    + assert (Hlen : length (t ++ [false]) = S (length t))
        by (rewrite length_app; simpl; lia).
      rewrite IH by (rewrite Hlen; mod_lia).
      rewrite Hlen, <- app_assoc.
      replace ((8 - length t mod 8) mod 8)%nat
        with (S ((8 - S (length t) mod 8) mod 8)) by mod_lia.
      reflexivity.
Qed.

Lemma pad_loop_7 (t : list bool) :
  BitPacker.pad_loop 7 t = t ++ repeat false ((8 - length t mod 8) mod 8).
Proof. apply pad_loop_spec. mod_lia. Qed.

Lemma pad_loop_7_aligned (t : list bool) : (length (BitPacker.pad_loop 7 t) mod 8 = 0)%nat.
Proof. rewrite pad_loop_7, length_app, repeat_length. mod_lia. Qed.

Lemma pad_loop_7_prefix (p t : list bool) :
  (length p mod 8 = 0)%nat ->
  BitPacker.pad_loop 7 (p ++ t) = p ++ BitPacker.pad_loop 7 t.
Proof.
  intros Hal. rewrite !pad_loop_7, length_app, <- app_assoc.
  replace ((length p + length t) mod 8)%nat with (length t mod 8)%nat by mod_lia.
  reflexivity.
Qed.

(** ** The BitPacker cuts its bit string into bytes *)

Lemma drain_loop_spec (fuel : nat) (t : list bool) :
  (length t <= fuel)%nat ->
  exists out t',
    BitPacker.drain_loop fuel t = (out, Done t') /\
    bytestobits out ++ t' = t /\
    (length t' <= 8)%nat.
Proof.
  revert t; induction fuel as [|fuel IH]; intros t Hfuel.
  - exists [], t. destruct t; [|simpl in Hfuel; lia].
    repeat split. simpl; lia.
  - cbn [BitPacker.drain_loop]. destruct (Nat.ltb_spec 8 (length t)) as [Hgt|Hle].
    + assert (Hg : length (firstn 8 t) = 8%nat) by (rewrite length_firstn; lia).
      destruct (IH (skipn 8 t)) as (out & t' & Heq & Hbits & Hlen);
        [rewrite length_skipn; lia|].
      rewrite yield_packed_bits, gbind_done, Heq.
      exists (bytes_of_bits (firstn 8 t) ++ out), t'.
      split; [reflexivity|]. split; [|exact Hlen].
      rewrite bytestobits_app, <- app_assoc, Hbits.
      rewrite bytestobits_bytes_of_bits by (rewrite Hg; reflexivity).
      apply firstn_skipn.
    + exists [], t. repeat split. exact Hle.
Qed.

Lemma pack_step_spec (st : BitPacker.state) (pt : N) :
  let newbits := inttobits pt (Some (BitPacker.nextwidth st)) in
  let padded :=
    if pt =? END_OF_INFO_CODE
    then BitPacker.pad_loop 7 (BitPacker.tailbits st ++ newbits)
    else BitPacker.tailbits st ++ newbits in
  exists out t',
    BitPacker.pack_step st pt =
      (out, Done (BitPacker.mkstate t' (BitPacker.codesize st + 1)
                    (if pt =? BUMP_CODE then S (BitPacker.nextwidth st)
                     else BitPacker.nextwidth st))) /\
    bytestobits out ++ t' = padded /\
    (length t' <= 8)%nat.
Proof.
  intros newbits padded. unfold BitPacker.pack_step. fold newbits. fold padded.
  destruct (drain_loop_spec (length padded) padded (Nat.le_refl _))
    as (out & t' & Heq & Hbits & Hlen).
  exists out, t'. rewrite Heq, gbind_done. unfold yielded, ending, gret; simpl.
  rewrite app_nil_r. repeat split; assumption.
Qed.

Lemma raw_bits_prefix (p t : list bool) (w : nat) (cps : list N) :
  (length p mod 8 = 0)%nat ->
  raw_bits (p ++ t) w cps = p ++ raw_bits t w cps.
Proof.
  intros Hal. revert t w; induction cps as [|pt rest IH]; intros t w; [reflexivity|].
  cbn [raw_bits]. rewrite <- app_assoc.
  destruct (pt =? END_OF_INFO_CODE); [rewrite pad_loop_7_prefix by exact Hal|]; apply IH.
Qed.

Lemma raw_bits_app (t : list bool) (w : nat) (cps1 cps2 : list N) :
  raw_bits t w (cps1 ++ cps2) = raw_bits (raw_bits t w cps1) (width_after w cps1) cps2.
Proof.
  revert t w; induction cps1 as [|pt rest IH]; intros t w; [reflexivity|].
  cbn [raw_bits app]. rewrite IH. reflexivity.
Qed.

Lemma width_after_app (w : nat) (cps1 cps2 : list N) :
  width_after w (cps1 ++ cps2) = width_after (width_after w cps1) cps2.
Proof. unfold width_after. apply fold_left_app. Qed.

Lemma pack_loop_spec (st : BitPacker.state) (cps : list N) :
  exists out t',
    BitPacker.pack_loop st cps =
      (out, Done (BitPacker.mkstate t'
                    (BitPacker.codesize st + N.of_nat (length cps))
                    (width_after (BitPacker.nextwidth st) cps))) /\
    bytestobits out ++ t' = raw_bits (BitPacker.tailbits st) (BitPacker.nextwidth st) cps.
Proof.
  revert st; induction cps as [|pt rest IH]; intros st.
  - exists [], (BitPacker.tailbits st). destruct st as [t c w]. simpl.
    rewrite N.add_0_r. split; reflexivity.
  - destruct (pack_step_spec st pt) as (o1 & t1 & Heq1 & Hbits1 & _). cbv zeta in Heq1, Hbits1.
    destruct (IH (BitPacker.mkstate t1 (BitPacker.codesize st + 1)
                    (if pt =? BUMP_CODE then S (BitPacker.nextwidth st)
                     else BitPacker.nextwidth st)))
      as (o2 & t2 & Heq2 & Hbits2).
    cbn [BitPacker.tailbits BitPacker.codesize BitPacker.nextwidth] in Heq2, Hbits2.
    exists (o1 ++ o2), t2. cbn [BitPacker.pack_loop].
    rewrite Heq1, gbind_done, Heq2. unfold yielded, ending; cbn [fst snd].
    split.
    + do 3 f_equal. cbn [length]. lia.
    + rewrite bytestobits_app, <- app_assoc, Hbits2. cbn [raw_bits].
      rewrite <- Hbits1. symmetry. apply raw_bits_prefix.
      rewrite bytestobits_length. mod_lia.
Qed.

Lemma pack_tail_spec (st : BitPacker.state) :
  BitPacker.pack_tail st = (bytes_of_bits (BitPacker.tailbits st), Done tt).
Proof.
  unfold BitPacker.pack_tail. destruct (BitPacker.tailbits st) eqn:Ht; [reflexivity|].
  apply yield_packed_bits.
Qed.

(** [pack] never raises, and yields the bytes of the whole bit string. *)
Lemma pack_from_spec (st : BitPacker.state) (cps : list N) :
  BitPacker.pack_from st cps =
    (bytes_of_bits (raw_bits (BitPacker.tailbits st) (BitPacker.nextwidth st) cps), Done tt).
Proof.
  unfold BitPacker.pack_from.
  destruct (pack_loop_spec st cps) as (out & t' & Heq & Hbits).
  rewrite Heq, gbind_done, pack_tail_spec. unfold yielded, ending; cbn [fst snd BitPacker.tailbits].
  rewrite <- Hbits, bytes_of_bits_bytes. reflexivity.
Qed.

(** ** Byte alignment after END_OF_INFO *)

Lemma raw_bits_end_aligned (t : list bool) (w : nat) (pre : list N) :
  (length (raw_bits t w (pre ++ [END_OF_INFO_CODE])) mod 8 = 0)%nat.
Proof. rewrite raw_bits_app. cbn [raw_bits]. simpl (_ =? _). apply pad_loop_7_aligned. Qed.

Lemma pack_split_at_end (self : BitPacker.t) (pre post : list N) :
  let w1 := width_after DEFAULT_MIN_BITS (pre ++ [END_OF_INFO_CODE]) in
  let c1 := BitPacker._initial_code_size self
            + N.of_nat (length (pre ++ [END_OF_INFO_CODE])) in
  BitPacker.pack self (pre ++ END_OF_INFO_CODE :: post) =
    (yielded (BitPacker.pack self (pre ++ [END_OF_INFO_CODE])) ++
     yielded (BitPacker.pack_from (BitPacker.mkstate [] c1 w1) post), Done tt) /\
  exists t1,
    ending (BitPacker.pack_loop (BitPacker.initial_state self)
                                (pre ++ [END_OF_INFO_CODE])) =
      Done (BitPacker.mkstate t1 c1 w1) /\
    (length t1 mod 8 = 0)%nat.
Proof.
  intros w1 c1. split.
  - unfold BitPacker.pack. rewrite !pack_from_spec. unfold yielded; cbn [fst].
    cbn [BitPacker.initial_state BitPacker.tailbits BitPacker.nextwidth].
    f_equal.
    replace (pre ++ END_OF_INFO_CODE :: post) with ((pre ++ [END_OF_INFO_CODE]) ++ post)
      by (rewrite <- app_assoc; reflexivity).
    rewrite raw_bits_app. fold w1.
    rewrite <- (app_nil_r (raw_bits [] DEFAULT_MIN_BITS (pre ++ [END_OF_INFO_CODE]))) at 1.
    rewrite raw_bits_prefix by apply raw_bits_end_aligned.
    apply bytes_of_bits_app, raw_bits_end_aligned.
  - destruct (pack_loop_spec (BitPacker.initial_state self) (pre ++ [END_OF_INFO_CODE]))
      as (out & t1 & Heq & Hbits).
    exists t1. rewrite Heq. split; [reflexivity|].
    pose proof (raw_bits_end_aligned [] DEFAULT_MIN_BITS pre) as Hal.
    cbn [BitPacker.initial_state BitPacker.tailbits BitPacker.nextwidth] in Hbits.
    rewrite <- Hbits, length_app, bytestobits_length in Hal. mod_lia.
Qed.

Lemma pack_step_end_padded (st : BitPacker.state) :
  exists out t' k,
    BitPacker.pack_step st END_OF_INFO_CODE =
      (out, Done (BitPacker.mkstate t' (BitPacker.codesize st + 1) (BitPacker.nextwidth st))) /\
    (k < 8)%nat /\
    bytestobits out ++ t' =
      BitPacker.tailbits st ++ inttobits END_OF_INFO_CODE (Some (BitPacker.nextwidth st))
        ++ repeat false k /\
    (length t' mod 8 = 0)%nat.
Proof.
  destruct (pack_step_spec st END_OF_INFO_CODE) as (out & t' & Heq & Hbits & _).
  cbv zeta in Heq, Hbits. simpl (_ =? _) in Heq, Hbits. cbv iota in Heq, Hbits.
  set (t := BitPacker.tailbits st ++ inttobits END_OF_INFO_CODE (Some (BitPacker.nextwidth st))) in *.
  exists out, t', ((8 - length t mod 8) mod 8)%nat.
  split; [exact Heq|]. split; [mod_lia|].
  split.
  - rewrite Hbits, pad_loop_7. subst t. rewrite <- app_assoc. reflexivity.
  - pose proof (pad_loop_7_aligned t) as Hal.
    rewrite <- Hbits, length_app, bytestobits_length in Hal. mod_lia.
Qed.

(** The BitUnpacker never raises. *)
Lemma unpack_step_done (st : BitUnpacker.state) (nextbit : bool) :
  exists out st', BitUnpacker.unpack_step st nextbit = (out, Done st').
Proof.
  unfold BitUnpacker.unpack_step. destruct (0 <? BitUnpacker.ignore st); [eexists _, _; reflexivity|].
  destruct (_ =? _)%nat; eexists _, _; reflexivity.
Qed.

Lemma unpack_bits_app (st st1 : BitUnpacker.state) (bits1 bits2 : list bool) (o1 : list N) :
  BitUnpacker.unpack_bits st bits1 = (o1, Done st1) ->
  BitUnpacker.unpack_bits st (bits1 ++ bits2) =
    (o1 ++ yielded (BitUnpacker.unpack_bits st1 bits2),
     ending (BitUnpacker.unpack_bits st1 bits2)).
Proof.
  revert st o1; induction bits1 as [|b bits1 IH]; intros st o1.
  - intros [= <- <-]. change ([] ++ bits2) with bits2.
    destruct (BitUnpacker.unpack_bits st bits2); reflexivity.
  - cbn [BitUnpacker.unpack_bits app].
    destruct (unpack_step_done st b) as (o & s & ->). rewrite !gbind_done.
    destruct (BitUnpacker.unpack_bits s bits1) as [o' [s'|e']] eqn:Hx; [|discriminate].
    intros [= <- <-]. rewrite (IH s o' Hx). unfold yielded, ending; simpl.
    rewrite app_assoc. reflexivity.
Qed.

(** The offset of the BitUnpacker is the position in the bit stream modulo 8. *)
Lemma unpack_bits_offset (st st' : BitUnpacker.state) (bits : list bool) (out : list N) :
  BitUnpacker.unpack_bits st bits = (out, Done st') ->
  BitUnpacker.offset st' = (BitUnpacker.offset st + N.of_nat (length bits)) mod 8 \/
  bits = [] /\ st' = st.
Proof.
  revert st out; induction bits as [|b bits IH]; intros st out.
  - intros [= <- <-]. right. split; reflexivity.
  - cbn [BitUnpacker.unpack_bits]. intros Heq. left.
    assert (Hstep : exists o s, BitUnpacker.unpack_step st b = (o, Done s) /\
                     BitUnpacker.offset s = (BitUnpacker.offset st + 1) mod 8).
    { unfold BitUnpacker.unpack_step.
      destruct (0 <? BitUnpacker.ignore st); [eexists _, _; split; reflexivity|].
      destruct (_ =? _)%nat; eexists _, _; split; reflexivity. }
    destruct Hstep as (o & s & Hs & Hoff). rewrite Hs, gbind_done in Heq.
    destruct (BitUnpacker.unpack_bits s bits) as [o' [s'|e']] eqn:Hx; [|discriminate].
    injection Heq as <- <-.
    destruct (IH s o' Hx) as [Hoff'|[-> ->]].
    + rewrite Hoff', Hoff. cbn [length]. mod_lia.
    + rewrite Hoff. cbn [length]. mod_lia.
Qed.

(** While [ignore] is positive the bits are dropped. *)
Lemma unpack_bits_skip (skipped rest : list bool) (bits : list bool) (offset codesize : N)
      (pointwidth : nat) :
  BitUnpacker.unpack_bits
    (BitUnpacker.mkstate bits offset (N.of_nat (length skipped)) codesize pointwidth)
    (skipped ++ rest) =
  BitUnpacker.unpack_bits
    (BitUnpacker.mkstate bits ((offset + N.of_nat (length skipped)) mod 8) 0
                         codesize pointwidth)
    rest \/
  skipped = [].
Proof.
  revert offset; induction skipped as [|b skipped IH]; intros offset; [right; reflexivity|].
  left. cbn [BitUnpacker.unpack_bits app]. unfold BitUnpacker.unpack_step at 1.
  cbn [BitUnpacker.ignore BitUnpacker.offset BitUnpacker.bits BitUnpacker.codesize
       BitUnpacker.pointwidth].
  replace (0 <? N.of_nat (length (b :: skipped))) with true
    by (symmetry; apply N.ltb_lt; cbn [length]; lia).
  rewrite gbind_gret_l.
  replace (N.of_nat (length (b :: skipped)) - 1) with (N.of_nat (length skipped))
    by (cbn [length]; lia).
  destruct (IH ((offset + 1) mod 8)) as [->| ->].
  - do 2 f_equal. cbn [length]. mod_lia.
  - reflexivity.
Qed.

Lemma unpack_step_emits_end (st st' : BitUnpacker.state) (nextbit : bool) :
  BitUnpacker.unpack_step st nextbit = ([END_OF_INFO_CODE], Done st') ->
  st' = BitUnpacker.mkstate [] ((BitUnpacker.offset st + 1) mod 8)
          ((8 - (BitUnpacker.offset st + 1) mod 8) mod 8)
          (BitUnpacker.codesize st + 1) (BitUnpacker.pointwidth st).
Proof.
  unfold BitUnpacker.unpack_step.
  destruct (0 <? BitUnpacker.ignore st); [discriminate|].
  destruct (_ =? _)%nat; [|discriminate].
  unfold gbind, gyield, gret. intros [= Hcode <-]. rewrite Hcode. reflexivity.
Qed.

Lemma unpack_realigns (self : BitUnpacker.t) (bits1 skipped rest : list bool)
      (nextbit : bool) (cps : list N) (st st' : BitUnpacker.state) :
  BitUnpacker.unpack_bits (BitUnpacker.initial_state self) bits1 = (cps, Done st) ->
  BitUnpacker.unpack_step st nextbit = ([END_OF_INFO_CODE], Done st') ->
  length skipped = ((8 - S (length bits1) mod 8) mod 8)%nat ->
  ((S (length bits1) + length skipped) mod 8 = 0)%nat /\
  BitUnpacker.unpack_bits (BitUnpacker.initial_state self)
                          (bits1 ++ nextbit :: skipped ++ rest) =
    (cps ++ END_OF_INFO_CODE ::
       yielded (BitUnpacker.unpack_bits
                  (BitUnpacker.mkstate [] 0 0 (BitUnpacker.codesize st')
                                       (BitUnpacker.pointwidth st')) rest),
     ending (BitUnpacker.unpack_bits
               (BitUnpacker.mkstate [] 0 0 (BitUnpacker.codesize st')
                                    (BitUnpacker.pointwidth st')) rest)).
Proof.
  intros Hrun Hstep Hskip. split; [mod_lia|].
  assert (Hoff : BitUnpacker.offset st = N.of_nat (length bits1) mod 8).
  { destruct (unpack_bits_offset _ _ _ _ Hrun) as [->|[-> ->]]; reflexivity. }
  pose proof (unpack_step_emits_end _ _ _ Hstep) as Hst'.
  rewrite (unpack_bits_app _ _ _ (nextbit :: skipped ++ rest) _ Hrun).
  cbn [BitUnpacker.unpack_bits]. rewrite Hstep, gbind_done.
  assert (Hrest :
    BitUnpacker.unpack_bits st' (skipped ++ rest) =
    BitUnpacker.unpack_bits
      (BitUnpacker.mkstate [] 0 0 (BitUnpacker.codesize st') (BitUnpacker.pointwidth st'))
      rest).
  { rewrite Hst'. cbn [BitUnpacker.codesize BitUnpacker.pointwidth].
    replace ((8 - (BitUnpacker.offset st + 1) mod 8) mod 8)
      with (N.of_nat (length skipped)) by (rewrite Hoff; mod_lia).
    destruct (unpack_bits_skip skipped rest [] ((BitUnpacker.offset st + 1) mod 8)
                (BitUnpacker.codesize st + 1) (BitUnpacker.pointwidth st)) as [->| ->].
    - do 2 f_equal. rewrite Hoff. mod_lia.
    - cbn [length app]. do 2 f_equal.
      + rewrite Hoff. cbn [length] in Hskip. mod_lia.
  }
  rewrite Hrest. unfold yielded, ending; cbn [fst snd]. reflexivity.
Qed.

(** ** The round trip through [compress] and [decompress] *)

(** C1. On [overflow_input] (32512 bytes) the dictionary of the default
    Encoder passes 32768 entries at byte 32511; the flush then yields
    END_OF_INFO in the middle of the stream, [Decoder.decode] returns at it,
    and [decompress(compress(x))] is [x] without its last byte. *)
Theorem overflow_roundtrip_fails :
  N.of_nat (length overflow_input) = 32512 /\
  N.of_nat (count_occ N.eq_dec
              (yielded (Encoder.encode
                          (Encoder.mk false 32768 [] Encoder.initial_prefixes
                                      NEXT_BUMP_CODE 9)
                          overflow_input))
              END_OF_INFO_CODE) = 2 /\
  yielded (decompress (compress overflow_input)) =
    firstn (N.to_nat 32511) overflow_input /\
  yielded (decompress (compress overflow_input)) <> overflow_input.
Proof.
  assert (Hlen : N.of_nat (length overflow_input) = 32512) by (vm_compute; reflexivity).
  assert (Hout : yielded (decompress (compress overflow_input)) =
                 firstn (N.to_nat 32511) overflow_input).
  { apply (bool_decide_eq_true_1 _ (Decision0 := list_eq_dec _ _)).
    vm_compute. reflexivity. }
  split; [exact Hlen|]. split; [vm_compute; reflexivity|]. split; [exact Hout|].
  rewrite Hout. intros Heq. apply (f_equal (@length byte)) in Heq.
  rewrite length_firstn in Heq. lia.
Qed.

(** On inputs that leave the dictionary below its maximum the round trip
    holds: the empty input, the text of the doctests, and 1000 bytes that
    take the width from 9 to 11 bits through two BUMP codes. *)
Lemma roundtrip_small_inputs :
  yielded (compress []) = [x80; x00] /\
  yielded (decompress (compress [])) = [] /\
  yielded (decompress (compress gabba)) = gabba /\
  yielded (decompress (compress (firstn 1000 pairs_input))) = firstn 1000 pairs_input /\
  count_occ N.eq_dec
    (yielded (Encoder.encode
                (Encoder.mk false 32768 [] Encoder.initial_prefixes NEXT_BUMP_CODE 9)
                (firstn 1000 pairs_input)))
    BUMP_CODE = 2%nat.
Proof.
  split; [vm_compute; reflexivity|].
  split; [vm_compute; reflexivity|].
  split; [vm_compute; reflexivity|].
  split; [|vm_compute; reflexivity].
  apply (bool_decide_eq_true_1 _ (Decision0 := list_eq_dec _ _)).
  vm_compute. reflexivity.
Qed.

(** ** More on bits and bytes *)

Lemma bitstobytes_short_pad (t : list bool) :
  (length t < 8)%nat ->
  bitstobytes t = bitstobytes (t ++ repeat false ((8 - length t mod 8) mod 8)) /\
  length (bitstobytes t) = ((length t + 7) / 8)%nat.
Proof.
  intros Hlen.
  do 8 (try (destruct t as [|[|] t]; [split; reflexivity| |])).
  all: cbn [length] in Hlen; lia.
Qed.

Lemma split_aligned {A} (t : list A) :
  exists p r, t = p ++ r /\ (length p mod 8 = 0)%nat /\ (length r < 8)%nat /\
              (length r = length t mod 8)%nat.
Proof.
  exists (firstn (8 * (length t / 8)) t), (skipn (8 * (length t / 8)) t).
  split; [symmetry; apply firstn_skipn|].
  rewrite length_firstn, length_skipn. repeat split; mod_lia.
Qed.

Lemma bitstobytes_aligned_app (p r : list bool) :
  (length p mod 8 = 0)%nat -> bitstobytes (p ++ r) = bitstobytes p ++ bitstobytes r.
Proof.
  remember (length p) as n eqn:Hn. revert p Hn.
  induction n as [n IH] using lt_wf_ind; intros p -> Hal.
  destruct p as [|b0 p0]; [reflexivity|]. set (p := b0 :: p0) in *.
  assert (Hge : (8 <= length p)%nat) by (subst p; cbn [length] in *; mod_lia).
  rewrite <- (firstn_skipn 8 p), <- app_assoc.
  assert (Hg : length (firstn 8 p) = 8%nat) by (rewrite length_firstn; lia).
  rewrite (bitstobytes_group _ (skipn 8 p ++ r) Hg), (bitstobytes_group _ (skipn 8 p) Hg).
  cbn [app]. f_equal.
  apply (IH (length (skipn 8 p))); [rewrite length_skipn; lia|reflexivity|].
  rewrite length_skipn. mod_lia.
Qed.

Lemma bitstobytes_aligned_length (p : list bool) :
  (length p mod 8 = 0)%nat -> length (bitstobytes p) = (length p / 8)%nat.
Proof.
  remember (length p) as n eqn:Hn. revert p Hn.
  induction n as [n IH] using lt_wf_ind; intros p -> Hal.
  destruct p as [|b0 p0]; [reflexivity|]. set (p := b0 :: p0) in *.
  assert (Hge : (8 <= length p)%nat) by (subst p; cbn [length] in *; mod_lia).
  rewrite <- (firstn_skipn 8 p) at 1.
  assert (Hg : length (firstn 8 p) = 8%nat) by (rewrite length_firstn; lia).
  rewrite bitstobytes_group by exact Hg. cbn [length].
  rewrite (IH (length (skipn 8 p))); [|rewrite length_skipn; lia|reflexivity|].
  - rewrite length_skipn. mod_lia.
  - rewrite length_skipn. mod_lia.
Qed.

Lemma bitstobytes_pad (t : list bool) :
  bitstobytes t = bitstobytes (t ++ repeat false ((8 - length t mod 8) mod 8)).
Proof.
  destruct (split_aligned t) as (p & r & -> & Hp & Hr & Hmod).
  rewrite <- app_assoc, !bitstobytes_aligned_app by exact Hp. f_equal.
  rewrite length_app.
  replace ((length p + length r) mod 8)%nat with (length r mod 8)%nat by mod_lia.
  apply bitstobytes_short_pad, Hr.
Qed.

(** ** The BitUnpacker reads back what the BitPacker wrote *)

Lemma gbind_assoc {O A B C} (m : Gen O A) (f : A -> Gen O B) (g : B -> Gen O C) :
  gbind (gbind m f) g = gbind m (fun a => gbind (f a) g).
Proof.
  destruct m as [o [a|e]]; [|reflexivity]. unfold gbind at 2 3.
  destruct (f a) as [o1 [b|e1]]; [|reflexivity]. unfold gbind.
  destruct (g b) as [o2 r2]. rewrite app_assoc. reflexivity.
Qed.

Lemma gbind_gyield {O B} (o : O) (f : unit -> Gen O B) :
  gbind (gyield o) f = (o :: yielded (f tt), ending (f tt)).
Proof. unfold gbind, gyield. destruct (f tt); reflexivity. Qed.

Lemma fits_app (w : nat) (cps1 cps2 : list N) :
  fits w (cps1 ++ cps2) <-> fits w cps1 /\ fits (width_after w cps1) cps2.
Proof.
  revert w; induction cps1 as [|pt rest IH]; intros w; cbn [fits app].
  - unfold width_after; simpl. tauto.
  - rewrite IH. unfold width_after; cbn [fold_left]. tauto.
Qed.

Lemma unpack_read (bits acc rest : list bool) (o c : N) (w : nat) :
  bits <> [] ->
  (length acc + length bits = w)%nat ->
  BitUnpacker.unpack_bits (BitUnpacker.mkstate acc o 0 c w) (bits ++ rest) =
    let pt := intfrombits (acc ++ bits) in
    let o' := (o + N.of_nat (length bits)) mod 8 in
    let r := BitUnpacker.unpack_bits
               (BitUnpacker.mkstate [] o'
                  (if pt =? END_OF_INFO_CODE then (8 - o') mod 8 else 0) (c + 1)
                  (if pt =? BUMP_CODE then S w else w)) rest in
    (pt :: yielded r, ending r).
Proof.
  revert acc o; induction bits as [|b bits IH]; intros acc o Hne Hlen; [contradiction|].
  cbn [BitUnpacker.unpack_bits app]. unfold BitUnpacker.unpack_step at 1.
  cbn [BitUnpacker.ignore BitUnpacker.offset BitUnpacker.bits BitUnpacker.codesize
       BitUnpacker.pointwidth].
  change (0 <? 0) with false. cbv iota.
  destruct bits as [|b' bits].
  - assert (Hw : length (acc ++ [b]) = w) by (rewrite length_app; cbn [length] in *; lia).
    rewrite Hw, Nat.eqb_refl. cbn [app]. rewrite gbind_assoc, gbind_gyield, gbind_gret_l.
    reflexivity.
  - assert (Hw : (length (acc ++ [b]) =? w)%nat = false).
    { apply Nat.eqb_neq. rewrite length_app. cbn [length] in *. lia. }
    rewrite Hw, gbind_gret_l.
    rewrite (IH (acc ++ [b]) ((o + 1) mod 8));
      [|discriminate|rewrite length_app; cbn [length] in *; lia].
    cbv zeta. rewrite <- app_assoc. cbn [app].
    replace (((o + 1) mod 8 + N.of_nat (length (b' :: bits))) mod 8)
      with ((o + N.of_nat (length (b :: b' :: bits))) mod 8)
      by (cbn [length]; mod_lia).
    reflexivity.
Qed.

Lemma unpack_raw_bits (cps : list N) (t : list bool) (w : nat) (c : N) :
  fits w cps ->
  exists suffix,
    raw_bits t w cps = t ++ suffix /\
    BitUnpacker.unpack_bits
      (BitUnpacker.mkstate [] (N.of_nat (length t) mod 8) 0 c w) suffix =
      (cps, Done (BitUnpacker.mkstate []
                    (N.of_nat (length (raw_bits t w cps)) mod 8) 0
                    (c + N.of_nat (length cps)) (width_after w cps))).
Proof.
  revert t w c; induction cps as [|pt rest IH]; intros t w c Hfits.
  - exists []. cbn [raw_bits length]. rewrite app_nil_r, N.add_0_r. split; reflexivity.
  - destruct Hfits as (Hw & Hpt & Hrest).
    set (newbits := inttobits pt (Some w)).
    assert (Hnewlen : length newbits = w).
    { unfold newbits. rewrite inttobits_length. apply size_nat_le_iff in Hpt. lia. }
    assert (Hnewval : intfrombits newbits = pt).
    { unfold newbits. rewrite intfrombits_value. apply inttobits_value. }
    set (pad := if pt =? END_OF_INFO_CODE
                then repeat false ((8 - length (t ++ newbits) mod 8) mod 8) else []).
    assert (Hpad : (if pt =? END_OF_INFO_CODE
                    then BitPacker.pad_loop 7 (t ++ newbits) else t ++ newbits)
                   = (t ++ newbits) ++ pad).
    { unfold pad. destruct (pt =? END_OF_INFO_CODE);
        [apply pad_loop_7|rewrite app_nil_r; reflexivity]. }
    destruct (IH ((t ++ newbits) ++ pad) (if pt =? BUMP_CODE then S w else w) (c + 1) Hrest)
      as (suffix & Hraw & Hrun).
    assert (Hcons : raw_bits t w (pt :: rest) =
                    raw_bits ((t ++ newbits) ++ pad)
                             (if pt =? BUMP_CODE then S w else w) rest).
    { cbn [raw_bits]. fold newbits. rewrite Hpad. reflexivity. }
    exists (newbits ++ pad ++ suffix). split.
    + rewrite Hcons, Hraw, <- !app_assoc. reflexivity.
    + rewrite (unpack_read newbits [] (pad ++ suffix));
        [|intros Hnil; rewrite Hnil in Hnewlen; simpl in Hnewlen; lia|exact Hnewlen].
      cbv zeta. cbn [app]. rewrite Hnewval.
      assert (Hafter :
        BitUnpacker.unpack_bits
          (BitUnpacker.mkstate []
             ((N.of_nat (length t) mod 8 + N.of_nat (length newbits)) mod 8)
             (if pt =? END_OF_INFO_CODE
              then (8 - (N.of_nat (length t) mod 8 + N.of_nat (length newbits)) mod 8) mod 8
              else 0) (c + 1) (if pt =? BUMP_CODE then S w else w))
          (pad ++ suffix) =
        (rest, Done (BitUnpacker.mkstate []
                       (N.of_nat (length (raw_bits t w (pt :: rest))) mod 8) 0
                       (c + N.of_nat (length (pt :: rest)))
                       (width_after w (pt :: rest))))).
      { rewrite Hcons.
        replace (c + N.of_nat (length (pt :: rest))) with (c + 1 + N.of_nat (length rest))
          by (cbn [length]; lia).
        change (width_after w (pt :: rest))
          with (width_after (if pt =? BUMP_CODE then S w else w) rest).
        rewrite <- Hrun. unfold pad. destruct (pt =? END_OF_INFO_CODE).
        - match goal with |- context [repeat false ?k] => set (k0 := k) end.
          replace ((8 - (N.of_nat (length t) mod 8 + N.of_nat (length newbits)) mod 8) mod 8)
            with (N.of_nat (length (repeat false k0)))
            by (rewrite repeat_length; subst k0; rewrite length_app; mod_lia).
          destruct (unpack_bits_skip (repeat false k0) suffix []
                      ((N.of_nat (length t) mod 8 + N.of_nat (length newbits)) mod 8)
                      (c + 1) (if pt =? BUMP_CODE then S w else w)) as [->|Hnil].
          + do 2 f_equal. rewrite !length_app, repeat_length. subst k0.
            rewrite length_app. mod_lia.
          + rewrite Hnil. cbn [app length]. do 2 f_equal.
            * rewrite app_nil_r, length_app. mod_lia.
        - cbn [app]. do 2 f_equal. rewrite app_nil_r, length_app. mod_lia. }
      rewrite Hafter. reflexivity.
Qed.

Lemma width_after_ge (w : nat) (cps : list N) : (w <= width_after w cps)%nat.
Proof.
  revert w; induction cps as [|pt rest IH]; intros w; [unfold width_after; simpl; lia|].
  change (width_after w (pt :: rest))
    with (width_after (if pt =? BUMP_CODE then S w else w) rest).
  specialize (IH (if pt =? BUMP_CODE then S w else w)).
  destruct (pt =? BUMP_CODE); lia.
Qed.

(** Fewer bits than the width complete no codepoint. *)
Lemma unpack_bits_short (bitsource : list bool) (st : BitUnpacker.state) :
  (length (BitUnpacker.bits st) + length bitsource < BitUnpacker.pointwidth st)%nat ->
  exists st',
    BitUnpacker.unpack_bits st bitsource = ([], Done st') /\
    BitUnpacker.pointwidth st' = BitUnpacker.pointwidth st.
Proof.
  revert st; induction bitsource as [|b rest IH]; intros st Hlen.
  - exists st. split; reflexivity.
  - cbn [BitUnpacker.unpack_bits]. unfold BitUnpacker.unpack_step.
    cbn [length] in Hlen.
    destruct (0 <? BitUnpacker.ignore st).
    + rewrite gbind_gret_l.
      match goal with |- context [BitUnpacker.unpack_bits ?s rest] =>
        destruct (IH s) as (st' & Heq & Hw); [cbn; lia|] end.
      exists st'. split; [exact Heq|exact Hw].
    + assert (Hne : (length (BitUnpacker.bits st ++ [b]) =? BitUnpacker.pointwidth st)%nat
                    = false).
      { apply Nat.eqb_neq. rewrite length_app. cbn [length]. lia. }
      rewrite Hne, gbind_gret_l.
      match goal with |- context [BitUnpacker.unpack_bits ?s rest] =>
        destruct (IH s) as (st' & Heq & Hw);
          [cbn [BitUnpacker.bits BitUnpacker.pointwidth]; rewrite length_app;
           cbn [length]; lia|] end.
      exists st'. split; [exact Heq|exact Hw].
Qed.

(** A codepoint stream that fits its widths is read back from its packed
    bytes: the zero bits that fill the last byte complete no codepoint. *)
Lemma unpack_pack (packer : BitPacker.t) (unpacker : BitUnpacker.t) (cps : list N) :
  fits DEFAULT_MIN_BITS cps ->
  exists st',
    BitUnpacker.unpack unpacker (yielded (BitPacker.pack packer cps)) = (cps, Done st').
Proof.
  intros Hfits. unfold BitPacker.pack, BitUnpacker.unpack.
  rewrite pack_from_spec. unfold yielded; cbn [fst].
  cbn [BitPacker.initial_state BitPacker.tailbits BitPacker.nextwidth].
  unfold bytes_of_bits. rewrite bitstobytes_pad.
  fold (bytes_of_bits (raw_bits [] DEFAULT_MIN_BITS cps ++
          repeat false ((8 - length (raw_bits [] DEFAULT_MIN_BITS cps) mod 8) mod 8))).
  rewrite bytestobits_bytes_of_bits by (rewrite length_app, repeat_length; mod_lia).
  destruct (unpack_raw_bits cps [] DEFAULT_MIN_BITS
              (BitUnpacker._initial_code_size unpacker) Hfits) as (suffix & Hraw & Hrun).
  cbn [app] in Hraw. rewrite Hraw in *.
  set (k := ((8 - length suffix mod 8) mod 8)%nat).
  change (BitUnpacker.mkstate [] (N.of_nat (length []) mod 8) 0
            (BitUnpacker._initial_code_size unpacker) DEFAULT_MIN_BITS)
    with (BitUnpacker.initial_state unpacker) in Hrun.
  rewrite (unpack_bits_app _ _ suffix (repeat false k) _ Hrun).
  match goal with |- context [BitUnpacker.unpack_bits ?s (repeat false k)] =>
    destruct (unpack_bits_short (repeat false k) s) as (st' & Heq & _) end.
  { cbn [BitUnpacker.bits BitUnpacker.pointwidth length]. rewrite repeat_length.
    pose proof (width_after_ge DEFAULT_MIN_BITS cps). unfold DEFAULT_MIN_BITS in *.
    subst k. mod_lia. }
  exists st'. rewrite Heq. unfold yielded, ending; cbn [fst snd].
  rewrite app_nil_r. reflexivity.
Qed.

(** ** END_OF_INFO in the bytes of [pack] and under [unpack] *)

Lemma raw_bits_extends (cps : list N) (t : list bool) (w : nat) :
  exists s, raw_bits t w cps = t ++ s.
Proof.
  revert t w; induction cps as [|pt rest IH]; intros t w.
  - exists []. cbn [raw_bits]. rewrite app_nil_r. reflexivity.
  - cbn [raw_bits]. cbv zeta.
    match goal with |- context [raw_bits ?t' ?w' rest] =>
      destruct (IH t' w') as (s & ->) end.
    destruct (pt =? END_OF_INFO_CODE).
    + rewrite pad_loop_7, <- !app_assoc. eexists. reflexivity.
    + rewrite <- !app_assoc. eexists. reflexivity.
Qed.

(** The bits of the bytes made of a bit string: the string, filled with
    zeros to a whole number of bytes. *)
Lemma bytestobits_bytes_of_bits_pad (t : list bool) :
  bytestobits (bytes_of_bits t) = t ++ repeat false ((8 - length t mod 8) mod 8).
Proof.
  unfold bytes_of_bits. rewrite bitstobytes_pad.
  apply bytestobits_bytes_of_bits. rewrite length_app, repeat_length. mod_lia.
Qed.

Lemma end_of_info_width (w : nat) :
  (9 <= w)%nat -> length (inttobits END_OF_INFO_CODE (Some w)) = w.
Proof.
  intros Hw. rewrite inttobits_length.
  change (N.size_nat END_OF_INFO_CODE) with 9%nat. lia.
Qed.

(** The bits of [pack(pre + [END_OF_INFO])]: those of [pre], END_OF_INFO at
    the width reached, and zeros to the next multiple of eight. *)
Lemma pack_end_bits (packer : BitPacker.t) (pre : list N) :
  let P := raw_bits [] DEFAULT_MIN_BITS pre in
  let w0 := width_after DEFAULT_MIN_BITS pre in
  BitPacker.pack packer (pre ++ [END_OF_INFO_CODE]) =
    (bytes_of_bits (raw_bits [] DEFAULT_MIN_BITS (pre ++ [END_OF_INFO_CODE])), Done tt) /\
  raw_bits [] DEFAULT_MIN_BITS (pre ++ [END_OF_INFO_CODE]) =
    P ++ inttobits END_OF_INFO_CODE (Some w0)
      ++ repeat false ((8 - (length P + w0) mod 8) mod 8) /\
  bytestobits (yielded (BitPacker.pack packer (pre ++ [END_OF_INFO_CODE]))) =
    P ++ inttobits END_OF_INFO_CODE (Some w0)
      ++ repeat false ((8 - (length P + w0) mod 8) mod 8).
Proof.
  intros P w0.
  assert (Hpack : BitPacker.pack packer (pre ++ [END_OF_INFO_CODE]) =
    (bytes_of_bits (raw_bits [] DEFAULT_MIN_BITS (pre ++ [END_OF_INFO_CODE])), Done tt)).
  { unfold BitPacker.pack. rewrite pack_from_spec. reflexivity. }
  assert (Hraw : raw_bits [] DEFAULT_MIN_BITS (pre ++ [END_OF_INFO_CODE]) =
    P ++ inttobits END_OF_INFO_CODE (Some w0)
      ++ repeat false ((8 - (length P + w0) mod 8) mod 8)).
  { rewrite raw_bits_app. fold P w0. cbn [raw_bits]. cbv zeta.
    change (END_OF_INFO_CODE =? END_OF_INFO_CODE) with true. cbv iota.
    rewrite pad_loop_7, length_app, end_of_info_width, <- app_assoc; [reflexivity|].
    pose proof (width_after_ge DEFAULT_MIN_BITS pre). unfold DEFAULT_MIN_BITS in *.
    subst w0. lia. }
  split; [exact Hpack|]. split; [exact Hraw|].
  rewrite Hpack. unfold yielded; cbn [fst].
  rewrite bytestobits_bytes_of_bits by apply raw_bits_end_aligned. exact Hraw.
Qed.

(** The bits of what [pack] yields begin, after the bytes that end with an
    END_OF_INFO, with the next codepoint at its width. *)
Lemma pack_next_at_boundary (packer : BitPacker.t) (pre post : list N) (q : N) :
  exists tl,
    bytestobits (yielded (BitPacker.pack packer (pre ++ END_OF_INFO_CODE :: q :: post))) =
    bytestobits (yielded (BitPacker.pack packer (pre ++ [END_OF_INFO_CODE])))
      ++ inttobits q (Some (width_after DEFAULT_MIN_BITS (pre ++ [END_OF_INFO_CODE])))
      ++ tl.
Proof.
  destruct (pack_split_at_end packer pre (q :: post)) as [Hsplit _]. cbv zeta in Hsplit.
  rewrite Hsplit. unfold yielded at 1; cbn [fst]. rewrite bytestobits_app.
  rewrite pack_from_spec. unfold yielded at 2; cbn [fst].
  cbn [BitPacker.tailbits BitPacker.nextwidth].
  rewrite bytestobits_bytes_of_bits_pad.
  set (w1 := width_after DEFAULT_MIN_BITS (pre ++ [END_OF_INFO_CODE])).
  cbn [raw_bits]. cbv zeta. cbn [app].
  match goal with |- context [raw_bits ?t' ?w' post] =>
    destruct (raw_bits_extends post t' w') as (s & Hs) end.
  rewrite Hs.
  destruct (q =? END_OF_INFO_CODE).
  - rewrite pad_loop_7, <- !app_assoc. eexists. reflexivity.
  - rewrite <- !app_assoc. eexists. reflexivity.
Qed.

(** Whatever bytes follow the packed END_OF_INFO, the BitUnpacker reads them
    from an empty bit buffer at offset 0, with nothing left to skip. *)
Lemma unpack_after_packed_end (packer : BitPacker.t) (unpacker : BitUnpacker.t)
      (pre : list N) (following : list byte) :
  fits DEFAULT_MIN_BITS (pre ++ [END_OF_INFO_CODE]) ->
  BitUnpacker.unpack unpacker
    (yielded (BitPacker.pack packer (pre ++ [END_OF_INFO_CODE])) ++ following) =
  (pre ++ END_OF_INFO_CODE ::
     yielded (BitUnpacker.unpack_bits
                (BitUnpacker.mkstate [] 0 0
                   (BitUnpacker._initial_code_size unpacker
                    + N.of_nat (length (pre ++ [END_OF_INFO_CODE])))
                   (width_after DEFAULT_MIN_BITS (pre ++ [END_OF_INFO_CODE])))
                (bytestobits following)),
   ending (BitUnpacker.unpack_bits
             (BitUnpacker.mkstate [] 0 0
                (BitUnpacker._initial_code_size unpacker
                 + N.of_nat (length (pre ++ [END_OF_INFO_CODE])))
                (width_after DEFAULT_MIN_BITS (pre ++ [END_OF_INFO_CODE])))
             (bytestobits following))).
Proof.
  intros Hfits. unfold BitUnpacker.unpack. rewrite bytestobits_app.
  destruct (pack_end_bits packer pre) as (Hpack & _ & _). cbv zeta in Hpack.
  rewrite Hpack. unfold yielded at 1; cbn [fst].
  pose proof (raw_bits_end_aligned [] DEFAULT_MIN_BITS pre) as Halign.
  rewrite bytestobits_bytes_of_bits by exact Halign.
  destruct (unpack_raw_bits (pre ++ [END_OF_INFO_CODE]) [] DEFAULT_MIN_BITS
              (BitUnpacker._initial_code_size unpacker) Hfits) as (R1 & Hraw & Hrun).
  cbn [app] in Hraw. rewrite Hraw in *.
  change (BitUnpacker.mkstate [] (N.of_nat (length []) mod 8) 0
            (BitUnpacker._initial_code_size unpacker) DEFAULT_MIN_BITS)
    with (BitUnpacker.initial_state unpacker) in Hrun.
  replace (N.of_nat (length R1) mod 8) with 0 in Hrun by mod_lia.
  rewrite (unpack_bits_app _ _ R1 (bytestobits following) _ Hrun).
  rewrite <- app_assoc. reflexivity.
Qed.

Lemma unpack_bits_done (bitsource : list bool) (st : BitUnpacker.state) :
  exists out st', BitUnpacker.unpack_bits st bitsource = (out, Done st').
Proof.
  revert st; induction bitsource as [|b rest IH]; intros st.
  - exists [], st. reflexivity.
  - cbn [BitUnpacker.unpack_bits].
    destruct (unpack_step_done st b) as (o & s & ->). rewrite gbind_done.
    destruct (IH s) as (o' & s' & ->). eexists _, _. reflexivity.
Qed.

(** When the bits up to a byte boundary give END_OF_INFO and nothing else,
    the bits after it were dropped, whatever they are. *)
Lemma unpack_bits_end_realigned (bitsource : list bool) (st st' : BitUnpacker.state) :
  (BitUnpacker.offset st + N.of_nat (length bitsource)) mod 8 = 0 ->
  (length bitsource <= 8)%nat ->
  BitUnpacker.unpack_bits st bitsource = ([END_OF_INFO_CODE], Done st') ->
  st' = BitUnpacker.mkstate [] 0 0 (BitUnpacker.codesize st + 1) (BitUnpacker.pointwidth st).
Proof.
  revert st; induction bitsource as [|b rest IH]; intros st Hoff Hlen; [discriminate|].
  cbn [BitUnpacker.unpack_bits]. unfold BitUnpacker.unpack_step.
  cbn [length] in Hoff, Hlen.
  destruct (0 <? BitUnpacker.ignore st).
  - rewrite gbind_gret_l. intros Hrun. apply IH in Hrun.
    + exact Hrun.
    + cbn [BitUnpacker.offset]. mod_lia.
    + lia.
  - destruct (Nat.eqb_spec (length (BitUnpacker.bits st ++ [b])) (BitUnpacker.pointwidth st))
      as [Hfull|Hnot].
    + rewrite gbind_assoc, gbind_gyield, gbind_gret_l.
      intros Hrun. injection Hrun as Hcode Hyield Hend.
      rewrite Hcode in Hend.
      change (END_OF_INFO_CODE =? BUMP_CODE) with false in Hend.
      change (END_OF_INFO_CODE =? END_OF_INFO_CODE) with true in Hend.
      cbv iota in Hend.
      set (off' := (BitUnpacker.offset st + 1) mod 8) in *.
      assert (Hskip : (8 - off') mod 8 = N.of_nat (length rest)) by (subst off'; mod_lia).
      rewrite Hskip in Hend.
      destruct (unpack_bits_skip rest [] [] off' (BitUnpacker.codesize st + 1)
                  (BitUnpacker.pointwidth st)) as [Heq|Hnil].
      * rewrite app_nil_r in Heq. rewrite Heq in Hend. cbn in Hend.
        injection Hend as <-. f_equal. subst off'. mod_lia.
      * subst rest. cbn in Hend. injection Hend as <-. cbn [length] in *.
        f_equal. subst off'. mod_lia.
    + rewrite gbind_gret_l. intros Hrun. apply IH in Hrun.
      * exact Hrun.
      * cbn [BitUnpacker.offset]. mod_lia.
      * lia.
Qed.

(** [codesize] counts the codepoints yielded, [pointwidth] the BUMP codes
    among them. *)
Lemma unpack_bits_counters (bitsource : list bool) (st st' : BitUnpacker.state)
      (out : list N) :
  BitUnpacker.unpack_bits st bitsource = (out, Done st') ->
  BitUnpacker.codesize st' = BitUnpacker.codesize st + N.of_nat (length out) /\
  BitUnpacker.pointwidth st' = width_after (BitUnpacker.pointwidth st) out.
Proof.
  revert st out; induction bitsource as [|b rest IH]; intros st out.
  - intros [= <- <-]. cbn [length]. split; [lia|reflexivity].
  - cbn [BitUnpacker.unpack_bits]. unfold BitUnpacker.unpack_step.
    destruct (0 <? BitUnpacker.ignore st).
    + rewrite gbind_gret_l. intros Hrun. apply IH in Hrun. exact Hrun.
    + destruct (_ =? _)%nat.
      * rewrite gbind_assoc, gbind_gyield, gbind_gret_l.
        destruct (BitUnpacker.unpack_bits _ rest) as [o [s|e]] eqn:Hrest; [|discriminate].
        unfold yielded, ending; cbn [fst snd]. intros [= <- <-].
        apply IH in Hrest. cbn [BitUnpacker.codesize BitUnpacker.pointwidth] in Hrest.
        destruct Hrest as [-> ->]. cbn [length]. split; [lia|reflexivity].
      * rewrite gbind_gret_l. intros Hrun. apply IH in Hrun. exact Hrun.
Qed.

(** [unpack] over bytes: when the byte [last] brings out END_OF_INFO, the
    bytes after it are read from an empty bit buffer at offset 0. *)
Lemma unpack_skips_to_boundary (unpacker : BitUnpacker.t) (before following : list byte)
      (last : byte) (cps : list N) :
  yielded (BitUnpacker.unpack unpacker before) = cps ->
  yielded (BitUnpacker.unpack unpacker (before ++ [last])) = cps ++ [END_OF_INFO_CODE] ->
  let c := BitUnpacker._initial_code_size unpacker
           + N.of_nat (length (cps ++ [END_OF_INFO_CODE])) in
  let w := width_after DEFAULT_MIN_BITS (cps ++ [END_OF_INFO_CODE]) in
  BitUnpacker.unpack unpacker (before ++ [last]) =
    (cps ++ [END_OF_INFO_CODE], Done (BitUnpacker.mkstate [] 0 0 c w)) /\
  BitUnpacker.unpack unpacker (before ++ last :: following) =
    (cps ++ END_OF_INFO_CODE ::
       yielded (BitUnpacker.unpack_bits (BitUnpacker.mkstate [] 0 0 c w)
                  (bytestobits following)),
     ending (BitUnpacker.unpack_bits (BitUnpacker.mkstate [] 0 0 c w)
               (bytestobits following))).
Proof.
  intros Hbefore Hlast. cbv zeta. unfold BitUnpacker.unpack in *.
  destruct (unpack_bits_done (bytestobits before) (BitUnpacker.initial_state unpacker))
    as (o0 & st0 & Hrun0).
  rewrite Hrun0 in Hbefore. unfold yielded in Hbefore; cbn [fst] in Hbefore. subst o0.
  assert (Hoff0 : BitUnpacker.offset st0 = 0).
  { destruct (unpack_bits_offset _ _ _ _ Hrun0) as [->|[_ ->]]; [|reflexivity].
    rewrite bytestobits_length. cbn [BitUnpacker.initial_state BitUnpacker.offset].
    mod_lia. }
  destruct (unpack_bits_done (bytestobits [last]) st0) as (o1 & st1 & Hrun1).
  assert (Hrun : BitUnpacker.unpack_bits (BitUnpacker.initial_state unpacker)
                   (bytestobits (before ++ [last])) = (cps ++ o1, Done st1)).
  { rewrite bytestobits_app, (unpack_bits_app _ _ _ (bytestobits [last]) _ Hrun0), Hrun1.
    reflexivity. }
  rewrite Hrun in Hlast. unfold yielded in Hlast; cbn [fst] in Hlast.
  apply app_inv_head in Hlast. subst o1.
  assert (Hst1 : st1 = BitUnpacker.mkstate [] 0 0 (BitUnpacker.codesize st0 + 1)
                         (BitUnpacker.pointwidth st0)).
  { apply (unpack_bits_end_realigned (bytestobits [last]) st0 st1).
    - rewrite Hoff0, bytestobits_length. reflexivity.
    - rewrite bytestobits_length. cbn [length]. lia.
    - exact Hrun1. }
  destruct (unpack_bits_counters _ _ _ _ Hrun0) as [Hc0 Hw0].
  cbn [BitUnpacker.initial_state BitUnpacker.codesize BitUnpacker.pointwidth] in Hc0, Hw0.
  assert (Hst : st1 = BitUnpacker.mkstate [] 0 0
                        (BitUnpacker._initial_code_size unpacker
                         + N.of_nat (length (cps ++ [END_OF_INFO_CODE])))
                        (width_after DEFAULT_MIN_BITS (cps ++ [END_OF_INFO_CODE]))).
  { rewrite Hst1, Hc0, Hw0, width_after_app, length_app. cbn [length]. f_equal. lia. }
  clear Hst1. subst st1. split; [exact Hrun|].
  change (before ++ last :: following) with (before ++ [last] ++ following).
  rewrite app_assoc, bytestobits_app.
  rewrite (unpack_bits_app _ _ _ (bytestobits following) _ Hrun).
  rewrite <- app_assoc. reflexivity.
Qed.

(** C6. In the bytes [BitPacker.pack] yields, every END_OF_INFO is followed
    by zero bits up to the next byte boundary, and the next codepoint begins
    at that boundary.  For every packer and codepoints [pre], [post], [q]:
    the bits of [pack(pre + [END_OF_INFO])] are the bits of [pre],
    END_OF_INFO at the width reached and the fewest zeros that fill the
    byte, with no exception; the bytes of [pack(pre + [END_OF_INFO] + post)]
    are those bytes followed by the bytes [post] gives from an empty bit
    buffer; the bits of [pack(pre + [END_OF_INFO, q] + post)] continue, right
    after those bytes, with [q] at its width; and the step that packs
    END_OF_INFO leaves a whole number of bytes from any state.
    Correspondingly [BitUnpacker.unpack]: after the bytes of
    [pack(pre + [END_OF_INFO])] it has yielded [pre] and END_OF_INFO and
    reads any bytes that follow from an empty bit buffer at offset 0; on any
    byte string, when the byte [last] brings out END_OF_INFO, the other bits
    of [last] are dropped, whatever they are, and the next codepoint is
    accumulated from the first bit of the next byte; bit by bit, the bits
    dropped are those up to the next multiple of 8 of the stream position. *)
Theorem end_of_info_byte_alignment
        (packer : BitPacker.t) (pre post : list N) (q : N) (pst : BitPacker.state)
        (unpacker : BitUnpacker.t) (before following : list byte) (last : byte)
        (seen : list N)
        (bits1 skipped rest : list bool) (nextbit : bool)
        (cps : list N) (st st' : BitUnpacker.state) :
  (let P := raw_bits [] DEFAULT_MIN_BITS pre in
   let w0 := width_after DEFAULT_MIN_BITS pre in
   bytestobits (yielded (BitPacker.pack packer pre)) =
     P ++ repeat false ((8 - length P mod 8) mod 8) /\
   ending (BitPacker.pack packer (pre ++ [END_OF_INFO_CODE])) = Done tt /\
   bytestobits (yielded (BitPacker.pack packer (pre ++ [END_OF_INFO_CODE]))) =
     P ++ inttobits END_OF_INFO_CODE (Some w0)
       ++ repeat false ((8 - (length P + w0) mod 8) mod 8) /\
   length (inttobits END_OF_INFO_CODE (Some w0)) = w0 /\
   exists tl,
     bytestobits (yielded (BitPacker.pack packer
                             (pre ++ END_OF_INFO_CODE :: q :: post))) =
     bytestobits (yielded (BitPacker.pack packer (pre ++ [END_OF_INFO_CODE])))
       ++ inttobits q (Some w0) ++ tl) /\
  (let w1 := width_after DEFAULT_MIN_BITS (pre ++ [END_OF_INFO_CODE]) in
   let c1 := BitPacker._initial_code_size packer
             + N.of_nat (length (pre ++ [END_OF_INFO_CODE])) in
   BitPacker.pack packer (pre ++ END_OF_INFO_CODE :: post) =
     (yielded (BitPacker.pack packer (pre ++ [END_OF_INFO_CODE])) ++
      yielded (BitPacker.pack_from (BitPacker.mkstate [] c1 w1) post), Done tt) /\
   exists t1,
     ending (BitPacker.pack_loop (BitPacker.initial_state packer)
                                 (pre ++ [END_OF_INFO_CODE])) =
       Done (BitPacker.mkstate t1 c1 w1) /\
     (length t1 mod 8 = 0)%nat) /\
  (exists out t' k,
     BitPacker.pack_step pst END_OF_INFO_CODE =
       (out, Done (BitPacker.mkstate t' (BitPacker.codesize pst + 1)
                                     (BitPacker.nextwidth pst))) /\
     (k < 8)%nat /\
     bytestobits out ++ t' =
       BitPacker.tailbits pst
         ++ inttobits END_OF_INFO_CODE (Some (BitPacker.nextwidth pst))
         ++ repeat false k /\
     (length t' mod 8 = 0)%nat) /\
  (fits DEFAULT_MIN_BITS (pre ++ [END_OF_INFO_CODE]) ->
   let fresh := BitUnpacker.mkstate [] 0 0
                  (BitUnpacker._initial_code_size unpacker
                   + N.of_nat (length (pre ++ [END_OF_INFO_CODE])))
                  (width_after DEFAULT_MIN_BITS (pre ++ [END_OF_INFO_CODE])) in
   BitUnpacker.unpack unpacker
     (yielded (BitPacker.pack packer (pre ++ [END_OF_INFO_CODE])) ++ following) =
   (pre ++ END_OF_INFO_CODE ::
      yielded (BitUnpacker.unpack_bits fresh (bytestobits following)),
    ending (BitUnpacker.unpack_bits fresh (bytestobits following)))) /\
  (yielded (BitUnpacker.unpack unpacker before) = seen ->
   yielded (BitUnpacker.unpack unpacker (before ++ [last])) = seen ++ [END_OF_INFO_CODE] ->
   let fresh := BitUnpacker.mkstate [] 0 0
                  (BitUnpacker._initial_code_size unpacker
                   + N.of_nat (length (seen ++ [END_OF_INFO_CODE])))
                  (width_after DEFAULT_MIN_BITS (seen ++ [END_OF_INFO_CODE])) in
   BitUnpacker.unpack unpacker (before ++ [last]) =
     (seen ++ [END_OF_INFO_CODE], Done fresh) /\
   BitUnpacker.unpack unpacker (before ++ last :: following) =
     (seen ++ END_OF_INFO_CODE ::
        yielded (BitUnpacker.unpack_bits fresh (bytestobits following)),
      ending (BitUnpacker.unpack_bits fresh (bytestobits following)))) /\
  (BitUnpacker.unpack_bits (BitUnpacker.initial_state unpacker) bits1 = (cps, Done st) ->
   BitUnpacker.unpack_step st nextbit = ([END_OF_INFO_CODE], Done st') ->
   length skipped = ((8 - S (length bits1) mod 8) mod 8)%nat ->
   ((S (length bits1) + length skipped) mod 8 = 0)%nat /\
   BitUnpacker.unpack_bits (BitUnpacker.initial_state unpacker)
                           (bits1 ++ nextbit :: skipped ++ rest) =
     (cps ++ END_OF_INFO_CODE ::
        yielded (BitUnpacker.unpack_bits
                   (BitUnpacker.mkstate [] 0 0 (BitUnpacker.codesize st')
                                        (BitUnpacker.pointwidth st')) rest),
      ending (BitUnpacker.unpack_bits
                (BitUnpacker.mkstate [] 0 0 (BitUnpacker.codesize st')
                                     (BitUnpacker.pointwidth st')) rest))).
Proof.
  split.
  { cbv zeta. destruct (pack_end_bits packer pre) as (Hpack & _ & Hbits).
    cbv zeta in Hpack, Hbits.
    split.
    { unfold BitPacker.pack. rewrite pack_from_spec. unfold yielded; cbn [fst].
      apply bytestobits_bytes_of_bits_pad. }
    split; [rewrite Hpack; reflexivity|]. split; [exact Hbits|].
    split.
    { apply end_of_info_width.
      pose proof (width_after_ge DEFAULT_MIN_BITS pre). unfold DEFAULT_MIN_BITS in *. lia. }
    destruct (pack_next_at_boundary packer pre post q) as (tl & Htl).
    exists tl. rewrite Htl, width_after_app. reflexivity. }
  split; [apply pack_split_at_end|].
  split; [apply pack_step_end_padded|].
  split; [intros Hfits; apply unpack_after_packed_end, Hfits|].
  split; [apply unpack_skips_to_boundary|].
  apply unpack_realigns.
Qed.

Lemma end_of_info_byte_alignment_witness :
  yielded (BitPacker.pack (BitPacker.mk 259) [97; 256; 98]) = [x30; xc0; x00; x31; x00] /\
  bytestobits (yielded (BitPacker.pack (BitPacker.mk 259) [97; 256])) =
    inttobits 97 (Some 9%nat) ++ inttobits 256 (Some 9%nat) ++ repeat false 6 /\
  yielded (BitUnpacker.unpack (BitUnpacker.mk 259) [x30; xc0; x00; x31; x00]) = [97; 256; 98] /\
  yielded (BitUnpacker.unpack (BitUnpacker.mk 259) [x30; xc0; x3f; x31; x00]) = [97; 256; 98] /\
  yielded (BitUnpacker.unpack_bits
             (BitUnpacker.initial_state (BitUnpacker.mk 259))
             ([true; false; false; false; false; false; false; false]
                ++ false :: repeat true 7 ++ inttobits 65 (Some 9%nat))) = [256; 65].
Proof.
  destruct (end_of_info_byte_alignment
              (BitPacker.mk 259) [97] [98] 98 (BitPacker.mkstate [] 259 9)
              (BitUnpacker.mk 259) [x30; xc0] [x31; x00] x3f [97]
              [true; false; false; false; false; false; false; false]
              (repeat true 7) (inttobits 65 (Some 9%nat)) false []
              (BitUnpacker.mkstate
                 [true; false; false; false; false; false; false; false] 0 0 259 9)
              (BitUnpacker.mkstate [] 1 7 260 9))
    as ((_ & _ & Hbits & _ & _) & (Hsplit & _) & _ & Hafter & Hskip & Hrealign).
  split.
  { change [97; 256; 98] with ([97] ++ END_OF_INFO_CODE :: [98]).
    rewrite Hsplit. reflexivity. }
  split.
  { change [97; 256] with ([97] ++ [END_OF_INFO_CODE]). rewrite Hbits. reflexivity. }
  split.
  { change [x30; xc0; x00; x31; x00]
      with (yielded (BitPacker.pack (BitPacker.mk 259) ([97] ++ [END_OF_INFO_CODE]))
            ++ [x31; x00]).
    rewrite Hafter; [reflexivity|].
    cbn [fits app]. unfold DEFAULT_MIN_BITS, END_OF_INFO_CODE, BUMP_CODE.
    cbn [N.eqb Pos.eqb]. repeat split; lia. }
  split.
  { destruct Hskip as [_ Hrun]; [reflexivity|reflexivity|].
    change [x30; xc0; x3f; x31; x00] with ([x30; xc0] ++ x3f :: [x31; x00]).
    rewrite Hrun. reflexivity. }
  destruct Hrealign as [_ Hrun]; [reflexivity|reflexivity|reflexivity|].
  rewrite Hrun. reflexivity.
Defined.

(** ** The initial dictionaries mirror each other *)

Lemma decoder_initial_keys : dict_keys_below Decoder.initial_codepoints.
Proof.
  intros c. rewrite decoder_initial_len. split.
  - intros Hc. apply dict_contains_get in Hc as [v Hv].
    assert (Hall : forallb (fun kv : N * Decoder.value => fst kv <? 259)
                     (map_to_list (d_items Decoder.initial_codepoints)) = true)
      by (vm_compute; reflexivity).
    rewrite forallb_forall in Hall. apply N.ltb_lt.
    apply (Hall (c, v)), list_elem_of_In, elem_of_map_to_list. exact Hv.
  - intros Hlt.
    assert (Hall : forallb (fun c => dict_contains c Decoder.initial_codepoints)
                     (map N.of_nat (seq 0 259)) = true) by (vm_compute; reflexivity).
    rewrite forallb_forall in Hall. apply Hall.
    rewrite <- (N2Nat.id c). apply in_map, in_seq. lia.
Qed.

Lemma initial_mirror : mirror Encoder.initial_prefixes Decoder.initial_codepoints.
Proof.
  split; [rewrite decoder_initial_len, encoder_initial_len; reflexivity|].
  split; [apply decoder_initial_keys|].
  intros s c. split; intros Hget.
  - assert (Hall : forallb
              (fun kc : Encoder.key * N =>
                 match fst kc with
                 | inl s =>
                     match dict_get (snd kc) Decoder.initial_codepoints with
                     | Some (Decoder.Bytes s') => bool_decide (s' = s)
                     | _ => false
                     end
                 | inr _ => true
                 end)
              (map_to_list (d_items Encoder.initial_prefixes)) = true)
      by (vm_compute; reflexivity).
    rewrite forallb_forall in Hall.
    assert (Hin : In (inl s, c) (map_to_list (d_items Encoder.initial_prefixes)))
      by (apply list_elem_of_In, elem_of_map_to_list; exact Hget).
    specialize (Hall (inl s, c) Hin). cbn [fst snd] in Hall.
    clear Hin Hget.
    destruct (dict_get c Decoder.initial_codepoints) as [[s'|n]|];
      [|discriminate Hall|discriminate Hall].
    apply bool_decide_eq_true_1 in Hall. rewrite Hall. reflexivity.
  - assert (Hall : forallb
              (fun cv : N * Decoder.value =>
                 match snd cv with
                 | Decoder.Bytes s =>
                     match dict_get (inl s) Encoder.initial_prefixes with
                     | Some c' => c' =? fst cv
                     | None => false
                     end
                 | Decoder.Int _ => true
                 end)
              (map_to_list (d_items Decoder.initial_codepoints)) = true)
      by (vm_compute; reflexivity).
    rewrite forallb_forall in Hall.
    assert (Hin : In (c, Decoder.Bytes s) (map_to_list (d_items Decoder.initial_codepoints)))
      by (apply list_elem_of_In, elem_of_map_to_list; exact Hget).
    specialize (Hall (c, Decoder.Bytes s) Hin). cbn [fst snd] in Hall.
    clear Hin Hget.
    destruct (dict_get (inl s) Encoder.initial_prefixes) as [c'|]; [|discriminate Hall].
    apply N.eqb_eq in Hall. rewrite Hall. reflexivity.
Qed.

(** ** One codepoint through the Decoder *)

Lemma keys_below_fresh (D' : pydict N Decoder.value) :
  dict_keys_below D' -> dict_contains (dict_len D') D' = false.
Proof.
  intros Hk. destruct (dict_contains (dict_len D') D') eqn:Hc; [|reflexivity].
  apply Hk in Hc. lia.
Qed.

Lemma dict_contains_set {K V} `{Countable K} (d : pydict K V) (k k' : K) (v : V) :
  dict_contains k' (dict_set k v d) = true <-> k = k' \/ dict_contains k' d = true.
Proof.
  rewrite !dict_contains_get. setoid_rewrite dict_get_set.
  destruct (decide (k = k')) as [Heq|Hne].
  - split; [left; exact Heq|intros _; exists v; reflexivity].
  - split; [intros Hv; right; exact Hv|intros [Heq|Hv]; [contradiction|exact Hv]].
Qed.

Lemma mirror_of_lagging (D : pydict Encoder.key N) (D' : pydict N Decoder.value)
      (prefix : list byte) (b : byte) :
  lagging D D' prefix b ->
  mirror D (dict_set (dict_len D') (Decoder.Bytes (prefix ++ [b])) D').
Proof.
  intros (Hlen & Hkeys & Hne & Hlast & Hrest).
  pose proof (keys_below_fresh D' Hkeys) as Hfresh.
  split; [rewrite dict_len_set_new by exact Hfresh; lia|]. split.
  - intros c. rewrite dict_contains_set, dict_len_set_new by exact Hfresh.
    rewrite (Hkeys c). lia.
  - intros s c. rewrite dict_get_set. destruct (decide (dict_len D' = c)) as [<-|Hc].
    + rewrite Hlast. split; [intros ->; reflexivity|intros [= ->]; reflexivity].
    + rewrite <- Hrest. split; [intros Hs; split; [exact Hs|congruence]|intros [Hs _]; exact Hs].
Qed.

Lemma decode_emitted (e : Encoder.t) (d : Decoder.t) (c : N) :
  lzw_rel e d ->
  Encoder._buffer e <> [] ->
  dict_get (inl (Encoder._buffer e)) (Encoder._prefixes e) = Some c ->
  exists d',
    Decoder._decode_codepoint d c = Done (Decoder.Bytes (Encoder._buffer e), d') /\
    Decoder._prefix d' = Some (Decoder.Bytes (Encoder._buffer e)) /\
    mirror (Encoder._prefixes e) (Decoder._codepoints d') /\
    c <> BUMP_CODE /\ c <> END_OF_INFO_CODE.
Proof.
  intros [Hinv Hrel] Hne Hget.
  assert (Hval : c < 256 \/ 259 <= c) by (eapply Hinv, Hget).
  assert (Hclear : (c =? CLEAR_CODE) = false)
    by (apply N.eqb_neq; unfold CLEAR_CODE; lia).
  assert (Hend : (c =? END_OF_INFO_CODE) = false)
    by (apply N.eqb_neq; unfold END_OF_INFO_CODE; lia).
  assert (Hctl : c <> BUMP_CODE /\ c <> END_OF_INFO_CODE)
    by (unfold BUMP_CODE, END_OF_INFO_CODE; lia).
  unfold Decoder._decode_codepoint. rewrite Hclear, Hend.
  destruct (Decoder._prefix d) as [[prefix|n]|] eqn:Hprefix; [|contradiction|].
  - destruct Hrel as (b & rest & Hbuf & Hlag).
    pose proof (mirror_of_lagging _ _ _ _ Hlag) as Hmirror.
    destruct Hlag as (Hlen & Hkeys & Hpne & Hlast & Hrest).
    destruct (N.eq_dec c (dict_len (Decoder._codepoints d))) as [->|Hc].
    + (* the code the Decoder has not stored yet *)
      rewrite (keys_below_fresh _ Hkeys).
      apply Hlast in Hget. rewrite Hbuf in Hget.
      destruct prefix as [|p0 prefix']; [contradiction|].
      injection Hget as Hp0 Hrest'. subst p0.
      cbn [Decoder.getitem0 Decoder.add_bytes].
      eexists. split; [rewrite Hbuf, Hrest'; reflexivity|].
      split; [cbn [Decoder.store Decoder._prefix]; rewrite Hbuf, Hrest'; reflexivity|].
      split; [|exact Hctl].
      cbn [Decoder.store Decoder._codepoints]. exact Hmirror.
    + assert (Hd : dict_get c (Decoder._codepoints d)
                   = Some (Decoder.Bytes (Encoder._buffer e)))
        by (apply Hrest; split; assumption).
      assert (Hin : dict_contains c (Decoder._codepoints d) = true)
        by (apply dict_contains_get; eexists; exact Hd).
      rewrite Hin, Hd, Hbuf. cbn [Decoder.getitem0 Decoder.add_bytes].
      eexists. split; [reflexivity|]. split; [reflexivity|]. split; [|exact Hctl].
      cbn [Decoder.store Decoder._codepoints]. exact Hmirror.
  - destruct Hrel as (Hlen & Hkeys & Hiff).
    assert (Hd : dict_get c (Decoder._codepoints d)
                 = Some (Decoder.Bytes (Encoder._buffer e))) by (apply Hiff, Hget).
    assert (Hin : dict_contains c (Decoder._codepoints d) = true)
      by (apply dict_contains_get; eexists; exact Hd).
    rewrite Hin, Hd.
    eexists. split; [reflexivity|]. split; [reflexivity|]. split; [|exact Hctl].
    cbn [Decoder.store Decoder._codepoints]. split; [exact Hlen|]. split; assumption.
Qed.

Lemma decode_loop_code (d d' : Decoder.t) (c : N) (s : list byte) (more : list N) :
  c <> BUMP_CODE -> c <> END_OF_INFO_CODE ->
  Decoder._decode_codepoint d c = Done (Decoder.Bytes s, d') ->
  Decoder.decode_loop d (c :: more) =
    (s ++ yielded (Decoder.decode_loop d' more), ending (Decoder.decode_loop d' more)).
Proof.
  intros Hb He Hdec. cbn [Decoder.decode_loop].
  destruct (N.eqb_spec c BUMP_CODE); [contradiction|].
  destruct (N.eqb_spec c END_OF_INFO_CODE); [contradiction|].
  rewrite Hdec. cbn [Decoder.yield_characters]. unfold gbind.
  destruct (Decoder.decode_loop d' more); reflexivity.
Qed.

Lemma lagging_of_mirror (D : pydict Encoder.key N) (D' : pydict N Decoder.value)
      (prefix : list byte) (b : byte) :
  mirror D D' -> prefix <> [] ->
  dict_contains (inl (prefix ++ [b])) D = false ->
  lagging (dict_set (inl (prefix ++ [b])) (dict_len D) D) D' prefix b.
Proof.
  intros (Hlen & Hkeys & Hiff) Hne Hnew.
  assert (Hbelow : forall s c, dict_get (inl s) D = Some c -> c < dict_len D').
  { intros s c Hs. apply Hkeys, dict_contains_get. eexists. apply Hiff, Hs. }
  apply dict_contains_false in Hnew.
  split; [rewrite dict_len_set_new by (apply dict_contains_false, Hnew); lia|].
  split; [exact Hkeys|]. split; [exact Hne|]. split.
  - intros s. rewrite dict_get_set. destruct (decide (inl (prefix ++ [b]) = inl s)) as [Heq|Hneq].
    + injection Heq as <-. rewrite Hlen. split; reflexivity.
    + split.
      * intros Hs. apply Hbelow in Hs. lia.
      * intros ->. contradiction.
  - intros s c. rewrite dict_get_set.
    destruct (decide (inl (prefix ++ [b]) = inl s)) as [Heq|Hneq].
    + injection Heq as <-. split.
      * intros [[= <-] Hc]. rewrite Hlen in Hc. contradiction.
      * intros Hd. apply Hiff in Hd. congruence.
    + rewrite <- Hiff. split; [intros [Hs _]; exact Hs|].
      intros Hs. split; [exact Hs|]. apply Hbelow in Hs. lia.
Qed.

(** ** One input byte through the Encoder, its codepoints through the Decoder *)

Lemma encode_byte_sim (e : Encoder.t) (d : Decoder.t) (b : byte) (W : nat) :
  lzw_rel e d -> width_ok e W ->
  exists out e' s d',
    Encoder._encode_byte e b = (out, Done e') /\
    lzw_rel e' d' /\
    (forall more,
        Decoder.decode_loop d (out ++ more) =
        (s ++ yielded (Decoder.decode_loop d' more),
         ending (Decoder.decode_loop d' more))) /\
    s ++ Encoder._buffer e' = Encoder._buffer e ++ [b] /\
    (out = [] \/
     exists c, out = [c] /\ c < 2 ^ N.of_nat W /\ c <> BUMP_CODE /\ c <> END_OF_INFO_CODE) /\
    Encoder.code_size e' <= Encoder.code_size e + 1 /\
    Encoder._max_code_size e' = Encoder._max_code_size e /\
    Encoder._next_bumb_code e' = Encoder._next_bumb_code e.
Proof.
  intros Hrel Hw. pose proof Hrel as [Hinv Hd].
  destruct (encode_byte_spec e b Hinv) as (out0 & e0 & Heq0 & Hinv0 & _).
  pose proof Hinv as (Hlen & Hsingle & Hbuf & Hval).
  unfold Encoder._encode_byte in *.
  destruct (dict_contains (inl (Encoder._buffer e ++ [b])) (Encoder._prefixes e)) eqn:Hc.
  - injection Heq0 as <- <-.
    exists [], (Encoder.set_buffer e (Encoder._buffer e ++ [b])), [], d.
    split; [reflexivity|]. split.
    { split; [exact Hinv0|]. enc_simpl.
      destruct (Decoder._prefix d) as [[prefix|n]|]; [|exact Hd|exact Hd].
      destruct Hd as (b0 & rest & Hb0 & Hlag). exists b0, (rest ++ [b]).
      rewrite Hb0. split; [reflexivity|exact Hlag]. }
    split; [intros more; change ([] ++ more) with more;
            destruct (Decoder.decode_loop d more); reflexivity|].
    enc_simpl. split; [reflexivity|]. split; [left; reflexivity|].
    split; [lia|]. split; reflexivity.
  - destruct (Encoder._buffer e) as [|b0 buf] eqn:Hb.
    { exfalso. apply dict_contains_false in Hc. change ([] ++ [b]) with [b] in Hc.
      rewrite Hsingle in Hc. discriminate. }
    destruct Hbuf as [Hnil|[code Hcode]]; [discriminate|]. rewrite Hcode in *.
    injection Heq0 as <- <-.
    destruct (decode_emitted e d code Hrel) as (d' & Hdec & Hprefix & Hmirror & Hnb & Hne);
      [rewrite Hb; discriminate|rewrite Hb; exact Hcode|].
    rewrite Hb in Hdec, Hprefix.
    exists [code], (Encoder.set_buffer (Encoder._add_code e ((b0 :: buf) ++ [b])) [b]),
           (b0 :: buf), d'.
    split; [reflexivity|]. split.
    { split; [exact Hinv0|]. rewrite Hprefix. enc_simpl.
      exists b, []. split; [reflexivity|].
      apply lagging_of_mirror; [exact Hmirror|discriminate|exact Hc]. }
    split; [intros more; apply decode_loop_code; assumption|].
    enc_simpl. split; [reflexivity|]. split.
    { right. exists code. split; [reflexivity|]. split; [|split; assumption].
      destruct Hmirror as (Hl & Hkeys & Hiff). destruct Hw as (Hsz & Hnbw & _).
      assert (code < dict_len (Decoder._codepoints d')).
      { apply Hkeys, dict_contains_get. eexists. apply Hiff, Hcode. }
      unfold Encoder.code_size in Hsz. lia. }
    rewrite dict_len_set_new by exact Hc. split; [lia|]. split; reflexivity.
Qed.

Lemma next_bump_double (nb : N) : N.lor (N.shiftl nb 1) 1 = 2 * nb + 1.
Proof. destruct nb as [|p]; reflexivity. Qed.

Lemma pow2_ge_512 (W : nat) : (9 <= W)%nat -> 512 <= 2 ^ N.of_nat W.
Proof. intros HW. change 512 with (2 ^ 9). apply N.pow_le_mono_r; lia. Qed.

Lemma encode_step_sim (e : Encoder.t) (d : Decoder.t) (b : byte) (W : nat) :
  lzw_rel e d -> width_ok e W ->
  (Z.of_N (Encoder.code_size e) + 1 <= Encoder._max_code_size e)%Z ->
  exists out e' s d',
    Encoder.encode_step e b = (out, Done e') /\
    lzw_rel e' d' /\
    width_ok e' (width_after W out) /\
    fits W out /\
    ~ In END_OF_INFO_CODE out /\
    (forall more,
        Decoder.decode_loop d (out ++ more) =
        (s ++ yielded (Decoder.decode_loop d' more),
         ending (Decoder.decode_loop d' more))) /\
    s ++ Encoder._buffer e' = Encoder._buffer e ++ [b] /\
    Encoder.code_size e' <= Encoder.code_size e + 1 /\
    Encoder._max_code_size e' = Encoder._max_code_size e.
Proof.
  intros Hrel Hw Hroom.
  destruct (encode_byte_sim e d b W Hrel Hw)
    as (out1 & e1 & s & d1 & Heq1 & Hrel1 & Hdec1 & Hbuf1 & Hout1 & Hsz1 & Hmax1 & Hnb1).
  pose proof Hw as (Hsz & Hpow & HW).
  pose proof (pow2_ge_512 W HW) as H512.
  assert (Hshape : fits W out1 /\ width_after W out1 = W /\ ~ In END_OF_INFO_CODE out1).
  { destruct Hout1 as [->|(c & -> & Hc & Hcb & Hce)].
    - repeat split. intros [].
    - cbn [fits]. unfold width_after; cbn [fold_left].
      destruct (N.eqb_spec c BUMP_CODE) as [|_]; [contradiction|].
      repeat split; [lia|exact Hc|].
      intros [Hin|[]]. congruence. }
  destruct Hshape as (Hfits1 & Hwidth1 & Hnoend1).
  unfold Encoder.encode_step. rewrite Heq1, gbind_done.
  assert (Hnoflush :
            (Z.of_N (Encoder.code_size e1) >? Encoder._max_code_size e1)%Z = false).
  { rewrite Hmax1, Z.gtb_ltb. apply Z.ltb_ge. lia. }
  rewrite Hnoflush, gbind_gret_l.
  destruct (N.ltb_spec (Encoder._next_bumb_code e1) (Encoder.code_size e1)) as [Hbump|Hnobump].
  - eexists (out1 ++ [BUMP_CODE]), _, s, d1.
    split; [reflexivity|]. split.
    { destruct Hrel1 as [Hinv1 Hd1]. split; [exact Hinv1|exact Hd1]. }
    split.
    { rewrite width_after_app, Hwidth1. unfold width_after; cbn [fold_left].
      change (BUMP_CODE =? BUMP_CODE) with true. cbv iota.
      unfold width_ok, Encoder.code_size in *.
      cbn [Encoder._prefixes Encoder._next_bumb_code].
      rewrite next_bump_double, Nat2N.inj_succ, N.pow_succ_r'. lia. }
    split.
    { apply fits_app. split; [exact Hfits1|]. rewrite Hwidth1. cbn [fits].
      unfold BUMP_CODE. repeat split; lia. }
    split.
    { intros Hin. apply in_app_or in Hin as [Hin|[Hin|[]]]; [contradiction|discriminate]. }
    split.
    { intros more. rewrite <- app_assoc, Hdec1. reflexivity. }
    split; [exact Hbuf1|]. split; [exact Hsz1|exact Hmax1].
  - exists (out1 ++ []), e1, s, d1.
    split; [reflexivity|]. split; [exact Hrel1|].
    rewrite app_nil_r. split.
    { rewrite Hwidth1. split; [exact Hnobump|]. rewrite Hnb1. split; assumption. }
    split; [exact Hfits1|]. split; [exact Hnoend1|].
    split; [exact Hdec1|]. split; [exact Hbuf1|]. split; [exact Hsz1|exact Hmax1].
Qed.

Lemma encode_loop_sim (x : list byte) (e : Encoder.t) (d : Decoder.t) (W : nat) :
  lzw_rel e d -> width_ok e W ->
  (Z.of_N (Encoder.code_size e) + Z.of_nat (length x) <= Encoder._max_code_size e)%Z ->
  exists out e' s d',
    Encoder.encode_loop e x = (out, Done e') /\
    lzw_rel e' d' /\
    width_ok e' (width_after W out) /\
    fits W out /\
    ~ In END_OF_INFO_CODE out /\
    (forall more,
        Decoder.decode_loop d (out ++ more) =
        (s ++ yielded (Decoder.decode_loop d' more),
         ending (Decoder.decode_loop d' more))) /\
    s ++ Encoder._buffer e' = Encoder._buffer e ++ x.
Proof.
  revert e d W; induction x as [|b x IH]; intros e d W Hrel Hw Hroom.
  - exists [], e, [], d. split; [reflexivity|]. split; [exact Hrel|].
    split; [exact Hw|]. split; [exact I|]. split; [intros []|].
    split; [|rewrite app_nil_r; reflexivity].
    intros more. change ([] ++ more) with more.
    destruct (Decoder.decode_loop d more); reflexivity.
  - cbn [length] in Hroom.
    destruct (encode_step_sim e d b W Hrel Hw)
      as (o1 & e1 & s1 & d1 & Heq1 & Hrel1 & Hw1 & Hfits1 & Hnoend1 & Hdec1 & Hbuf1 & Hsz1 & Hmax1);
      [lia|].
    destruct (IH e1 d1 (width_after W o1) Hrel1 Hw1)
      as (o2 & e2 & s2 & d2 & Heq2 & Hrel2 & Hw2 & Hfits2 & Hnoend2 & Hdec2 & Hbuf2);
      [rewrite Hmax1; lia|].
    exists (o1 ++ o2), e2, (s1 ++ s2), d2.
    cbn [Encoder.encode_loop]. rewrite Heq1, gbind_done, Heq2.
    split; [reflexivity|]. split; [exact Hrel2|].
    split; [rewrite width_after_app; exact Hw2|].
    split; [apply fits_app; split; assumption|].
    split; [intros Hin; apply in_app_or in Hin as [Hin|Hin]; contradiction|].
    split.
    + intros more. rewrite <- app_assoc, Hdec1, Hdec2.
      unfold yielded, ending; cbn [fst snd]. rewrite app_assoc. reflexivity.
    + rewrite <- app_assoc, Hbuf2, app_assoc, Hbuf1, <- app_assoc. reflexivity.
Qed.

(** ** Round trips *)

Lemma fresh_lzw_rel (max_code_size : Z) (e : Encoder.t) :
  Encoder.__init__ max_code_size = Done e ->
  lzw_rel e Decoder.__init__ /\ width_ok e DEFAULT_MIN_BITS /\
  Encoder._buffer e = [] /\ Encoder.code_size e = 259 /\
  Encoder._max_code_size e = max_code_size.
Proof.
  intros Hinit. pose proof (encoder_inv_fresh _ _ Hinit) as Hinv.
  rewrite encoder_init_eq in Hinit.
  destruct (max_code_size <? 259)%Z; [discriminate|]. injection Hinit as <-.
  split; [split; [exact Hinv|exact initial_mirror]|].
  unfold width_ok, Encoder.code_size; cbn [Encoder._prefixes Encoder._next_bumb_code
                                              Encoder._buffer Encoder._max_code_size].
  rewrite encoder_initial_len. unfold NEXT_BUMP_CODE, DEFAULT_MIN_BITS.
  repeat split; try reflexivity; lia.
Qed.

(** Codepoint level: while the dictionary stays within [max_code_size], a
    fresh Decoder gives back the input from the codepoints of a fresh
    Encoder, which end with the only END_OF_INFO and fit the packing widths. *)
Lemma encode_decode (max_code_size : Z) (e : Encoder.t) (x : list byte) :
  Encoder.__init__ max_code_size = Done e ->
  (259 + Z.of_nat (length x) <= max_code_size)%Z ->
  exists cps e' d',
    Encoder.encode e x = (cps ++ [END_OF_INFO_CODE], Done e') /\
    ~ In END_OF_INFO_CODE cps /\
    fits DEFAULT_MIN_BITS (cps ++ [END_OF_INFO_CODE]) /\
    Decoder.decode Decoder.__init__ (cps ++ [END_OF_INFO_CODE]) = ((x, Done d'), []).
Proof.
  intros Hinit Hroom.
  destruct (fresh_lzw_rel _ _ Hinit) as (Hrel & Hw & Hbuf & Hsize & Hmax).
  destruct (encode_loop_sim x e Decoder.__init__ DEFAULT_MIN_BITS Hrel Hw)
    as (out & e1 & s & d1 & Heq1 & Hrel1 & Hw1 & Hfits1 & Hnoend1 & Hdec1 & Hbuf1);
    [rewrite Hsize, Hmax; lia|].
  rewrite Hbuf in Hbuf1. cbn [app] in Hbuf1.
  pose proof Hw1 as (Hsz1 & Hpow1 & HW1).
  pose proof (pow2_ge_512 _ HW1) as H512.
  unfold Encoder.encode, Decoder.decode, Decoder.materialise. rewrite Heq1, gbind_done.
  unfold Encoder.flush.
  destruct (Encoder._buffer e1) as [|b0 buf] eqn:Hb1.
  - exists out. eexists _, d1. split; [reflexivity|]. split; [exact Hnoend1|].
    split.
    { apply fits_app. split; [exact Hfits1|]. cbn [fits].
      unfold END_OF_INFO_CODE. repeat split; lia. }
    rewrite Hdec1. rewrite app_nil_r in Hbuf1. subst s. cbn.
    rewrite app_nil_r. reflexivity.
  - pose proof Hrel1 as [Hinv1 _].
    destruct Hinv1 as (_ & _ & [Hnil|[code Hcode]] & _); [congruence|].
    rewrite Hb1 in Hcode. rewrite Hcode.
    destruct (decode_emitted e1 d1 code Hrel1) as (d2 & Hdec2 & _ & Hmirror & Hnb & Hne);
      [rewrite Hb1; discriminate|rewrite Hb1; exact Hcode|].
    rewrite Hb1 in Hdec2.
    exists (out ++ [code]). eexists _, d2.
    split; [cbn; rewrite <- app_assoc; reflexivity|].
    split.
    { intros Hin. apply in_app_or in Hin as [Hin|[Hin|[]]]; [contradiction|congruence]. }
    split.
    { rewrite <- app_assoc. apply fits_app. split; [exact Hfits1|]. cbn [fits app].
      destruct (N.eqb_spec code BUMP_CODE) as [|_]; [contradiction|].
      change (END_OF_INFO_CODE =? BUMP_CODE) with false. cbv iota.
      assert (code < dict_len (Decoder._codepoints d2)).
      { destruct Hmirror as (_ & Hkeys & Hiff).
        apply Hkeys, dict_contains_get. eexists. apply Hiff, Hcode. }
      destruct Hmirror as (Hl & _). unfold Encoder.code_size in Hsz1.
      unfold END_OF_INFO_CODE. repeat split; lia. }
    rewrite <- app_assoc, Hdec1. cbn [app].
    rewrite (decode_loop_code d1 d2 code (b0 :: buf) [END_OF_INFO_CODE] Hnb Hne Hdec2).
    cbn. rewrite app_nil_r, Hbuf1. reflexivity.
Qed.

(** Byte level: [decompress(compress(x))] is [x] for every input of at most
    32509 bytes, which cannot take the default dictionary past its maximum. *)
Lemma compress_decompress (x : list byte) :
  N.of_nat (length x) <= 32509 ->
  exists d', decompress (compress x) = (x, Done d').
Proof.
  intros Hlen.
  assert (Hinit : Encoder.__init__ (2 ^ Z.of_nat DEFAULT_MAX_BITS) =
                  Done (Encoder.mk false (2 ^ Z.of_nat DEFAULT_MAX_BITS) []
                          Encoder.initial_prefixes NEXT_BUMP_CODE 9))
    by (rewrite encoder_init_eq; reflexivity).
  destruct (encode_decode _ _ x Hinit) as (cps & e' & d' & Henc & _ & Hfits & Hdec).
  { change (2 ^ Z.of_nat DEFAULT_MAX_BITS)%Z with 32768%Z. lia. }
  exists d'. unfold compress, ByteEncoder.__init__. rewrite Hinit.
  unfold ByteEncoder.encodetobytes; cbn [ByteEncoder._encoder ByteEncoder._packer].
  rewrite Henc. unfold BitPacker.pack_gen, yielded, ending; cbn [fst snd].
  fold (BitPacker.pack_from
          (BitPacker.initial_state
             (BitPacker.mk (Encoder.code_size
                              (Encoder.mk false (2 ^ Z.of_nat DEFAULT_MAX_BITS) []
                                 Encoder.initial_prefixes NEXT_BUMP_CODE 9))))
          (cps ++ [END_OF_INFO_CODE])).
  fold (BitPacker.pack
          (BitPacker.mk (Encoder.code_size
                           (Encoder.mk false (2 ^ Z.of_nat DEFAULT_MAX_BITS) []
                              Encoder.initial_prefixes NEXT_BUMP_CODE 9)))
          (cps ++ [END_OF_INFO_CODE])).
  set (packer := BitPacker.mk _).
  destruct (unpack_pack packer (ByteDecoder._unpacker ByteDecoder.__init__)
              (cps ++ [END_OF_INFO_CODE]) Hfits) as (st' & Hunpack).
  unfold decompress, ByteDecoder.decodefrombytes, BitUnpacker.unpack_gen.
  assert (Hpack : ending (BitPacker.pack packer (cps ++ [END_OF_INFO_CODE])) = Done tt)
    by (unfold BitPacker.pack; rewrite pack_from_spec; reflexivity).
  rewrite Hpack, Hunpack, gbind_done.
  unfold Decoder.decode_gen, yielded, ending; cbn [fst snd gret].
  rewrite app_nil_r.
  change (ByteDecoder._decoder ByteDecoder.__init__) with Decoder.__init__.
  rewrite Hdec. reflexivity.
Qed.

(** ** More on bits and bytes, continued *)

(** X13. [bitstobytes] packs every eight bits into one value below 256, the
    last group filled with zero bits: it has [ceil(len/8)] elements, and the
    bits of its bytes are the input followed by fewer than eight zeros. *)
Theorem bitstobytes_bytestobits (bits : list bool) :
  Forall (fun v => v < 256) (bitstobytes bits) /\
  length (bitstobytes bits) = ((length bits + 7) / 8)%nat /\
  map Byte.to_N (bytes_of_bits bits) = bitstobytes bits /\
  bytestobits (bytes_of_bits bits) =
    bits ++ repeat false ((8 - length bits mod 8) mod 8).
Proof.
  split; [apply bitstobytes_bound|]. split; [|split].
  - destruct (split_aligned bits) as (p & r & -> & Hp & Hr & Hmod).
    rewrite bitstobytes_aligned_app, !length_app by exact Hp.
    rewrite bitstobytes_aligned_length by exact Hp.
    destruct (bitstobytes_short_pad r Hr) as [_ ->]. mod_lia.
  - unfold bytes_of_bits. pose proof (bitstobytes_bound bits) as Hb.
    induction Hb as [|v l Hv _ IH]; [reflexivity|].
    cbn [omap list_omap]. destruct (Byte.of_N v) as [b|] eqn:Hof.
    + cbn [map]. rewrite IH. f_equal. apply Byte.to_of_N, Hof.
    + apply Byte.of_N_None_iff in Hof. lia.
  - unfold bytes_of_bits. rewrite bitstobytes_pad. apply bytestobits_bytes_of_bits.
    rewrite length_app, repeat_length. mod_lia.
Qed.

(** X14. [bytestobits] gives eight bits per byte, and [bitstobytes] reads them
    back as the values of the bytes. *)
Theorem bytestobits_bitstobytes (bytesource : list byte) :
  length (bytestobits bytesource) = (8 * length bytesource)%nat /\
  bitstobytes (bytestobits bytesource) = map Byte.to_N bytesource /\
  bytes_of_bits (bytestobits bytesource) = bytesource.
Proof.
  split; [apply bytestobits_length|].
  pose proof (bitstobytes_bytes bytesource []) as Hb.
  pose proof (bytes_of_bits_bytes bytesource []) as Hb'.
  rewrite app_nil_r in Hb, Hb'.
  change (bitstobytes []) with (@nil N) in Hb.
  change (bytes_of_bits []) with (@nil byte) in Hb'.
  rewrite app_nil_r in Hb, Hb'. split; assumption.
Qed.

(** X15. [intfrombits] of [n] bits is below [2^n]: a codepoint the
    BitUnpacker reads at some width fits that width. *)
Theorem intfrombits_bound (bits : list bool) :
  intfrombits bits < 2 ^ N.of_nat (length bits).
Proof. rewrite intfrombits_value. apply msb_first_value_bound. Qed.

(** ** The BitPacker and BitUnpacker on every input *)

(** X7. [pack] never raises ([struct.pack] only gets values below 256), and
    the bits of the bytes it yields are the bit string of the codepoints at
    their widths, padded after each END_OF_INFO, followed by fewer than
    eight zero bits: the eager flushing of whole bytes loses and reorders
    nothing. *)
Theorem pack_total (packer : BitPacker.t) (codepoints : list N) :
  ending (BitPacker.pack packer codepoints) = Done tt /\
  bytestobits (yielded (BitPacker.pack packer codepoints)) =
    raw_bits [] DEFAULT_MIN_BITS codepoints ++
    repeat false ((8 - length (raw_bits [] DEFAULT_MIN_BITS codepoints) mod 8) mod 8) /\
  length (yielded (BitPacker.pack packer codepoints)) =
    ((length (raw_bits [] DEFAULT_MIN_BITS codepoints) + 7) / 8)%nat.
Proof.
  unfold BitPacker.pack. rewrite pack_from_spec. unfold yielded, ending; cbn [fst snd].
  cbn [BitPacker.initial_state BitPacker.tailbits BitPacker.nextwidth].
  set (raw := raw_bits [] DEFAULT_MIN_BITS codepoints).
  split; [reflexivity|]. split.
  - unfold bytes_of_bits. rewrite bitstobytes_pad.
    apply bytestobits_bytes_of_bits. rewrite length_app, repeat_length. mod_lia.
  - assert (Hbits : bytestobits (bytes_of_bits raw) =
                    raw ++ repeat false ((8 - length raw mod 8) mod 8)).
    { unfold bytes_of_bits. rewrite bitstobytes_pad.
      apply bytestobits_bytes_of_bits. rewrite length_app, repeat_length. mod_lia. }
    apply (f_equal (@length bool)) in Hbits.
    rewrite bytestobits_length, length_app, repeat_length in Hbits. mod_lia.
Qed.

Lemma unpack_bits_count (bitsource : list bool) (st : BitUnpacker.state) :
  (9 <= BitUnpacker.pointwidth st)%nat ->
  exists out st',
    BitUnpacker.unpack_bits st bitsource = (out, Done st') /\
    (9 * length out <= length (BitUnpacker.bits st) + length bitsource)%nat /\
    Forall (fun pt => exists w, (9 <= w)%nat /\ pt < 2 ^ N.of_nat w) out.
Proof.
  revert st; induction bitsource as [|b rest IH]; intros st Hw.
  - exists [], st. split; [reflexivity|]. split; [simpl; lia|constructor].
  - cbn [BitUnpacker.unpack_bits]. unfold BitUnpacker.unpack_step.
    destruct (0 <? BitUnpacker.ignore st).
    + rewrite gbind_gret_l.
      match goal with |- context [BitUnpacker.unpack_bits ?s rest] =>
        destruct (IH s) as (out & st' & Heq & Hcount & Hall); [exact Hw|] end.
      exists out, st'. split; [exact Heq|]. split; [|exact Hall].
      cbn [BitUnpacker.bits length] in *. lia.
    + destruct (Nat.eqb_spec (length (BitUnpacker.bits st ++ [b])) (BitUnpacker.pointwidth st))
        as [Hfull|Hnot].
      * rewrite gbind_assoc, gbind_gyield, gbind_gret_l.
        match goal with |- context [BitUnpacker.unpack_bits ?s rest] =>
          destruct (IH s) as (out & st' & Heq & Hcount & Hall) end.
        { cbn [BitUnpacker.pointwidth]. destruct (_ =? BUMP_CODE); lia. }
        rewrite Heq. eexists _, st'. split; [reflexivity|].
        unfold yielded; cbn [fst]. split.
        -- rewrite length_app in Hfull. cbn [BitUnpacker.bits length] in *. lia.
        -- constructor; [|exact Hall]. exists (BitUnpacker.pointwidth st).
           split; [exact Hw|]. rewrite <- Hfull, intfrombits_value.
           apply msb_first_value_bound.
      * rewrite gbind_gret_l.
        match goal with |- context [BitUnpacker.unpack_bits ?s rest] =>
          destruct (IH s) as (out & st' & Heq & Hcount & Hall); [exact Hw|] end.
        exists out, st'. split; [exact Heq|]. split; [|exact Hall].
        cbn [BitUnpacker.bits] in Hcount. rewrite length_app in Hcount.
        cbn [length] in *. lia.
Qed.

(** X8. [unpack] never raises, and it yields at most one codepoint for every
    nine bits of input: bits left over after the last whole codepoint are
    dropped (a single byte, or none, gives no codepoint at all). *)
Theorem unpack_total (unpacker : BitUnpacker.t) (bytesource : list byte) :
  exists codepoints st',
    BitUnpacker.unpack unpacker bytesource = (codepoints, Done st') /\
    (9 * length codepoints <= 8 * length bytesource)%nat /\
    ((length bytesource <= 1)%nat -> codepoints = []).
Proof.
  destruct (unpack_bits_count (bytestobits bytesource) (BitUnpacker.initial_state unpacker))
    as (out & st' & Heq & Hcount & _); [cbn; unfold DEFAULT_MIN_BITS; lia|].
  exists out, st'. split; [exact Heq|].
  rewrite bytestobits_length in Hcount. cbn [BitUnpacker.initial_state BitUnpacker.bits length] in Hcount.
  split; [lia|]. intros Hshort. destruct out; [reflexivity|]. cbn [length] in Hcount. lia.
Qed.

Lemma unpack_total_witness :
  exists codepoints st',
    BitUnpacker.unpack (BitUnpacker.mk 259) [xff] = (codepoints, Done st') /\
    (9 * length codepoints <= 8 * length [xff])%nat /\
    ((length [xff] <= 1)%nat -> codepoints = []).
Proof. apply (unpack_total (BitUnpacker.mk 259) [xff]). Defined.

(** X3. Bit-level round trip: when every codepoint is below two to the width
    it is packed with (9 bits, one more after each BUMP), [unpack] yields
    from the bytes of [pack] exactly the codepoints packed; the zero bits
    that fill the last byte and those after an END_OF_INFO give nothing. *)
Theorem unpack_pack_roundtrip (packer : BitPacker.t) (unpacker : BitUnpacker.t)
        (codepoints : list N) :
  fits DEFAULT_MIN_BITS codepoints ->
  ending (BitPacker.pack packer codepoints) = Done tt /\
  yielded (BitUnpacker.unpack unpacker (yielded (BitPacker.pack packer codepoints)))
    = codepoints /\
  raised (BitUnpacker.unpack unpacker (yielded (BitPacker.pack packer codepoints)))
    = None.
Proof.
  intros Hfits. destruct (unpack_pack packer unpacker codepoints Hfits) as (st' & Heq).
  rewrite Heq. split; [|split; reflexivity].
  unfold BitPacker.pack. rewrite pack_from_spec. reflexivity.
Qed.

Lemma unpack_pack_roundtrip_witness :
  yielded (BitUnpacker.unpack (BitUnpacker.mk 259)
             (yielded (BitPacker.pack (BitPacker.mk 259)
                         [103; 259; BUMP_CODE; 600; END_OF_INFO_CODE; 97])))
  = [103; 259; BUMP_CODE; 600; END_OF_INFO_CODE; 97].
Proof.
  apply (unpack_pack_roundtrip (BitPacker.mk 259) (BitUnpacker.mk 259)
           [103; 259; BUMP_CODE; 600; END_OF_INFO_CODE; 97]).
  cbn [fits]. change (103 =? BUMP_CODE) with false. change (259 =? BUMP_CODE) with false.
  change (BUMP_CODE =? BUMP_CODE) with true. change (600 =? BUMP_CODE) with false.
  change (END_OF_INFO_CODE =? BUMP_CODE) with false. change (97 =? BUMP_CODE) with false.
  cbv iota. unfold DEFAULT_MIN_BITS, BUMP_CODE, END_OF_INFO_CODE.
  repeat split; try lia; reflexivity.
Defined.

(** ** The Encoder on every input *)

Lemma encode_byte_closed (e e' : Encoder.t) (b : byte) (out : list N) :
  Encoder._encode_byte e b = (out, Done e') ->
  Encoder.closed e' = Encoder.closed e /\
  Encoder._current_code_bits e' = Encoder._current_code_bits e.
Proof.
  unfold Encoder._encode_byte.
  destruct (dict_contains _ _); [intros [= <- <-]; split; reflexivity|].
  destruct (Encoder._buffer e); [intros [= <- <-]; split; reflexivity|].
  destruct (dict_get _ _); [|discriminate].
  intros [= <- <-]. split; reflexivity.
Qed.

Lemma flush_ends (self : Encoder.t) :
  encoder_inv self ->
  exists pre,
    Encoder.flush self =
      (pre ++ [END_OF_INFO_CODE], Done (Encoder._clear_codes (Encoder.set_buffer self []))) /\
    ~ In END_OF_INFO_CODE pre /\ (length pre <= 1)%nat.
Proof.
  intros (Hlen & Hsingle & Hbuf & Hval). unfold Encoder.flush.
  destruct (Encoder._buffer self) as [|b0 buf] eqn:Hb.
  - exists []. split; [|split; [intros []|simpl; lia]].
    unfold gbind, gret, gyield; simpl. do 2 f_equal.
    destruct self; simpl in *. subst. reflexivity.
  - destruct Hbuf as [Hnil|[code Hcode]]; [discriminate|]. rewrite Hcode.
    exists [code]. split; [reflexivity|]. split; [|simpl; lia].
    intros [Hin|[]]. subst code. apply Hval in Hcode. unfold END_OF_INFO_CODE in Hcode. lia.
Qed.

Lemma encode_step_bounds (e : Encoder.t) (b : byte) :
  encoder_inv e -> encoder_bounds e -> (259 <= Encoder._max_code_size e)%Z ->
  exists out e',
    Encoder.encode_step e b = (out, Done e') /\
    encoder_inv e' /\ encoder_bounds e' /\
    Encoder.closed e' = Encoder.closed e /\
    Encoder._max_code_size e' = Encoder._max_code_size e /\
    (length out <= 4)%nat.
Proof.
  intros Hinv (Hlo & Hnb & Hmax & k & Hk & Hpow) Hcfg.
  destruct (encode_byte_spec e b Hinv)
    as (out1 & e1 & Heq1 & Hinv1 & Hmax1 & Hnb1 & Hsz1 & Hout1).
  destruct (encode_byte_closed _ _ _ _ Heq1) as [Hclosed1 _].
  assert (Hlen1 : (length out1 <= 1)%nat).
  { revert Heq1. unfold Encoder._encode_byte.
    destruct (dict_contains _ _); [intros [= <- _]; simpl; lia|].
    destruct (Encoder._buffer e); [intros [= <- _]; simpl; lia|].
    destruct (dict_get _ _); [|discriminate]. intros [= <- _]. simpl; lia. }
  assert (Hlo1 : 259 <= Encoder.code_size e1) by apply Hinv1.
  unfold Encoder.encode_step. rewrite Heq1, gbind_done.
  destruct (Z.gtb_spec (Z.of_N (Encoder.code_size e1)) (Encoder._max_code_size e1))
    as [Hgt|Hle].
  - destruct (flush_ends e1 Hinv1) as (pre & Heq2 & _ & Hpre).
    rewrite Heq2, gbind_done.
    assert (Hno : (Encoder._next_bumb_code (Encoder._clear_codes (Encoder.set_buffer e1 []))
                   <? Encoder.code_size (Encoder._clear_codes (Encoder.set_buffer e1 [])))
                  = false).
    { enc_simpl. rewrite encoder_initial_len. reflexivity. }
    rewrite Hno. eexists _, _. split; [reflexivity|].
    split; [apply encoder_inv_clear|]. split.
    { unfold encoder_bounds. enc_simpl. rewrite encoder_initial_len.
      unfold NEXT_BUMP_CODE. repeat split; try lia.
      exists 9%nat. split; [lia|reflexivity]. }
    enc_simpl. split; [exact Hclosed1|]. split; [exact Hmax1|].
    unfold yielded, gret; cbn [fst]. rewrite !length_app. cbn [length]. lia.
  - rewrite gbind_gret_l.
    destruct (N.ltb_spec (Encoder._next_bumb_code e1) (Encoder.code_size e1)) as [Hbump|Hnob].
    + eexists _, _. split; [reflexivity|]. split; [exact Hinv1|]. split.
      { unfold encoder_bounds, Encoder.code_size in *.
        cbn [Encoder._prefixes Encoder._next_bumb_code Encoder._max_code_size].
        rewrite next_bump_double. repeat split; try lia.
        exists (S k). split; [lia|]. rewrite Nat2N.inj_succ, N.pow_succ_r'. lia. }
      cbn [Encoder.closed Encoder._max_code_size].
      split; [exact Hclosed1|]. split; [exact Hmax1|].
      unfold yielded; cbn. rewrite length_app. cbn [length]. lia.
    + eexists _, _. split; [reflexivity|]. split; [exact Hinv1|]. split.
      { unfold encoder_bounds. repeat split; try lia.
        exists k. split; [exact Hk|]. rewrite Hnb1. exact Hpow. }
      split; [exact Hclosed1|]. split; [exact Hmax1|].
      unfold yielded, gret; cbn [fst]. rewrite app_nil_r. lia.
Qed.

Lemma encode_loop_bounds (x : list byte) (e : Encoder.t) :
  encoder_inv e -> encoder_bounds e -> (259 <= Encoder._max_code_size e)%Z ->
  exists out e',
    Encoder.encode_loop e x = (out, Done e') /\
    encoder_inv e' /\ encoder_bounds e' /\
    Encoder.closed e' = Encoder.closed e /\
    Encoder._max_code_size e' = Encoder._max_code_size e /\
    (length out <= 4 * length x)%nat.
Proof.
  revert e; induction x as [|b x IH]; intros e Hinv Hb Hcfg.
  - exists [], e. split; [reflexivity|]. split; [exact Hinv|]. split; [exact Hb|].
    split; [reflexivity|]. split; [reflexivity|simpl; lia].
  - destruct (encode_step_bounds e b Hinv Hb Hcfg)
      as (o1 & e1 & Heq1 & Hinv1 & Hb1 & Hc1 & Hm1 & Hl1).
    destruct (IH e1 Hinv1 Hb1) as (o2 & e2 & Heq2 & Hinv2 & Hb2 & Hc2 & Hm2 & Hl2);
      [rewrite Hm1; exact Hcfg|].
    exists (o1 ++ o2), e2. cbn [Encoder.encode_loop]. rewrite Heq1, gbind_done, Heq2.
    split; [reflexivity|]. split; [exact Hinv2|]. split; [exact Hb2|].
    split; [congruence|]. split; [congruence|].
    rewrite length_app. cbn [length]. lia.
Qed.

Lemma fresh_bounds (max_code_size : Z) (e : Encoder.t) :
  Encoder.__init__ max_code_size = Done e ->
  e = Encoder.mk false max_code_size [] Encoder.initial_prefixes NEXT_BUMP_CODE 9 /\
  (259 <= max_code_size)%Z /\ encoder_inv e /\ encoder_bounds e.
Proof.
  intros Hinit. pose proof (encoder_inv_fresh _ _ Hinit) as Hinv.
  rewrite encoder_init_eq in Hinit.
  destruct (Z.ltb_spec max_code_size 259); [discriminate|]. injection Hinit as <-.
  split; [reflexivity|]. split; [assumption|]. split; [exact Hinv|].
  unfold encoder_bounds. enc_simpl. rewrite encoder_initial_len. unfold NEXT_BUMP_CODE.
  repeat split; try lia. exists 9%nat. split; [lia|reflexivity].
Qed.

(** X5. On every input [encode] ends normally (the buffer is always a key of
    the dictionary, so no [KeyError]); the last codepoint it yields is
    END_OF_INFO; it yields at most four codepoints per input byte and one or
    two at the end; and it leaves the Encoder as it was constructed, with the
    initial dictionary and an empty buffer. *)
Theorem encode_total (max_code_size : Z) (e : Encoder.t) (bytesource : list byte) :
  Encoder.__init__ max_code_size = Done e ->
  exists codepoints,
    Encoder.encode e bytesource = (codepoints ++ [END_OF_INFO_CODE], Done e) /\
    (length codepoints <= 4 * length bytesource + 1)%nat.
Proof.
  intros Hinit. destruct (fresh_bounds _ _ Hinit) as (He & Hcfg & Hinv & Hb).
  assert (Hmax : Encoder._max_code_size e = max_code_size) by (rewrite He; reflexivity).
  destruct (encode_loop_bounds bytesource e Hinv Hb) as (o1 & e1 & Heq1 & Hinv1 & _ & Hc1 & Hm1 & Hl1);
    [rewrite Hmax; exact Hcfg|].
  destruct (flush_ends e1 Hinv1) as (pre & Heq2 & _ & Hpre).
  exists (o1 ++ pre). unfold Encoder.encode. rewrite Heq1, gbind_done, Heq2.
  unfold yielded, ending; cbn [fst snd]. split.
  - rewrite app_assoc. do 2 f_equal. enc_simpl. rewrite Hc1, Hm1, He. reflexivity.
  - rewrite length_app. lia.
Qed.

Lemma encode_total_witness :
  exists codepoints,
    Encoder.encode (Encoder.mk false 260 [] Encoder.initial_prefixes NEXT_BUMP_CODE 9)
                   gabba =
      (codepoints ++ [END_OF_INFO_CODE],
       Done (Encoder.mk false 260 [] Encoder.initial_prefixes NEXT_BUMP_CODE 9)) /\
    (length codepoints <= 4 * length gabba + 1)%nat.
Proof. apply (encode_total 260 _ gabba). reflexivity. Defined.

(** X6. After any number of input bytes the dictionary of an Encoder has at
    least its 259 initial entries, at most [max_code_size] entries, and at
    most as many as the bump threshold, which stays one less than a power of
    two: the width announced by the BUMP codes is enough for every code. *)
Theorem encoder_size_bounds (max_code_size : Z) (e : Encoder.t) (processed : list byte) :
  Encoder.__init__ max_code_size = Done e ->
  exists out e',
    Encoder.encode_loop e processed = (out, Done e') /\
    259 <= Encoder.code_size e' /\
    (Z.of_N (Encoder.code_size e') <= max_code_size)%Z /\
    Encoder.code_size e' <= Encoder._next_bumb_code e' /\
    exists k : nat, (9 <= k)%nat /\ Encoder._next_bumb_code e' + 1 = 2 ^ N.of_nat k.
Proof.
  intros Hinit. destruct (fresh_bounds _ _ Hinit) as (He & Hcfg & Hinv & Hb).
  assert (Hmax : Encoder._max_code_size e = max_code_size) by (rewrite He; reflexivity).
  destruct (encode_loop_bounds processed e Hinv Hb)
    as (o1 & e1 & Heq1 & _ & (Hlo & Hnb & Hmx & Hk) & _ & Hm1 & _);
    [rewrite Hmax; exact Hcfg|].
  exists o1, e1. split; [exact Heq1|]. split; [exact Hlo|].
  split; [rewrite <- Hmax, <- Hm1; exact Hmx|]. split; [exact Hnb|exact Hk].
Qed.

Lemma encoder_size_bounds_witness :
  exists out e',
    Encoder.encode_loop (Encoder.mk false 260 [] Encoder.initial_prefixes NEXT_BUMP_CODE 9)
                        gabba = (out, Done e') /\
    259 <= Encoder.code_size e' /\
    (Z.of_N (Encoder.code_size e') <= 260)%Z /\
    Encoder.code_size e' <= Encoder._next_bumb_code e' /\
    exists k : nat, (9 <= k)%nat /\ Encoder._next_bumb_code e' + 1 = 2 ^ N.of_nat k.
Proof. apply (encoder_size_bounds 260 _ gabba). reflexivity. Defined.

(** ** The Decoder *)

(** X9. The Decoder skips BUMP codes: a codepoint stream and the same stream
    without its BUMP codes decode alike, in what is yielded and in how the
    decoding ends. *)
Theorem decode_ignores_bump (self : Decoder.t) (codepoints : list N) :
  Decoder.decode_loop self (List.filter (fun cp => negb (cp =? BUMP_CODE)) codepoints) =
  Decoder.decode_loop self codepoints.
Proof.
  revert self; induction codepoints as [|cp rest IH]; intros self; [reflexivity|].
  cbn [List.filter]. destruct (cp =? BUMP_CODE) eqn:Hb; cbn [negb].
  - cbn [Decoder.decode_loop]. rewrite Hb. apply IH.
  - cbn [Decoder.decode_loop]. rewrite Hb.
    destruct (cp =? END_OF_INFO_CODE); [reflexivity|].
    destruct (Decoder._decode_codepoint self cp) as [[decoded self']|e]; [|reflexivity].
    rewrite IH. reflexivity.
Qed.

Lemma decode_codepoint_ext (d1 d2 : Decoder.t) (cp : N) :
  Decoder._codepoints d1 = Decoder._codepoints d2 ->
  Decoder._prefix d1 = Decoder._prefix d2 ->
  match Decoder._decode_codepoint d1 cp, Decoder._decode_codepoint d2 cp with
  | Done (v1, d1'), Done (v2, d2') =>
      v1 = v2 /\ Decoder._codepoints d1' = Decoder._codepoints d2' /\
      Decoder._prefix d1' = Decoder._prefix d2'
  | Raised e1, Raised e2 => e1 = e2
  | _, _ => False
  end.
Proof.
  intros Hc Hp. unfold Decoder._decode_codepoint. rewrite Hc, Hp.
  destruct (cp =? CLEAR_CODE); [repeat split|].
  destruct (cp =? END_OF_INFO_CODE); [reflexivity|].
  destruct (dict_contains cp (Decoder._codepoints d2)).
  - destruct (dict_get cp (Decoder._codepoints d2)) as [ret|]; [|reflexivity].
    destruct (Decoder._prefix d2) as [prefix|].
    + destruct (Decoder.getitem0 (Some ret)) as [c|e]; [|reflexivity].
      destruct (Decoder.add_bytes (Some prefix) [c]) as [new|e]; [|reflexivity].
      unfold Decoder.store; cbn. rewrite Hc. repeat split.
    + unfold Decoder.store; cbn. rewrite Hc. repeat split.
  - destruct (Decoder.getitem0 (Decoder._prefix d2)) as [c|e]; [|reflexivity].
    destruct (Decoder.add_bytes (Decoder._prefix d2) [c]) as [ret|e]; [|reflexivity].
    unfold Decoder.store; cbn. rewrite Hc. repeat split.
Qed.

Lemma decode_loop_ext (codepoints : list N) (d1 d2 : Decoder.t) :
  Decoder._codepoints d1 = Decoder._codepoints d2 ->
  Decoder._prefix d1 = Decoder._prefix d2 ->
  yielded (Decoder.decode_loop d1 codepoints) = yielded (Decoder.decode_loop d2 codepoints) /\
  raised (Decoder.decode_loop d1 codepoints) = raised (Decoder.decode_loop d2 codepoints).
Proof.
  revert d1 d2; induction codepoints as [|cp rest IH]; intros d1 d2 Hc Hp.
  - split; reflexivity.
  - cbn [Decoder.decode_loop]. destruct (cp =? BUMP_CODE); [apply IH; assumption|].
    destruct (cp =? END_OF_INFO_CODE); [split; reflexivity|].
    pose proof (decode_codepoint_ext d1 d2 cp Hc Hp) as Hstep.
    destruct (Decoder._decode_codepoint d1 cp) as [[v1 d1']|e1],
             (Decoder._decode_codepoint d2 cp) as [[v2 d2']|e2];
      try contradiction.
    + destruct Hstep as (-> & Hc' & Hp').
      destruct (IH d1' d2' Hc' Hp') as [Hy Hr].
      destruct v2 as [s|n]; [|split; reflexivity].
      cbn [Decoder.yield_characters]. unfold gbind, raised, yielded, ending in *.
      destruct (Decoder.decode_loop d1' rest) as [o1 r1],
               (Decoder.decode_loop d2' rest) as [o2 r2].
      cbn [fst snd] in *. split; [f_equal; exact Hy|exact Hr].
    + subst e2. split; reflexivity.
Qed.

(** X10. CLEAR makes the Decoder start over: what follows a CLEAR code decodes
    as by a newly constructed Decoder, whatever the state before it. *)
Theorem decode_after_clear (self : Decoder.t) (rest : list N) :
  yielded (Decoder.decode_loop self (CLEAR_CODE :: rest)) =
    yielded (Decoder.decode_loop Decoder.__init__ rest) /\
  raised (Decoder.decode_loop self (CLEAR_CODE :: rest)) =
    raised (Decoder.decode_loop Decoder.__init__ rest).
Proof.
  cbn [Decoder.decode_loop]. change (CLEAR_CODE =? BUMP_CODE) with false.
  change (CLEAR_CODE =? END_OF_INFO_CODE) with false. cbv iota.
  unfold Decoder._decode_codepoint. change (CLEAR_CODE =? CLEAR_CODE) with true. cbv iota.
  cbn [Decoder.yield_characters].
  destruct (decode_loop_ext rest (Decoder._clear_codes self) Decoder.__init__) as [Hy Hr];
    [reflexivity|reflexivity|].
  unfold gbind, raised, yielded, ending in *.
  destruct (Decoder.decode_loop (Decoder._clear_codes self) rest) as [o1 r1].
  cbn [fst snd app] in *. split; assumption.
Qed.

(** X11. A codepoint that is not in the dictionary while there is no previous
    string (first in the stream, or first after a CLEAR) makes [decode] raise
    [TypeError] without yielding anything; for a new Decoder these are the
    codepoints from 259 on. *)
Theorem decode_unknown_first (self : Decoder.t) (cp : N) (rest : list N) :
  Decoder._prefix self = None ->
  dict_contains cp (Decoder._codepoints self) = false ->
  cp <> BUMP_CODE -> cp <> END_OF_INFO_CODE -> cp <> CLEAR_CODE ->
  Decoder.decode_loop self (cp :: rest) = ([], Raised TypeError).
Proof.
  intros Hp Hc Hb He Hcl. cbn [Decoder.decode_loop].
  destruct (N.eqb_spec cp BUMP_CODE); [contradiction|].
  destruct (N.eqb_spec cp END_OF_INFO_CODE); [contradiction|].
  unfold Decoder._decode_codepoint.
  destruct (N.eqb_spec cp CLEAR_CODE); [contradiction|].
  destruct (N.eqb_spec cp END_OF_INFO_CODE); [contradiction|].
  rewrite Hc, Hp. reflexivity.
Qed.

Lemma decode_unknown_first_witness :
  Decoder.decode_loop Decoder.__init__ (259 :: [97; 98]) = ([], Raised TypeError).
Proof.
  apply (decode_unknown_first Decoder.__init__ 259 [97; 98]).
  - reflexivity.
  - vm_compute. reflexivity.
  - discriminate.
  - discriminate.
  - discriminate.
Defined.

(** ** Construction of the façade *)

(** X12. [ByteEncoder(max_width)] raises [ValueError] for a width below 9
    bits, for which [2^max_width] is less than the 259 initial codes, and
    otherwise pairs a fresh Encoder of [2^max_width] codes with a BitPacker
    started at 259 codes. *)
Theorem byte_encoder_init (max_width : nat) :
  ByteEncoder.__init__ max_width =
    if (max_width <? 9)%nat
    then Raised ValueError
    else Done (ByteEncoder.mk
                 (Encoder.mk false (2 ^ Z.of_nat max_width) [] Encoder.initial_prefixes
                             NEXT_BUMP_CODE 9)
                 (BitPacker.mk 259)).
Proof.
  unfold ByteEncoder.__init__. rewrite encoder_init_eq.
  destruct (Nat.ltb_spec max_width 9) as [Hlt|Hge].
  - assert (Hsmall : (2 ^ Z.of_nat max_width <= 2 ^ 8)%Z)
      by (apply Z.pow_le_mono_r; lia).
    destruct (Z.ltb_spec (2 ^ Z.of_nat max_width) 259) as [_|Hbig]; [reflexivity|].
    change (2 ^ 8)%Z with 256%Z in Hsmall. lia.
  - assert (Hlarge : (2 ^ 9 <= 2 ^ Z.of_nat max_width)%Z)
      by (apply Z.pow_le_mono_r; lia).
    destruct (Z.ltb_spec (2 ^ Z.of_nat max_width) 259) as [Hsmall|_].
    + change (2 ^ 9)%Z with 512%Z in Hlarge. lia.
    + unfold Encoder.code_size; cbn [Encoder._prefixes].
      rewrite encoder_initial_len. reflexivity.
Qed.

(** ** Round trips below the dictionary maximum *)

(** X2. Codepoint-level round trip: when the input cannot fill the dictionary
    past [max_code_size] (259 entries plus one per byte), the codepoints a
    fresh Encoder yields have END_OF_INFO last and nowhere else, each fits
    the width the BitPacker gives it, and a fresh Decoder yields from them
    exactly the input, with no exception. *)
Theorem encode_decode_roundtrip (max_code_size : Z) (e : Encoder.t) (x : list byte) :
  Encoder.__init__ max_code_size = Done e ->
  (259 + Z.of_nat (length x) <= max_code_size)%Z ->
  exists cps,
    yielded (Encoder.encode e x) = cps ++ [END_OF_INFO_CODE] /\
    raised (Encoder.encode e x) = None /\
    ~ In END_OF_INFO_CODE cps /\
    fits DEFAULT_MIN_BITS (cps ++ [END_OF_INFO_CODE]) /\
    yielded (fst (Decoder.decode Decoder.__init__ (yielded (Encoder.encode e x)))) = x /\
    raised (fst (Decoder.decode Decoder.__init__ (yielded (Encoder.encode e x)))) = None.
Proof.
  intros Hinit Hroom.
  destruct (encode_decode _ _ x Hinit Hroom) as (cps & e' & d' & Henc & Hno & Hfits & Hdec).
  exists cps. rewrite Henc.
  change (yielded (cps ++ [END_OF_INFO_CODE], Done e')) with (cps ++ [END_OF_INFO_CODE]).
  rewrite Hdec. split; [reflexivity|]. split; [reflexivity|].
  split; [exact Hno|]. split; [exact Hfits|]. split; reflexivity.
Qed.

Lemma encode_decode_roundtrip_witness :
  exists cps,
    yielded (Encoder.encode
               (Encoder.mk false 32768 [] Encoder.initial_prefixes NEXT_BUMP_CODE 9) gabba)
      = cps ++ [END_OF_INFO_CODE] /\
    raised (Encoder.encode
              (Encoder.mk false 32768 [] Encoder.initial_prefixes NEXT_BUMP_CODE 9) gabba)
      = None /\
    ~ In END_OF_INFO_CODE cps /\
    fits DEFAULT_MIN_BITS (cps ++ [END_OF_INFO_CODE]) /\
    yielded (fst (Decoder.decode Decoder.__init__
                    (yielded (Encoder.encode
                                (Encoder.mk false 32768 [] Encoder.initial_prefixes
                                            NEXT_BUMP_CODE 9) gabba)))) = gabba /\
    raised (fst (Decoder.decode Decoder.__init__
                   (yielded (Encoder.encode
                               (Encoder.mk false 32768 [] Encoder.initial_prefixes
                                           NEXT_BUMP_CODE 9) gabba)))) = None.
Proof.
  apply (encode_decode_roundtrip 32768 _ gabba).
  - reflexivity.
  - cbn [length gabba]. lia.
Defined.

(** X1. Byte-level round trip: for every input of at most 32509 bytes, which
    cannot take the default dictionary past its 32768 entries,
    [decompress(compress(x))] yields exactly [x] and raises nothing. *)
Theorem compress_decompress_roundtrip (x : list byte) :
  N.of_nat (length x) <= 32509 ->
  yielded (decompress (compress x)) = x /\
  raised (decompress (compress x)) = None.
Proof.
  intros Hlen. destruct (compress_decompress x Hlen) as (d' & ->). split; reflexivity.
Qed.

Lemma compress_decompress_roundtrip_witness :
  yielded (decompress (compress gabba)) = gabba /\
  raised (decompress (compress gabba)) = None.
Proof.
  apply (compress_decompress_roundtrip gabba). cbn [length gabba]. lia.
Defined.

(** X4. [compress] never raises, on any input: the Encoder never misses a
    key, the BitPacker only packs values below 256, and the default
    [max_width] is accepted; its output is at least the two bytes of an
    END_OF_INFO code. *)
Theorem compress_total (x : list byte) :
  ending (compress x) = Done tt /\ (2 <= length (yielded (compress x)))%nat.
Proof.
  assert (Hinit : Encoder.__init__ (2 ^ Z.of_nat DEFAULT_MAX_BITS) =
                  Done (Encoder.mk false (2 ^ Z.of_nat DEFAULT_MAX_BITS) []
                          Encoder.initial_prefixes NEXT_BUMP_CODE 9))
    by (rewrite encoder_init_eq; reflexivity).
  destruct (fresh_bounds _ _ Hinit) as (_ & Hcfg & Hinv & Hb).
  destruct (encode_loop_bounds x _ Hinv Hb Hcfg) as (o1 & e1 & Heq1 & Hinv1 & _).
  destruct (flush_ends e1 Hinv1) as (pre & Heq2 & _).
  unfold compress, ByteEncoder.__init__. rewrite Hinit.
  unfold ByteEncoder.encodetobytes; cbn [ByteEncoder._encoder ByteEncoder._packer].
  unfold Encoder.encode. rewrite Heq1, gbind_done, Heq2.
  unfold BitPacker.pack_gen, yielded, ending; cbn [fst snd].
  match goal with |- context [BitPacker.pack_loop ?s ?c] =>
    destruct (pack_loop_spec s c) as (out & t' & Hloop & Hbits) end.
  rewrite Hloop, gbind_done, pack_tail_spec.
  unfold yielded, ending; cbn [fst snd BitPacker.tailbits]. split; [reflexivity|].
  cbn [BitPacker.initial_state BitPacker.tailbits BitPacker.nextwidth] in Hbits.
  assert (Hlen : (9 <= length (bytestobits out ++ t'))%nat).
  { rewrite Hbits, app_assoc, raw_bits_app. cbn [raw_bits].
    change (END_OF_INFO_CODE =? END_OF_INFO_CODE) with true. cbv iota.
    rewrite pad_loop_7, !length_app, inttobits_length.
    pose proof (width_after_ge DEFAULT_MIN_BITS (o1 ++ pre)).
    unfold DEFAULT_MIN_BITS in *. lia. }
  rewrite length_app, bytestobits_length in Hlen.
  rewrite length_app.
  assert (Htail : length (bytes_of_bits t') = ((length t' + 7) / 8)%nat).
  { unfold bytes_of_bits.
    assert (Hm : map Byte.to_N (omap Byte.of_N (bitstobytes t')) = bitstobytes t').
    { pose proof (bitstobytes_bound t') as Hbd.
      induction Hbd as [|v l Hv _ IH]; [reflexivity|].
      cbn [omap list_omap]. destruct (Byte.of_N v) as [b|] eqn:Hof.
      - cbn [map]. rewrite IH. f_equal. apply Byte.to_of_N, Hof.
      - apply Byte.of_N_None_iff in Hof. lia. }
    rewrite <- (length_map Byte.to_N), Hm.
    destruct (split_aligned t') as (p & r & -> & Hp & Hr & Hmod).
    rewrite bitstobytes_aligned_app, !length_app by exact Hp.
    rewrite bitstobytes_aligned_length by exact Hp.
    destruct (bitstobytes_short_pad r Hr) as [_ ->]. mod_lia. }
  rewrite Htail. mod_lia.
Qed.


(** ** When the dictionary overflows *)

Lemma encode_byte_buffer (e e' : Encoder.t) (b : byte) (out : list N) :
  encoder_inv e ->
  Encoder._encode_byte e b = (out, Done e') ->
  Encoder._buffer e' <> [].
Proof.
  intros (_ & Hsingle & _ & _). unfold Encoder._encode_byte.
  destruct (dict_contains (inl (Encoder._buffer e ++ [b])) (Encoder._prefixes e)) eqn:Hc.
  - intros [= _ <-]. unfold Encoder.set_buffer; cbn [Encoder._buffer].
    destruct (Encoder._buffer e); discriminate.
  - destruct (Encoder._buffer e) as [|b0 buf].
    + exfalso. apply dict_contains_false in Hc. change ([] ++ [b]) with [b] in Hc.
      rewrite Hsingle in Hc. discriminate.
    + destruct (dict_get _ _); [|discriminate].
      intros [= _ <-]. unfold Encoder.set_buffer; cbn [Encoder._buffer]. discriminate.
Qed.

(** One input byte: either the Decoder can follow, or the dictionary passes
    its maximum and the flush ends the stream a Decoder reads. *)
Lemma encode_step_cases (e : Encoder.t) (d : Decoder.t) (b : byte) (W : nat) :
  lzw_rel e d -> width_ok e W ->
  (exists out e' s d',
      Encoder.encode_step e b = (out, Done e') /\
      lzw_rel e' d' /\
      width_ok e' (width_after W out) /\
      fits W out /\
      ~ In END_OF_INFO_CODE out /\
      (forall more,
          Decoder.decode_loop d (out ++ more) =
          (s ++ yielded (Decoder.decode_loop d' more),
           ending (Decoder.decode_loop d' more))) /\
      s ++ Encoder._buffer e' = Encoder._buffer e ++ [b]) \/
  (exists pre e' d',
      Encoder.encode_step e b = (pre ++ [END_OF_INFO_CODE], Done e') /\
      encoder_inv e' /\
      ~ In END_OF_INFO_CODE pre /\
      fits W (pre ++ [END_OF_INFO_CODE]) /\
      (forall more,
          Decoder.decode_loop d (pre ++ more) =
          ((Encoder._buffer e ++ [b]) ++ yielded (Decoder.decode_loop d' more),
           ending (Decoder.decode_loop d' more)))).
Proof.
  intros Hrel Hw.
  destruct (encode_byte_sim e d b W Hrel Hw)
    as (out1 & e1 & s & d1 & Heq1 & Hrel1 & Hdec1 & Hbuf1 & Hout1 & Hsz1 & Hmax1 & Hnb1).
  pose proof Hw as (Hsz & Hpow & HW).
  pose proof (pow2_ge_512 W HW) as H512.
  pose proof Hrel as [Hinv _]. pose proof Hrel1 as [Hinv1 _].
  pose proof (encode_byte_buffer _ _ _ _ Hinv Heq1) as Hne1.
  assert (Hshape : fits W out1 /\ width_after W out1 = W /\ ~ In END_OF_INFO_CODE out1).
  { destruct Hout1 as [->|(c & -> & Hc & Hcb & Hce)].
    - repeat split. intros [].
    - cbn [fits]. unfold width_after; cbn [fold_left].
      destruct (N.eqb_spec c BUMP_CODE) as [|_]; [contradiction|].
      repeat split; [lia|exact Hc|].
      intros [Hin|[]]. congruence. }
  destruct Hshape as (Hfits1 & Hwidth1 & Hnoend1).
  unfold Encoder.encode_step. rewrite Heq1, gbind_done.
  destruct (Z.gtb_spec (Z.of_N (Encoder.code_size e1)) (Encoder._max_code_size e1))
    as [Hflush|Hnoflush].
  - (* the dictionary is past its maximum: flush *)
    right.
    destruct (Encoder._buffer e1) as [|b0 buf] eqn:Hb1; [contradiction|].
    pose proof Hinv1 as (_ & _ & [Hnil|[code Hcode]] & _); [congruence|].
    rewrite Hb1 in Hcode.
    assert (Hfl : Encoder.flush e1 =
                  ([code; END_OF_INFO_CODE],
                   Done (Encoder._clear_codes (Encoder.set_buffer e1 [])))).
    { unfold Encoder.flush. rewrite Hb1, Hcode. reflexivity. }
    destruct (decode_emitted e1 d1 code Hrel1) as (d2 & Hdec2 & _ & Hmirror & Hcb & Hce);
      [rewrite Hb1; discriminate|rewrite Hb1; exact Hcode|].
    rewrite Hb1 in Hdec2.
    assert (Hno : (Encoder._next_bumb_code (Encoder._clear_codes (Encoder.set_buffer e1 []))
                   <? Encoder.code_size (Encoder._clear_codes (Encoder.set_buffer e1 [])))
                  = false).
    { enc_simpl. rewrite encoder_initial_len. reflexivity. }
    exists (out1 ++ [code]), (Encoder._clear_codes (Encoder.set_buffer e1 [])), d2.
    split.
    { rewrite Hfl, gbind_done. unfold yielded, ending; cbn [fst snd]. rewrite Hno.
      unfold gret. rewrite app_nil_r, <- app_assoc. reflexivity. }
    split; [apply encoder_inv_clear|].
    split.
    { intros Hin. apply in_app_or in Hin as [Hin|[Hin|[]]]; [contradiction|congruence]. }
    split.
    { rewrite <- app_assoc. apply fits_app. split; [exact Hfits1|]. rewrite Hwidth1.
      cbn [fits app]. destruct (N.eqb_spec code BUMP_CODE) as [|_]; [contradiction|].
      assert (code < dict_len (Decoder._codepoints d2)).
      { destruct Hmirror as (_ & Hkeys & Hiff).
        apply Hkeys, dict_contains_get. eexists. apply Hiff, Hcode. }
      destruct Hmirror as (Hl & _). unfold Encoder.code_size in *.
      unfold END_OF_INFO_CODE. repeat split; lia. }
    intros more. rewrite <- app_assoc, Hdec1. cbn [app].
    rewrite (decode_loop_code d1 d2 code (b0 :: buf) more Hcb Hce Hdec2).
    unfold yielded, ending; cbn [fst snd]. rewrite app_assoc, Hbuf1. reflexivity.
  - left. rewrite gbind_gret_l.
    destruct (N.ltb_spec (Encoder._next_bumb_code e1) (Encoder.code_size e1)) as [Hbump|Hnobump].
    + eexists (out1 ++ [BUMP_CODE]), _, s, d1.
      split; [reflexivity|]. split.
      { destruct Hrel1 as [Hi Hd1]. split; [exact Hi|exact Hd1]. }
      split.
      { rewrite width_after_app, Hwidth1. unfold width_after; cbn [fold_left].
        change (BUMP_CODE =? BUMP_CODE) with true. cbv iota.
        unfold width_ok, Encoder.code_size in *.
        cbn [Encoder._prefixes Encoder._next_bumb_code].
        rewrite next_bump_double, Nat2N.inj_succ, N.pow_succ_r'. lia. }
      split.
      { apply fits_app. split; [exact Hfits1|]. rewrite Hwidth1. cbn [fits].
        unfold BUMP_CODE. repeat split; lia. }
      split.
      { intros Hin. apply in_app_or in Hin as [Hin|[Hin|[]]]; [contradiction|discriminate]. }
      split.
      { intros more. rewrite <- app_assoc, Hdec1. reflexivity. }
      exact Hbuf1.
    + exists (out1 ++ []), e1, s, d1.
      split; [reflexivity|]. split; [exact Hrel1|].
      rewrite app_nil_r. split.
      { rewrite Hwidth1. split; [exact Hnobump|]. rewrite Hnb1. split; assumption. }
      split; [exact Hfits1|]. split; [exact Hnoend1|].
      split; [exact Hdec1|exact Hbuf1].
Qed.

(** Any number of input bytes: either the Decoder follows to the end, or the
    output has an END_OF_INFO in it, up to which the Decoder gives a prefix
    of the input. *)
Lemma encode_loop_cases (x : list byte) (e : Encoder.t) (d : Decoder.t) (W : nat) :
  lzw_rel e d -> width_ok e W ->
  (exists out e' s d',
      Encoder.encode_loop e x = (out, Done e') /\
      lzw_rel e' d' /\
      width_ok e' (width_after W out) /\
      fits W out /\
      ~ In END_OF_INFO_CODE out /\
      (forall more,
          Decoder.decode_loop d (out ++ more) =
          (s ++ yielded (Decoder.decode_loop d' more),
           ending (Decoder.decode_loop d' more))) /\
      s ++ Encoder._buffer e' = Encoder._buffer e ++ x) \/
  (exists pre post e' s d',
      Encoder.encode_loop e x = (pre ++ END_OF_INFO_CODE :: post, Done e') /\
      encoder_inv e' /\
      ~ In END_OF_INFO_CODE pre /\
      fits W (pre ++ [END_OF_INFO_CODE]) /\
      (forall more,
          Decoder.decode_loop d (pre ++ more) =
          (s ++ yielded (Decoder.decode_loop d' more),
           ending (Decoder.decode_loop d' more))) /\
      exists n, s = firstn n (Encoder._buffer e ++ x)).
Proof.
  revert e d W; induction x as [|b x IH]; intros e d W Hrel Hw.
  - left. exists [], e, [], d. split; [reflexivity|]. split; [exact Hrel|].
    split; [exact Hw|]. split; [exact I|]. split; [intros []|].
    split; [|rewrite app_nil_r; reflexivity].
    intros more. cbn [app]. destruct (Decoder.decode_loop d more); reflexivity.
  - cbn [Encoder.encode_loop].
    destruct (encode_step_cases e d b W Hrel Hw)
      as [(o1 & e1 & s1 & d1 & Heq1 & Hrel1 & Hw1 & Hfits1 & Hnoend1 & Hdec1 & Hbuf1)
         |(pre & e1 & d1 & Heq1 & Hinv1 & Hnoend1 & Hfits1 & Hdec1)].
    + rewrite Heq1, gbind_done.
      destruct (IH e1 d1 _ Hrel1 Hw1)
        as [(o2 & e2 & s2 & d2 & Heq2 & Hrel2 & Hw2 & Hfits2 & Hnoend2 & Hdec2 & Hbuf2)
           |(pre & post & e2 & s2 & d2 & Heq2 & Hinv2 & Hnoend2 & Hfits2 & Hdec2 & n & Hn)].
      * left. exists (o1 ++ o2), e2, (s1 ++ s2), d2. rewrite Heq2.
        split; [reflexivity|]. split; [exact Hrel2|].
        split; [rewrite width_after_app; exact Hw2|].
        split; [apply fits_app; split; assumption|].
        split.
        { intros Hin. apply in_app_or in Hin as [Hin|Hin]; contradiction. }
        split.
        { intros more. rewrite <- app_assoc, Hdec1, Hdec2.
          unfold yielded, ending; cbn [fst snd]. rewrite app_assoc. reflexivity. }
        rewrite <- app_assoc, Hbuf2, app_assoc, Hbuf1, <- app_assoc. reflexivity.
      * right. exists (o1 ++ pre), post, e2, (s1 ++ s2), d2. rewrite Heq2.
        split; [unfold yielded, ending; cbn [fst snd]; rewrite <- app_assoc; reflexivity|].
        split; [exact Hinv2|].
        split.
        { intros Hin. apply in_app_or in Hin as [Hin|Hin]; contradiction. }
        split; [rewrite <- app_assoc; apply fits_app; split; assumption|].
        split.
        { intros more. rewrite <- app_assoc, Hdec1, Hdec2.
          unfold yielded, ending; cbn [fst snd]. rewrite app_assoc. reflexivity. }
        exists (length s1 + n)%nat. subst s2.
        change (b :: x) with ([b] ++ x). rewrite app_assoc, <- Hbuf1, <- app_assoc.
        symmetry. apply firstn_app_2.
    + right. rewrite Heq1, gbind_done.
      destruct (encode_loop_spec e1 x Hinv1) as (post & e2 & Heq2 & Hinv2 & _ & _).
      exists pre, post, e2, (Encoder._buffer e ++ [b]), d1. rewrite Heq2.
      split; [unfold yielded, ending; cbn [fst snd]; rewrite <- app_assoc; reflexivity|].
      split; [exact Hinv2|]. split; [exact Hnoend1|]. split; [exact Hfits1|].
      split; [exact Hdec1|].
      exists (length (Encoder._buffer e ++ [b])).
      change (b :: x) with ([b] ++ x). rewrite app_assoc.
      rewrite <- (Nat.add_0_r (length (Encoder._buffer e ++ [b]))).
      rewrite firstn_app_2. cbn [firstn]. rewrite app_nil_r. reflexivity.
Qed.

(** The codepoints of [encode], whatever [max_code_size]: up to the first
    END_OF_INFO they fit the packing widths, and a fresh Decoder makes a
    prefix of the input of them. *)
Lemma encode_stream_prefix (max_code_size : Z) (e : Encoder.t) (x : list byte) :
  Encoder.__init__ max_code_size = Done e ->
  exists pre post e' n d',
    Encoder.encode e x = (pre ++ END_OF_INFO_CODE :: post, Done e') /\
    ~ In END_OF_INFO_CODE pre /\
    fits DEFAULT_MIN_BITS (pre ++ [END_OF_INFO_CODE]) /\
    Decoder.decode_loop Decoder.__init__ pre = (firstn n x, Done d').
Proof.
  intros Hinit.
  destruct (fresh_lzw_rel _ _ Hinit) as (Hrel & Hw & Hbuf & _ & _).
  unfold Encoder.encode.
  destruct (encode_loop_cases x e Decoder.__init__ DEFAULT_MIN_BITS Hrel Hw)
    as [(out & e1 & s & d1 & Heq1 & Hrel1 & Hw1 & Hfits1 & Hnoend1 & Hdec1 & Hbuf1)
       |(pre & post & e1 & s & d1 & Heq1 & Hinv1 & Hnoend1 & Hfits1 & Hdec1 & n & Hn)].
  - rewrite Hbuf in Hbuf1. cbn [app] in Hbuf1.
    pose proof Hw1 as (Hsz1 & Hpow1 & HW1).
    pose proof (pow2_ge_512 _ HW1) as H512.
    rewrite Heq1, gbind_done. unfold Encoder.flush.
    destruct (Encoder._buffer e1) as [|b0 buf] eqn:Hb1.
    + exists out, []. eexists _, (length x), d1. split; [reflexivity|].
      split; [exact Hnoend1|]. split.
      { apply fits_app. split; [exact Hfits1|]. cbn [fits].
        unfold END_OF_INFO_CODE. repeat split; lia. }
      rewrite <- (app_nil_r out), Hdec1. rewrite app_nil_r in Hbuf1. subst s.
      rewrite firstn_all. cbn. rewrite app_nil_r. reflexivity.
    + pose proof Hrel1 as [Hinv1 _].
      destruct Hinv1 as (_ & _ & [Hnil|[code Hcode]] & _); [congruence|].
      rewrite Hb1 in Hcode. rewrite Hcode.
      destruct (decode_emitted e1 d1 code Hrel1) as (d2 & Hdec2 & _ & Hmirror & Hnb & Hne);
        [rewrite Hb1; discriminate|rewrite Hb1; exact Hcode|].
      rewrite Hb1 in Hdec2.
      exists (out ++ [code]), []. eexists _, (length x), d2.
      split; [cbn; rewrite <- app_assoc; reflexivity|].
      split.
      { intros Hin. apply in_app_or in Hin as [Hin|[Hin|[]]]; [contradiction|congruence]. }
      split.
      { rewrite <- app_assoc. apply fits_app. split; [exact Hfits1|]. cbn [fits app].
        destruct (N.eqb_spec code BUMP_CODE) as [|_]; [contradiction|].
        change (END_OF_INFO_CODE =? BUMP_CODE) with false. cbv iota.
        assert (code < dict_len (Decoder._codepoints d2)).
        { destruct Hmirror as (_ & Hkeys & Hiff).
          apply Hkeys, dict_contains_get. eexists. apply Hiff, Hcode. }
        destruct Hmirror as (Hl & _). unfold Encoder.code_size in Hsz1.
        unfold END_OF_INFO_CODE. repeat split; lia. }
      rewrite Hdec1.
      rewrite (decode_loop_code d1 d2 code (b0 :: buf) [] Hnb Hne Hdec2).
      cbn. rewrite app_nil_r, Hbuf1, firstn_all. reflexivity.
  - rewrite Heq1, gbind_done.
    destruct (flush_ends e1 Hinv1) as (fl & Hfl & _). rewrite Hfl.
    exists pre, (post ++ fl ++ [END_OF_INFO_CODE]). eexists _, n, d1.
    split; [unfold yielded, ending; cbn [fst snd]; rewrite <- app_assoc; reflexivity|].
    split; [exact Hnoend1|]. split; [exact Hfits1|].
    rewrite <- (app_nil_r pre), Hdec1. rewrite Hbuf in Hn. cbn [app] in Hn. subst s.
    cbn. rewrite app_nil_r. reflexivity.
Qed.

(** The BitUnpacker reads back what was packed up to the first END_OF_INFO,
    whatever follows it. *)
Lemma unpack_pack_upto_end (packer : BitPacker.t) (unpacker : BitUnpacker.t)
      (pre post : list N) :
  fits DEFAULT_MIN_BITS (pre ++ [END_OF_INFO_CODE]) ->
  exists rest st',
    BitUnpacker.unpack unpacker
      (yielded (BitPacker.pack packer (pre ++ END_OF_INFO_CODE :: post))) =
    (pre ++ END_OF_INFO_CODE :: rest, Done st').
Proof.
  intros Hfits. unfold BitPacker.pack, BitUnpacker.unpack.
  rewrite pack_from_spec. unfold yielded; cbn [fst].
  cbn [BitPacker.initial_state BitPacker.tailbits BitPacker.nextwidth].
  change (pre ++ END_OF_INFO_CODE :: post) with (pre ++ [END_OF_INFO_CODE] ++ post).
  rewrite app_assoc, raw_bits_app.
  destruct (unpack_raw_bits (pre ++ [END_OF_INFO_CODE]) [] DEFAULT_MIN_BITS
              (BitUnpacker._initial_code_size unpacker) Hfits) as (R1 & Hraw & Hrun).
  cbn [app] in Hraw.
  pose proof (raw_bits_end_aligned [] DEFAULT_MIN_BITS pre) as Halign.
  rewrite Hraw in *.
  set (w1 := width_after DEFAULT_MIN_BITS (pre ++ [END_OF_INFO_CODE])) in *.
  replace (raw_bits R1 w1 post) with (R1 ++ raw_bits [] w1 post)
    by (rewrite <- (raw_bits_prefix R1 [] w1 post Halign), app_nil_r; reflexivity).
  set (R2 := raw_bits [] w1 post).
  unfold bytes_of_bits. rewrite bitstobytes_pad.
  fold (bytes_of_bits ((R1 ++ R2) ++
          repeat false ((8 - length (R1 ++ R2) mod 8) mod 8))).
  rewrite bytestobits_bytes_of_bits by (rewrite length_app, repeat_length; mod_lia).
  set (k := ((8 - length (R1 ++ R2) mod 8) mod 8)%nat).
  change (BitUnpacker.mkstate [] (N.of_nat (length []) mod 8) 0
            (BitUnpacker._initial_code_size unpacker) DEFAULT_MIN_BITS)
    with (BitUnpacker.initial_state unpacker) in Hrun.
  rewrite <- app_assoc.
  rewrite (unpack_bits_app _ _ R1 (R2 ++ repeat false k) _ Hrun).
  match goal with |- context [BitUnpacker.unpack_bits ?s (R2 ++ repeat false k)] =>
    destruct (unpack_bits_count (R2 ++ repeat false k) s) as (rest & st' & Heq & _) end.
  { cbn [BitUnpacker.pointwidth].
    pose proof (width_after_ge DEFAULT_MIN_BITS (pre ++ [END_OF_INFO_CODE])).
    unfold DEFAULT_MIN_BITS in *. subst w1. lia. }
  exists rest, st'. rewrite Heq. unfold yielded, ending; cbn [fst snd].
  rewrite <- app_assoc. reflexivity.
Qed.

(** Byte level, every input: [decompress(compress(x))] ends normally with a
    prefix of [x]. *)
Lemma compress_decompress_prefix (x : list byte) :
  exists n d', decompress (compress x) = (firstn n x, Done d').
Proof.
  assert (Hinit : Encoder.__init__ (2 ^ Z.of_nat DEFAULT_MAX_BITS) =
                  Done (Encoder.mk false (2 ^ Z.of_nat DEFAULT_MAX_BITS) []
                          Encoder.initial_prefixes NEXT_BUMP_CODE 9))
    by (rewrite encoder_init_eq; reflexivity).
  destruct (encode_stream_prefix _ _ x Hinit)
    as (pre & post & e' & n & d' & Henc & Hnoend & Hfits & Hdec).
  exists n, d'. unfold compress, ByteEncoder.__init__. rewrite Hinit.
  unfold ByteEncoder.encodetobytes; cbn [ByteEncoder._encoder ByteEncoder._packer].
  rewrite Henc. unfold BitPacker.pack_gen, yielded, ending; cbn [fst snd].
  fold (BitPacker.pack_from
          (BitPacker.initial_state
             (BitPacker.mk (Encoder.code_size
                              (Encoder.mk false (2 ^ Z.of_nat DEFAULT_MAX_BITS) []
                                 Encoder.initial_prefixes NEXT_BUMP_CODE 9))))
          (pre ++ END_OF_INFO_CODE :: post)).
  fold (BitPacker.pack
          (BitPacker.mk (Encoder.code_size
                           (Encoder.mk false (2 ^ Z.of_nat DEFAULT_MAX_BITS) []
                              Encoder.initial_prefixes NEXT_BUMP_CODE 9)))
          (pre ++ END_OF_INFO_CODE :: post)).
  set (packer := BitPacker.mk _).
  destruct (unpack_pack_upto_end packer (ByteDecoder._unpacker ByteDecoder.__init__)
              pre post Hfits) as (rest & st' & Hunpack).
  unfold decompress, ByteDecoder.decodefrombytes, BitUnpacker.unpack_gen.
  assert (Hpack : ending (BitPacker.pack packer (pre ++ END_OF_INFO_CODE :: post)) = Done tt)
    by (unfold BitPacker.pack; rewrite pack_from_spec; reflexivity).
  rewrite Hpack, Hunpack, gbind_done.
  unfold Decoder.decode_gen, yielded, ending; cbn [fst snd gret].
  rewrite app_nil_r.
  change (ByteDecoder._decoder ByteDecoder.__init__) with Decoder.__init__.
  unfold Decoder.decode, Decoder.materialise. cbn [fst].
  rewrite decode_loop_end_of_info by exact Hnoend. exact Hdec.
Qed.

(** X16. For every input, also one that takes the dictionary past its
    maximum, [decompress(compress(x))] raises nothing and yields a prefix of
    [x]: what is lost when the Encoder flushes in mid-stream is a tail of
    the input, and nothing wrong is ever put out. *)
Theorem decompress_compress_prefix (x : list byte) :
  exists n,
    yielded (decompress (compress x)) = firstn n x /\
    raised (decompress (compress x)) = None.
Proof.
  destruct (compress_decompress_prefix x) as (n & d' & ->).
  exists n. split; reflexivity.
Qed.

(** X17. Whatever [max_code_size] the Encoder was made with, [encode] raises
    nothing, and a fresh Decoder raises nothing on its codepoints and yields
    a prefix of the input: a flush in mid-stream, when the dictionary passes
    [max_code_size], cuts the decoded text short but never corrupts it. *)
Theorem encode_decode_prefix (max_code_size : Z) (e : Encoder.t) (x : list byte) :
  Encoder.__init__ max_code_size = Done e ->
  exists n,
    raised (Encoder.encode e x) = None /\
    yielded (fst (Decoder.decode Decoder.__init__ (yielded (Encoder.encode e x))))
      = firstn n x /\
    raised (fst (Decoder.decode Decoder.__init__ (yielded (Encoder.encode e x)))) = None.
Proof.
  intros Hinit.
  destruct (encode_stream_prefix _ _ x Hinit)
    as (pre & post & e' & n & d' & Henc & Hnoend & _ & Hdec).
  exists n. rewrite Henc.
  change (yielded (pre ++ END_OF_INFO_CODE :: post, Done e'))
    with (pre ++ END_OF_INFO_CODE :: post).
  unfold Decoder.decode, Decoder.materialise. cbn [fst].
  rewrite decode_loop_end_of_info by exact Hnoend. rewrite Hdec.
  split; [reflexivity|]. split; reflexivity.
Qed.

Lemma encode_decode_prefix_witness :
  exists n,
    raised (Encoder.encode
              (Encoder.mk false 259 [] Encoder.initial_prefixes NEXT_BUMP_CODE 9) gabba)
      = None /\
    yielded (fst (Decoder.decode Decoder.__init__
               (yielded (Encoder.encode
                  (Encoder.mk false 259 [] Encoder.initial_prefixes NEXT_BUMP_CODE 9)
                  gabba))))
      = firstn n gabba /\
    raised (fst (Decoder.decode Decoder.__init__
               (yielded (Encoder.encode
                  (Encoder.mk false 259 [] Encoder.initial_prefixes NEXT_BUMP_CODE 9)
                  gabba)))) = None.
Proof.
  apply (encode_decode_prefix 259
           (Encoder.mk false 259 [] Encoder.initial_prefixes NEXT_BUMP_CODE 9) gabba).
  rewrite encoder_init_eq. reflexivity.
Defined.
